(** * AWoL-MRF (pub_mrf2.4.py): a shallow embedding and its properties

    The class [AWoL_MRF] of [Versions/pub_mrf2.4.py] is embedded as a record
    and one function per method.

    - Volumes are the C-order ravel of the numpy arrays: [list]s indexed by
      the flat voxel index.  Label arrays hold integers; the intensity array
      is taken to hold [float64].
    - Python [float]s and numpy [float64] are Rocq's binary64 primitive
      floats.  The vote tensor, a [float64] array that only ever holds small
      counts, is a table of [nat].
    - [int16] and [uint16] cells are [Z] with the wrap-around written out
      where numpy wraps (array arithmetic); a Python integer outside the range
      of the cell it is assigned to is an [OverflowError], as in NumPy 2.
    - Python exceptions are the [Raise] results of a small error monad; a
      local variable that may be read before it is bound is an [option].
    - The library routines the class calls are either given by what they
      compute ([np.unique], [np.argmax], [sorted], the ball query of
      [KDTree.query_ball_tree], which compares squared distances with the
      square of the radius it is given), or left as parameters ([np.log],
      [np.mean], [np.std], [csgraph.minimum_spanning_tree]).
    - The methods are followed first without a bounding box ([bbox=None]),
      then with one (the crop of the constructor, the padding of
      [get_output_image], the box the command line computes); reading and
      writing image files stay outside. *)

From Stdlib Require Import ZArith Lia List Bool Permutation Sorted.
From Stdlib Require Import Floats.
From stdpp Require Import base option list gmap.
Import ListNotations.

Local Open Scope Z_scope.

(** ** Python exceptions *)

Inductive exn : Type :=
  | AssertionError | IndexError | ValueError | UnboundLocalError | AttributeError
  | OverflowError.

Inductive result (A : Type) : Type :=
  | Ok (a : A)
  | Raise (e : exn).
Arguments Ok {A} a.
Arguments Raise {A} e.

#[global] Instance result_ret : MRet result := fun _ a => Ok a.
#[global] Instance result_bind : MBind result := fun _ _ k r =>
  match r with
  | Ok a => k a
  | Raise e => Raise e
  end.

Definition raises {A} (r : result A) : Prop :=
  match r with Ok _ => False | Raise _ => True end.

(** ** numpy helpers *)

(** [np.unique]: the distinct values, ascending. *)
Fixpoint insert_unique (x : Z) (l : list Z) : list Z :=
  match l with
  | [] => [x]
  | y :: l' =>
      if x <? y then x :: l
      else if x =? y then l
      else y :: insert_unique x l'
  end.

Definition np_unique (a : list Z) : list Z :=
  fold_right insert_unique [] a.

(** [np.asarray(a != b).any()] for two one-dimensional arrays.  Arrays of
    one length are compared cell by cell; an array of one cell is broadcast
    against the other; any other pair of lengths is a [ValueError] (NumPy 2). *)
Definition arrays_differ (a b : list Z) : result bool :=
  match a, b with
  | [x], _ => Ok (existsb (fun y => negb (x =? y)) b)
  | _, [y] => Ok (existsb (fun x => negb (x =? y)) a)
  | _, _ =>
      if (length a =? length b)%nat
      then Ok (existsb (fun xy => negb (fst xy =? snd xy)) (combine a b))
      else Raise ValueError
  end.

(** One more in every cell of [row] whose index is in
    [np.where(label_array == value)]. *)
Fixpoint incr_cells (value : Z) (label_array : list Z) (row : list nat) : list nat :=
  match row, label_array with
  | c :: row', l :: label_array' =>
      (if l =? value then S c else c) :: incr_cells value label_array' row'
  | _, _ => row
  end.

(** [row[np.where(label_array == value)] += 1]: the indices are checked
    against the row first, and one that lies outside is an [IndexError]. *)
Definition incr_where (value : Z) (label_array : list Z) (row : list nat)
    : result (list nat) :=
  if existsb (Z.eqb value) (skipn (length row) label_array)
  then Raise IndexError
  else Ok (incr_cells value label_array row).

(** The inner loop of lines 72-73: [votes[i]] against [label_values[i]]. *)
Fixpoint count_votes (label_values : list Z) (label_array : list Z)
    (votes : list (list nat)) : result (list (list nat)) :=
  match label_values, votes with
  | value :: values', row :: votes' =>
      row ← incr_where value label_array row;
      votes' ← count_votes values' label_array votes';
      Ok (row :: votes')
  | _, _ => Ok votes
  end.

(** The loop of lines 59-73 after its first iteration ([n > 0]): every
    further image must show the label values of the first one. *)
Fixpoint vote_loop (label_values : list Z) (imgs : list (list Z))
    (votes : list (list nat)) : result (list (list nat)) :=
  match imgs with
  | [] => Ok votes
  | label_array :: imgs' =>
      differ ← arrays_differ (np_unique label_array) label_values;
      if differ : bool then Raise AssertionError
      else
        votes ← count_votes label_values label_array votes;
        vote_loop label_values imgs' votes
  end.

(** Lines 58-73: the label values and the vote tensor, [votes[k][p]].  With
    no image at all [self.label_values] is never assigned, and line 75 ends
    in [AttributeError]. *)
Definition collect_votes (labelimg_list : list (list Z))
    : result (list Z * list (list nat)) :=
  match labelimg_list with
  | [] => Raise AttributeError
  | first :: rest =>
      let label_values := np_unique first in
      let votes := repeat (repeat 0%nat (length first)) (length label_values) in
      votes ← count_votes label_values first votes;
      votes ← vote_loop label_values rest votes;
      Ok (label_values, votes)
  end.

(** [np.argmax] and [np.amax] of a non-empty vector: the first index of the
    largest entry, and that entry. *)
Fixpoint argmax_from (l : list Z) (i besti : nat) (best : Z) : nat :=
  match l with
  | [] => besti
  | x :: l' =>
      if best <? x then argmax_from l' (S i) i x
      else argmax_from l' (S i) besti best
  end.

Definition np_argmax (l : list Z) : nat :=
  match l with
  | [] => 0%nat
  | x :: l' => argmax_from l' 1 0 x
  end.

Definition np_amax (l : list Z) : Z := nth (np_argmax l) l 0.

(** [votes[:, p]] *)
Definition column (votes : list (list nat)) (p : nat) : list Z :=
  map (fun row => Z.of_nat (nth p row 0%nat)) votes.

(** [np.sum(votes != 0, axis=0)[p]] *)
Definition n_labels (votes : list (list nat)) (p : nat) : nat :=
  length (List.filter (fun c => negb (c =? 0)) (column votes p)).

(** An [int16] cell holding [z]. *)
Definition int16 (z : Z) : Z := (z + 32768) mod 65536 - 32768.

(** A [uint16] cell holding [z]. *)
Definition uint16 (z : Z) : Z := z mod 65536.

(** A small integer as [float64]. *)
Definition float_of_Z (z : Z) : float :=
  if z <? 0 then (- PrimFloat.of_uint63 (Uint63.of_Z (- z)))%float
  else PrimFloat.of_uint63 (Uint63.of_Z z).

Definition float_of_nat (n : nat) : float := float_of_Z (Z.of_nat n).

(** ** The object *)

(** The attributes of [self].  An attribute the code has not assigned yet,
    or has deleted, is empty here. *)
Record AWoL_MRF : Type := {
  beta : float;
  mixing_ratio : Z;
  patch_length : Z;
  shape : nat * nat * nat;                (* [self.labels.shape] *)
  label_values : list Z;
  mode : list nat * list Z;               (* index of the mode label, its votes *)
  labels : list Z;                        (* [int16], [-1] for low confidence *)
  intensity : list float;
  no_lcv : bool;
  lcv : list nat;
  neighbors_small : gmap nat (list nat);
  neighbors_big : gmap nat (list nat);
  label_count : list (list Z);            (* [uint16], [label_count[p][k]] *)
  new_labels : list Z;                    (* [int16] *)
  seeds : list nat;
  patches : list (list nat);
  do_walk : bool;
  lcvp : list nat;
  patch_stats : list (Z * (float * float)); (* a dict, in insertion order *)
  seq : list nat
}.

(** ** [__init__] (lines 31-98), without a bounding box *)

Definition positive_int (x : Z) : result Z :=
  if x <? 0 then Raise AssertionError else Ok x.

Definition restricted_float (x : float) : result float :=
  if (x <? 0)%float || (1 <? x)%float then Raise AssertionError else Ok x.

(** Lines 50-51. *)
Fixpoint check_thresholds (thresholds : list float) : result unit :=
  match thresholds with
  | [] => Ok tt
  | threshold :: rest => _ ← restricted_float threshold; check_thresholds rest
  end.

(** [thresholds[-1]] *)
Definition last_item (thresholds : list float) : result float :=
  match last thresholds with
  | Some t => Ok t
  | None => Raise IndexError
  end.

(** Lines 79-80: [missing] is [len(self.label_values) - len(thresholds)] when
    the loop is entered, the number of times its body runs. *)
Fixpoint pad_thresholds (missing : nat) (thresholds : list float) : result (list float) :=
  match missing with
  | O => Ok thresholds
  | S missing' =>
      t ← last_item thresholds;
      pad_thresholds missing' (thresholds ++ [t])
  end.

(** Lines 75-80. *)
Definition match_thresholds (label_values : list Z) (same_threshold : bool)
    (thresholds : list float) : result (list float) :=
  if (length label_values =? length thresholds)%nat then Ok thresholds
  else if negb same_threshold then Raise AssertionError
  else pad_thresholds (length label_values - length thresholds) thresholds.

(** Line 93 at voxel [p]: [(1.0/n_labels + thresholds[i])*nimg]. *)
Definition min_votes (votes : list (list nat)) (thresholds : list float)
    (nimg : nat) (i p : nat) : float :=
  ((1 / float_of_nat (n_labels votes p) + nth i thresholds 0) * float_of_nat nimg)%float.

(** Line 94 at voxel [p]. *)
Definition above_threshold (votes : list (list nat)) (mode : list nat * list Z)
    (thresholds : list float) (nimg : nat) (i p : nat) : bool :=
  (nth p (fst mode) 0 =? i)%nat
  && ((n_labels votes p =? 1)%nat
      || (min_votes votes thresholds nimg i p <=? float_of_Z (nth p (snd mode) 0%Z))%float).

(** A Python [int] on its way into an [int16] cell: one that does not fit
    is an [OverflowError] (NumPy 2), wherever it was to go. *)
Definition to_int16 (value : Z) : result Z :=
  if (value <? -32768) || (32767 <? value) then Raise OverflowError else Ok value.

(** Lines 91-95, from label index [i] on; [values] is
    [self.label_values.tolist()], a list of Python [int]s. *)
Fixpoint find_hcv (votes : list (list nat)) (mode : list nat * list Z)
    (thresholds : list float) (nimg : nat) (i : nat) (values : list Z)
    (labels : list Z) : result (list Z) :=
  match values with
  | [] => Ok labels
  | value :: values' =>
      cell ← to_int16 value;
      find_hcv votes mode thresholds nimg (S i) values'
        (imap (fun p old =>
                 if above_threshold votes mode thresholds nimg i p
                 then cell else old) labels)
  end.

(** [np.argmax(votes, axis=0)] and [np.amax(votes, axis=0)] (line 82). *)
Definition mode_of (votes : list (list nat)) : list nat * list Z :=
  let nvox := length (nth 0 votes []) in
  (map (fun p => np_argmax (column votes p)) (List.seq 0 nvox),
   map (fun p => np_amax (column votes p)) (List.seq 0 nvox)).

(** The constructor.  It returns the object and the caller's [thresholds]
    list, which lines 79-80 extend in place.  [shape] is the shape of the
    label arrays, which come raveled; arrays without a voxel have no label
    value, and [np.argmax] of line 82 ends in [ValueError]. *)
Definition __init__ (labelimg_list : list (list Z)) (brainimg : list float)
    (shape : nat * nat * nat)
    (beta : float) (mixing_ratio patch_length : Z) (same_threshold : bool)
    (thresholds : list float) : result (AWoL_MRF * list float) :=
  mixing_ratio ← positive_int mixing_ratio;
  patch_length ← positive_int patch_length;
  _ ← check_thresholds thresholds;
  '(label_values, votes) ← collect_votes labelimg_list;
  thresholds ← match_thresholds label_values same_threshold thresholds;
  match label_values with
  | [] => Raise ValueError
  | _ :: _ =>
      let nvox := length (nth 0 votes []) in
      let mode := mode_of votes in
      let labels := repeat (int16 (0 - 1)) nvox in
      labels ← find_hcv votes mode thresholds (length labelimg_list) 0
                 label_values labels;
      Ok ({| beta := beta; mixing_ratio := mixing_ratio; patch_length := patch_length;
             shape := shape; label_values := label_values; mode := mode;
             labels := labels; intensity := brainimg;
             no_lcv := false; lcv := []; neighbors_small := ∅; neighbors_big := ∅;
             label_count := []; new_labels := []; seeds := []; patches := [];
             do_walk := false; lcvp := []; patch_stats := []; seq := [] |},
          thresholds)
  end.

(** ** Lists as Python has them *)

(** [sorted(l)], a stable sort. *)
Fixpoint insert_sorted {A} (leb : A -> A -> bool) (x : A) (l : list A) : list A :=
  match l with
  | [] => [x]
  | y :: l' => if leb x y then x :: l else y :: insert_sorted leb x l'
  end.

Definition sorted {A} (leb : A -> A -> bool) (l : list A) : list A :=
  fold_right (insert_sorted leb) [] l.

(** The order of Python tuples [(c, seed)]. *)
Definition pair_leb (a b : nat * nat) : bool :=
  (fst a <? fst b)%nat || ((fst a =? fst b)%nat && (snd a <=? snd b)%nat).

(** [l.remove(x)]: the first occurrence goes, [ValueError] without one. *)
Fixpoint list_remove {A} (eqb : A -> A -> bool) (x : A) (l : list A) : result (list A) :=
  match l with
  | [] => Raise ValueError
  | y :: l' =>
      if eqb x y then Ok l'
      else l'' ← list_remove eqb x l'; Ok (y :: l'')
  end.

(** [x in l] *)
Definition mem (x : nat) (l : list nat) : bool := existsb (Nat.eqb x) l.

(** ** Voxel geometry *)

(** [np.unravel_index(p, shape)] *)
Definition unravel_index (p : nat) (shape : nat * nat * nat) : Z * Z * Z :=
  let '(d, h, w) := shape in
  (Z.of_nat (p / (h * w)), Z.of_nat ((p / w) mod h), Z.of_nat (p mod w)).

(** The squared Euclidean distance of two voxels. *)
Definition dist2 (shape : nat * nat * nat) (p q : nat) : Z :=
  let '(pz, py, px) := unravel_index p shape in
  let '(qz, qy, qx) := unravel_index q shape in
  (pz - qz) * (pz - qz) + (py - qy) * (py - qy) + (px - qx) * (px - qx).

(** [KDTree(...).query_ball_tree(self.tree, r)] for one query voxel.
    [self.tree] holds the coordinates of every voxel in raveled order (line
    141), so that its indices are flat voxel indices.  The tree compares the
    squared distance with [r*r]; the bound comes as the integer [r2], the
    greatest squared distance within it: 1 and [patch_length]**2 for the radii
    1 and [patch_length], and [sqrt3_ball] for the radius [np.sqrt(3)]. *)
Definition query_ball (shape : nat * nat * nat) (nvox : nat) (r2 : Z) (p : nat)
    : list nat :=
  List.filter (fun q => dist2 shape p q <=? r2) (List.seq 0 nvox).

(** The squared distances within the radius [np.sqrt(3)] of line 156.  In
    binary64 the square of [np.sqrt(3)] is 2.9999999999999996, below 3: the
    voxels at squared distance 3, the eight corners of the cube around a voxel,
    are outside the ball, and what the code calls the 26-voxel neighbourhood
    holds 18 voxels. *)
Definition sqrt3_ball : Z :=
  if (float_of_Z 3 <=? sqrt 3 * sqrt 3)%float then 3 else 2.

(** The local function [neighbors] of [find_lcv] (lines 144-153). *)
Fixpoint neighbors (shape : nat * nat * nat) (nvox : nat) (r2 : Z)
    (lcv : list nat) (acc : gmap nat (list nat)) : result (gmap nat (list nat)) :=
  match lcv with
  | [] => Ok acc
  | p :: lcv' =>
      qbt ← list_remove Nat.eqb p (query_ball shape nvox r2 p);
      neighbors shape nvox r2 lcv' (<[p := sorted Nat.leb qbt]> acc)
  end.

(** Attribute assignment, [self.f = v]. *)

Definition set_labels (v : list Z) (self : AWoL_MRF) : AWoL_MRF :=
  {| beta := beta self; mixing_ratio := mixing_ratio self; patch_length :=
     patch_length self; shape := shape self; label_values := label_values
     self; mode := mode self; labels := v; intensity := intensity self;
     no_lcv := no_lcv self; lcv := lcv self; neighbors_small :=
     neighbors_small self; neighbors_big := neighbors_big self; label_count
     := label_count self; new_labels := new_labels self; seeds := seeds
     self; patches := patches self; do_walk := do_walk self; lcvp := lcvp
     self; patch_stats := patch_stats self; seq := seq self |}.

Definition set_no_lcv (v : bool) (self : AWoL_MRF) : AWoL_MRF :=
  {| beta := beta self; mixing_ratio := mixing_ratio self; patch_length :=
     patch_length self; shape := shape self; label_values := label_values
     self; mode := mode self; labels := labels self; intensity := intensity
     self; no_lcv := v; lcv := lcv self; neighbors_small := neighbors_small
     self; neighbors_big := neighbors_big self; label_count := label_count
     self; new_labels := new_labels self; seeds := seeds self; patches :=
     patches self; do_walk := do_walk self; lcvp := lcvp self; patch_stats
     := patch_stats self; seq := seq self |}.

Definition set_lcv (v : list nat) (self : AWoL_MRF) : AWoL_MRF :=
  {| beta := beta self; mixing_ratio := mixing_ratio self; patch_length :=
     patch_length self; shape := shape self; label_values := label_values
     self; mode := mode self; labels := labels self; intensity := intensity
     self; no_lcv := no_lcv self; lcv := v; neighbors_small :=
     neighbors_small self; neighbors_big := neighbors_big self; label_count
     := label_count self; new_labels := new_labels self; seeds := seeds
     self; patches := patches self; do_walk := do_walk self; lcvp := lcvp
     self; patch_stats := patch_stats self; seq := seq self |}.

Definition set_neighbors_small (v : gmap nat (list nat)) (self : AWoL_MRF) : AWoL_MRF :=
  {| beta := beta self; mixing_ratio := mixing_ratio self; patch_length :=
     patch_length self; shape := shape self; label_values := label_values
     self; mode := mode self; labels := labels self; intensity := intensity
     self; no_lcv := no_lcv self; lcv := lcv self; neighbors_small := v;
     neighbors_big := neighbors_big self; label_count := label_count self;
     new_labels := new_labels self; seeds := seeds self; patches := patches
     self; do_walk := do_walk self; lcvp := lcvp self; patch_stats :=
     patch_stats self; seq := seq self |}.

Definition set_neighbors_big (v : gmap nat (list nat)) (self : AWoL_MRF) : AWoL_MRF :=
  {| beta := beta self; mixing_ratio := mixing_ratio self; patch_length :=
     patch_length self; shape := shape self; label_values := label_values
     self; mode := mode self; labels := labels self; intensity := intensity
     self; no_lcv := no_lcv self; lcv := lcv self; neighbors_small :=
     neighbors_small self; neighbors_big := v; label_count := label_count
     self; new_labels := new_labels self; seeds := seeds self; patches :=
     patches self; do_walk := do_walk self; lcvp := lcvp self; patch_stats
     := patch_stats self; seq := seq self |}.

Definition set_label_count (v : list (list Z)) (self : AWoL_MRF) : AWoL_MRF :=
  {| beta := beta self; mixing_ratio := mixing_ratio self; patch_length :=
     patch_length self; shape := shape self; label_values := label_values
     self; mode := mode self; labels := labels self; intensity := intensity
     self; no_lcv := no_lcv self; lcv := lcv self; neighbors_small :=
     neighbors_small self; neighbors_big := neighbors_big self; label_count
     := v; new_labels := new_labels self; seeds := seeds self; patches :=
     patches self; do_walk := do_walk self; lcvp := lcvp self; patch_stats
     := patch_stats self; seq := seq self |}.

Definition set_new_labels (v : list Z) (self : AWoL_MRF) : AWoL_MRF :=
  {| beta := beta self; mixing_ratio := mixing_ratio self; patch_length :=
     patch_length self; shape := shape self; label_values := label_values
     self; mode := mode self; labels := labels self; intensity := intensity
     self; no_lcv := no_lcv self; lcv := lcv self; neighbors_small :=
     neighbors_small self; neighbors_big := neighbors_big self; label_count
     := label_count self; new_labels := v; seeds := seeds self; patches :=
     patches self; do_walk := do_walk self; lcvp := lcvp self; patch_stats
     := patch_stats self; seq := seq self |}.

Definition set_seeds (v : list nat) (self : AWoL_MRF) : AWoL_MRF :=
  {| beta := beta self; mixing_ratio := mixing_ratio self; patch_length :=
     patch_length self; shape := shape self; label_values := label_values
     self; mode := mode self; labels := labels self; intensity := intensity
     self; no_lcv := no_lcv self; lcv := lcv self; neighbors_small :=
     neighbors_small self; neighbors_big := neighbors_big self; label_count
     := label_count self; new_labels := new_labels self; seeds := v; patches
     := patches self; do_walk := do_walk self; lcvp := lcvp self;
     patch_stats := patch_stats self; seq := seq self |}.

Definition set_patches (v : list (list nat)) (self : AWoL_MRF) : AWoL_MRF :=
  {| beta := beta self; mixing_ratio := mixing_ratio self; patch_length :=
     patch_length self; shape := shape self; label_values := label_values
     self; mode := mode self; labels := labels self; intensity := intensity
     self; no_lcv := no_lcv self; lcv := lcv self; neighbors_small :=
     neighbors_small self; neighbors_big := neighbors_big self; label_count
     := label_count self; new_labels := new_labels self; seeds := seeds
     self; patches := v; do_walk := do_walk self; lcvp := lcvp self;
     patch_stats := patch_stats self; seq := seq self |}.

Definition set_do_walk (v : bool) (self : AWoL_MRF) : AWoL_MRF :=
  {| beta := beta self; mixing_ratio := mixing_ratio self; patch_length :=
     patch_length self; shape := shape self; label_values := label_values
     self; mode := mode self; labels := labels self; intensity := intensity
     self; no_lcv := no_lcv self; lcv := lcv self; neighbors_small :=
     neighbors_small self; neighbors_big := neighbors_big self; label_count
     := label_count self; new_labels := new_labels self; seeds := seeds
     self; patches := patches self; do_walk := v; lcvp := lcvp self;
     patch_stats := patch_stats self; seq := seq self |}.

Definition set_lcvp (v : list nat) (self : AWoL_MRF) : AWoL_MRF :=
  {| beta := beta self; mixing_ratio := mixing_ratio self; patch_length :=
     patch_length self; shape := shape self; label_values := label_values
     self; mode := mode self; labels := labels self; intensity := intensity
     self; no_lcv := no_lcv self; lcv := lcv self; neighbors_small :=
     neighbors_small self; neighbors_big := neighbors_big self; label_count
     := label_count self; new_labels := new_labels self; seeds := seeds
     self; patches := patches self; do_walk := do_walk self; lcvp := v;
     patch_stats := patch_stats self; seq := seq self |}.

Definition set_patch_stats (v : list (Z * (float * float))) (self : AWoL_MRF) : AWoL_MRF :=
  {| beta := beta self; mixing_ratio := mixing_ratio self; patch_length :=
     patch_length self; shape := shape self; label_values := label_values
     self; mode := mode self; labels := labels self; intensity := intensity
     self; no_lcv := no_lcv self; lcv := lcv self; neighbors_small :=
     neighbors_small self; neighbors_big := neighbors_big self; label_count
     := label_count self; new_labels := new_labels self; seeds := seeds
     self; patches := patches self; do_walk := do_walk self; lcvp := lcvp
     self; patch_stats := v; seq := seq self |}.

Definition set_seq (v : list nat) (self : AWoL_MRF) : AWoL_MRF :=
  {| beta := beta self; mixing_ratio := mixing_ratio self; patch_length :=
     patch_length self; shape := shape self; label_values := label_values
     self; mode := mode self; labels := labels self; intensity := intensity
     self; no_lcv := no_lcv self; lcv := lcv self; neighbors_small :=
     neighbors_small self; neighbors_big := neighbors_big self; label_count
     := label_count self; new_labels := new_labels self; seeds := seeds
     self; patches := patches self; do_walk := do_walk self; lcvp := lcvp
     self; patch_stats := patch_stats self; seq := v |}.

(** The voxels of [l] that hold [value] in the flat array [a]:
    [np.asarray(l)[a[l] == value]]. *)
Definition where_eq (a : list Z) (value : Z) (l : list nat) : list nat :=
  List.filter (fun q => nth q a 0 =? value) l.

(** ** [find_lcv] (lines 124-159) *)

Definition find_lcv (self : AWoL_MRF) : result AWoL_MRF :=
  let nvox := length (labels self) in
  let lcv := where_eq (labels self) (-1) (List.seq 0 nvox) in
  let self := set_lcv lcv self in
  match lcv with
  | [] => Ok (set_no_lcv true self)
  | _ :: _ =>
      let self := set_no_lcv false self in
      small ← neighbors (shape self) nvox 1 lcv ∅;
      big ← neighbors (shape self) nvox sqrt3_ball lcv ∅;
      let self := set_neighbors_small small self in
      let self := set_neighbors_big big self in
      let self := set_label_count
                    (repeat (repeat 0 (length (label_values self))) nvox) self in
      Ok (set_new_labels (labels self) self)
  end.

(** ** [find_seeds] (lines 161-187) *)

(** [sum(lflat[n] != -1)] *)
Definition n_hcv (lflat : list Z) (n : list nat) : nat :=
  length (List.filter (fun q => negb (nth q lflat 0 =? -1)) n).

(** The loop of lines 170-175; it returns [(confidence_level, seeds)]. *)
Fixpoint rank_lcv (self : AWoL_MRF) (lcvs : list nat) : list nat * list nat :=
  match lcvs with
  | [] => ([], [])
  | lcv :: lcvs' =>
      let n := n_hcv (labels self) (default [] (neighbors_big self !! lcv)) in
      let '(confidence_level, seeds) := rank_lcv self lcvs' in
      if mixing_ratio self <? Z.of_nat n
      then (n :: confidence_level, lcv :: seeds)
      else (confidence_level, seeds)
  end.

Definition find_seeds (self : AWoL_MRF) : AWoL_MRF :=
  let '(confidence_level, seeds) := rank_lcv self (lcv self) in
  let self := set_neighbors_big ∅ self in
  match seeds with
  | [] => set_seeds [] self
  | _ :: _ =>
      let seeds := rev (map snd (sorted pair_leb (combine confidence_level seeds))) in
      let patches :=
        map (fun seed =>
               sorted Nat.leb
                 (query_ball (shape self) (length (labels self))
                    (patch_length self * patch_length self) seed)) seeds in
      set_patches patches (set_seeds seeds self)
  end.

(** ** The walk over one patch *)

Section Walk.

(** numpy's [np.log], [np.mean] and [np.std], and scipy's
    [csgraph.minimum_spanning_tree] followed by [.toarray()]. *)
Variable np_log : float -> float.
Variable np_mean np_std : list float -> float.
Variable minimum_spanning_tree : list (list float) -> list (list float).

(** Lines 204-207, over the label values that are left. *)
Fixpoint patch_stats_loop (self : AWoL_MRF) (patch : list nat) (values : list Z)
    : list (Z * (float * float)) :=
  match values with
  | [] => []
  | value :: values' =>
      let points :=
        map (fun q => nth q (intensity self) 0%float)
            (where_eq (labels self) value patch) in
      if (1 <? length points)%nat
      then (value, (np_mean points, np_std points)) :: patch_stats_loop self patch values'
      else patch_stats_loop self patch values'
  end.

(** [get_patch] (lines 189-214) *)
Definition get_patch (self : AWoL_MRF) : result AWoL_MRF :=
  match patches self with
  | [] => Raise IndexError
  | patch :: patches' =>
      let still_lcv_patch := where_eq (new_labels self) (-1) patch in
      if (0 <? length still_lcv_patch)%nat then
        let self := set_lcvp (where_eq (labels self) (-1) patch) self in
        let self := set_patch_stats
                      (patch_stats_loop self patch (label_values self)) self in
        let self := set_do_walk true self in
        Ok (set_patches patches' self)
      else
        let self := set_do_walk false self in
        match seeds self with
        | [] => Raise IndexError
        | _ :: seeds' => Ok (set_seeds seeds' (set_patches patches' self))
        end
  end.

(** Lines 228-233: the entry [weightm[wx][wy]] for [wx <= wy]. *)
Definition weight (self : AWoL_MRF) (x y : nat) : float :=
  if mem x (default [] (neighbors_small self !! y))
  then abs (nth x (intensity self) 0 - nth y (intensity self) 0)%float
  else (100 * sqrt (float_of_Z (dist2 (shape self) x y)))%float.

(** Lines 224-233: only the upper triangle is filled. *)
Definition weight_matrix (self : AWoL_MRF) : list (list float) :=
  let n := length (lcvp self) in
  map (fun wx =>
         map (fun wy =>
                if (wx <=? wy)%nat
                then weight self (nth wx (lcvp self) 0%nat) (nth wy (lcvp self) 0%nat)
                else 0%float)
             (List.seq 0 n))
      (List.seq 0 n).

(** [m[i][j]] *)
Definition entry (m : list (list float)) (e : nat * nat) : float :=
  nth (snd e) (nth (fst e) m []) 0%float.

(** [np.argwhere(m).tolist()]: the positions of the non-zero entries, row
    by row. *)
Definition argwhere (m : list (list float)) : list (nat * nat) :=
  flat_map (fun i =>
              flat_map (fun j => if (entry m (i, j) =? 0)%float then [] else [(i, j)])
                       (List.seq 0 (length (nth i m []))))
           (List.seq 0 (length m)).

(** [np.amax(m)] *)
Definition np_amax_float (m : list (list float)) : float :=
  fold_left (fun acc x =>
               if is_nan acc then acc
               else if is_nan x then x
               else if (acc <? x)%float then x else acc)
            (concat m) neg_infinity.

Definition edge_eqb (e f : nat * nat) : bool :=
  (fst e =? fst f)%nat && (snd e =? snd f)%nat.

(** The [for] loop of lines 243-246.  [nextedge] is a local variable of
    [get_mst_sequence]: it has no value until the loop assigns one, and keeps
    the value of an earlier round of the [while] loop otherwise. *)
Fixpoint find_nextedge (mst : list (list float)) (seq : list nat)
    (edges : list (nat * nat)) (mincost : float) (nextedge : option (nat * nat))
    : float * option (nat * nat) :=
  match edges with
  | [] => (mincost, nextedge)
  | e :: edges' =>
      if (mem (fst e) seq || mem (snd e) seq) && (entry mst e <? mincost)%float
      then find_nextedge mst seq edges' (entry mst e) (Some e)
      else find_nextedge mst seq edges' mincost nextedge
  end.

(** The [while] loop of lines 241-253; every round removes one edge, and
    [rounds] bounds their number. *)
Fixpoint mst_walk (rounds : nat) (mst : list (list float)) (edges : list (nat * nat))
    (seq : list nat) (nextedge : option (nat * nat)) : result (list nat) :=
  match edges, rounds with
  | [], _ => Ok seq
  | _ :: _, O => Ok seq
  | _ :: _, S rounds' =>
      let mincost := (np_amax_float mst + 1)%float in
      match snd (find_nextedge mst seq edges mincost nextedge) with
      | None => Raise UnboundLocalError
      | Some nextedge =>
          let seq := if mem (fst nextedge) seq then seq ++ [snd nextedge]
                     else seq ++ [fst nextedge] in
          edges ← list_remove edge_eqb nextedge edges;
          mst_walk rounds' mst edges seq (Some nextedge)
      end
  end.

(** [np.argwhere(a == x)[0][0]] *)
Fixpoint index_of (x : nat) (a : list nat) : result nat :=
  match a with
  | [] => Raise IndexError
  | y :: a' => if (x =? y)%nat then Ok 0%nat else i ← index_of x a'; Ok (S i)
  end.

(** [get_mst_sequence] (lines 216-257) *)
Definition get_mst_sequence (self : AWoL_MRF) : result AWoL_MRF :=
  let mst := minimum_spanning_tree (weight_matrix self) in
  match seeds self with
  | [] => Raise IndexError
  | seed :: seeds' =>
      start ← index_of seed (lcvp self);
      let edges := argwhere mst in
      seq ← mst_walk (length edges) mst edges [start] None;
      let self := set_seq (map (fun i => nth i (lcvp self) 0%nat) seq) self in
      Ok (set_seeds seeds' self)
  end.

(** [np.pi] *)
Definition np_pi : float := 0x1.921fb54442d18p+1%float.

(** Line 273. *)
Definition mrf_single (x mean std : float) : float :=
  (np_log (sqrt (2 * np_pi) * std) + ((x - mean) * (x - mean)) / (2 * (std * std)))%float.

(** Line 274. *)
Definition mrf_double (beta : float) (nlflat : list Z) (n : list nat) (value : Z)
    : float :=
  (beta * float_of_Z (2 * Z.of_nat (length (where_eq nlflat value n))
                      + Z.of_nat (length (where_eq nlflat (-1) n))
                      - Z.of_nat (length n)))%float.

(** The total energy of one entry of [patch_stats] at voxel [lcv]. *)
Definition mrf_total (self : AWoL_MRF) (lcv : nat) (stat : Z * (float * float))
    : float :=
  let '(value, (mean, std)) := stat in
  (mrf_single (nth lcv (intensity self) 0) mean std
   + mrf_double (beta self) (new_labels self)
       (default [] (neighbors_small self !! lcv)) value)%float.

(** The [for] loop of lines 271-278.  [new_label] is a local variable of
    [mrf_potentials]: it has no value until a label is selected, and keeps
    the label selected at an earlier voxel otherwise. *)
Fixpoint select_label (self : AWoL_MRF) (lcv : nat)
    (stats : list (Z * (float * float))) (mrf_energy : float)
    (new_label : option Z) : float * option Z :=
  match stats with
  | [] => (mrf_energy, new_label)
  | stat :: stats' =>
      if (mrf_total self lcv stat <? mrf_energy)%float
      then select_label self lcv stats' (mrf_total self lcv stat) (Some (fst stat))
      else select_label self lcv stats' mrf_energy new_label
  end.

(** [np.where(a == x)[0][0]] *)
Fixpoint index_of_Z (x : Z) (a : list Z) : result nat :=
  match a with
  | [] => Raise IndexError
  | y :: a' => if x =? y then Ok 0%nat else i ← index_of_Z x a'; Ok (S i)
  end.

(** Lines 281-282: one more vote for [new_label] at [lcv]; the working label
    of [lcv] follows the tally. *)
Definition update_label_count (self : AWoL_MRF) (lcv : nat) (new_label : Z)
    : result AWoL_MRF :=
  k ← index_of_Z new_label (label_values self);
  let row := nth lcv (label_count self) [] in
  let row := <[k := uint16 (nth k row 0 + 1)]> row in
  let self := set_label_count (<[lcv := row]> (label_count self)) self in
  let label := nth (np_argmax row) (label_values self) 0 in
  Ok (set_new_labels (<[lcv := int16 label]> (new_labels self)) self).

(** The body of the loop of lines 268-282. *)
Definition mrf_visit (self : AWoL_MRF) (new_label : option Z) (lcv : nat)
    : result (AWoL_MRF * option Z) :=
  match snd (select_label self lcv (patch_stats self) infinity new_label) with
  | None => Raise UnboundLocalError
  | Some new_label =>
      self ← update_label_count self lcv new_label;
      Ok (self, Some new_label)
  end.

Fixpoint mrf_loop (self : AWoL_MRF) (new_label : option Z) (seq : list nat)
    : result AWoL_MRF :=
  match seq with
  | [] => Ok self
  | lcv :: seq' =>
      '(self, new_label) ← mrf_visit self new_label lcv;
      mrf_loop self new_label seq'
  end.

(** [mrf_potentials] (lines 259-284) *)
Definition mrf_potentials (self : AWoL_MRF) : result AWoL_MRF :=
  self ← mrf_loop self None (seq self);
  Ok (set_patch_stats [] (set_seq [] self)).

(** ** [final_labels] (lines 286-298) *)

(** The loop of lines 296-297, from label index [i] on; [still_lcv] are the
    voxels that held the sentinel when the method was entered. *)
Fixpoint assign_mode (mode0 : list nat) (still_lcv : list nat) (i : nat)
    (values : list Z) (nlflat : list Z) : list Z :=
  match values with
  | [] => nlflat
  | value :: values' =>
      assign_mode mode0 still_lcv (S i) values'
        (imap (fun p old =>
                 if mem p still_lcv && (nth p mode0 0 =? i)%nat
                 then int16 value else old) nlflat)
  end.

Definition final_labels (self : AWoL_MRF) : AWoL_MRF :=
  let nlflat := new_labels self in
  let still_lcv := where_eq nlflat (-1) (List.seq 0 (length nlflat)) in
  let nlflat := assign_mode (fst (mode self)) still_lcv 0 (label_values self) nlflat in
  set_labels nlflat (set_new_labels nlflat self).

(** [get_output_image] (lines 300-315), without a bounding box: the array
    the image is made of. *)
Definition get_output_image (self : AWoL_MRF) : list Z := labels self.

(** ** [run] (lines 100-122) *)

(** The loop of lines 114-119; every round takes one seed off the queue, and
    [rounds] bounds their number. *)
Fixpoint seed_loop (rounds : nat) (self : AWoL_MRF) : result AWoL_MRF :=
  match seeds self, rounds with
  | [], _ => Ok self
  | _ :: _, O => Ok self
  | _ :: _, S rounds' =>
      self ← get_patch self;
      if do_walk self then
        self ← get_mst_sequence self;
        self ← mrf_potentials self;
        seed_loop rounds' self
      else seed_loop rounds' self
  end.

Definition run (self : AWoL_MRF) : result (list Z) :=
  self ← find_lcv self;
  if no_lcv self then Ok (get_output_image self)
  else
    let self := find_seeds self in
    self ← seed_loop (length (seeds self)) self;
    Ok (get_output_image (final_labels self)).

End Walk.

(** ** The vocabulary of the properties *)

(** The votes a voxel holds, all labels together. *)
Definition vote_sum (votes : list (list nat)) (p : nat) : nat :=
  list_sum (map (fun row => nth p row 0%nat) votes).

(** Line 94 at voxel [p], for the mode label of [p]. *)
Definition confident (votes : list (list nat)) (thresholds : list float)
    (nimg p : nat) : bool :=
  (n_labels votes p =? 1)%nat
  || (min_votes votes thresholds nimg (np_argmax (column votes p)) p
      <=? float_of_Z (np_amax (column votes p)))%float.

(** What [restricted_float] rejects. *)
Definition outside_unit_interval (t : float) : Prop :=
  (t <? 0)%float = true \/ (1 <? t)%float = true.

(** The inputs the constructor is said to reject. *)
Definition invalid_inputs (first : list Z) (rest : list (list Z))
    (mr pl : Z) (same : bool) (thr : list float) : Prop :=
  mr < 0 \/ pl < 0
  \/ Exists outside_unit_interval thr
  \/ Exists (fun img => np_unique img <> np_unique first) rest
  \/ (length thr <> length (np_unique first) /\ same = false).

(** The majority-vote volume: every voxel holds its mode label. *)
Definition majority_vote (self : AWoL_MRF) : list Z :=
  map (fun m => nth m (label_values self) 0) (fst (mode self)).

(** The score of a low-confidence voxel, line 171. *)
Definition score (self : AWoL_MRF) (lcv : nat) : nat :=
  n_hcv (labels self) (default [] (neighbors_big self !! lcv)).

(** What the scan of lines 271-278 holds after the entries [seen], for the
    energies [energy] and the label [stale] the visit started with: either
    nothing was selected and no entry seen had an energy below [inf], or the
    entry at [i] was, the first among those of least energy. *)
Definition scanned (energy : Z * (float * float) -> float) (stale : option Z)
    (seen : list (Z * (float * float))) (mrf_energy : float)
    (new_label : option Z) : Prop :=
  (new_label = stale /\ mrf_energy = infinity
   /\ forall s, In s seen -> (energy s <? infinity)%float = false)
  \/ exists i s,
       seen !! i = Some s /\ new_label = Some (fst s) /\ mrf_energy = energy s
       /\ (energy s <? infinity)%float = true
       /\ (forall s', In s' seen -> (energy s' <? energy s)%float = false)
       /\ (forall j s', (j < i)%nat -> seen !! j = Some s' ->
             (energy s' <=? energy s)%float = false).

(** ** Statements of the specification the code does not meet, as they are written *)

(** C1 as stated: the visit of [lcv] votes for a label of [patch_stats] of
    least total energy, the first such label. *)
Definition visit_votes_minimum (np_log : float -> float) (self : AWoL_MRF)
    (stale : option Z) (lcv : nat) : Prop :=
  let energy := mrf_total np_log self lcv in
  exists i stat,
    patch_stats self !! i = Some stat
    /\ mrf_visit np_log self stale lcv
       = (self' ← update_label_count self lcv (fst stat); Ok (self', Some (fst stat)))
    /\ (forall s, In s (patch_stats self) -> (energy s <? energy stat)%float = false)
    /\ (forall j s, (j < i)%nat -> patch_stats self !! j = Some s ->
          (energy s <=? energy stat)%float = false).

(** C4 as stated, for the label just voted: when its count is the highest
    one, alone or tied, the working label of the voxel is that label. *)
Definition latest_vote_breaks_ties (self : AWoL_MRF) (lcv : nat) (new_label : Z)
    : Prop :=
  forall self' i,
    update_label_count self lcv new_label = Ok self' ->
    index_of_Z new_label (label_values self) = Ok i ->
    let tally := nth lcv (label_count self') [] in
    (forall j, (j < length tally)%nat -> nth j tally 0 <= nth i tally 0) ->
    nth lcv (new_labels self') 0 = new_label.


(** What every spanning-tree routine grants: it keeps edges of the graph it
    is given, and adds none. *)
Definition keeps_edges (minimum_spanning_tree : list (list float) -> list (list float))
    (weightm : list (list float)) : Prop :=
  forall e, In e (argwhere (minimum_spanning_tree weightm)) -> In e (argwhere weightm).

(** And it leaves the weight of an edge it keeps as it is: the entry of the
    tree matrix, the one line 244 reads, is the entry of the graph. *)
Definition keeps_weights (minimum_spanning_tree : list (list float) -> list (list float))
    (weightm : list (list float)) : Prop :=
  forall e, In e (argwhere (minimum_spanning_tree weightm)) ->
    entry (minimum_spanning_tree weightm) e = entry weightm e.

(** ** Instances of the library routines, for the examples *)

(** The tangent of the logarithm at 1.  The properties below hold for every
    [np_log]; an example that has to compute energies takes this one. *)
Definition log_tangent (x : float) : float := (x - 1)%float.

(** Mean and standard deviation by sequential summation. *)
Definition sum_seq (l : list float) : float := fold_left PrimFloat.add l 0%float.

Definition mean_seq (l : list float) : float :=
  (sum_seq l / float_of_nat (length l))%float.

Definition std_seq (l : list float) : float :=
  let m := mean_seq l in
  sqrt (mean_seq (map (fun x => (x - m) * (x - m))%float l)).

(** Kruskal's algorithm over the non-zero entries of a weight matrix, by
    ascending weight; [comp] maps a node to the component it is in. *)
Fixpoint kruskal_loop (edges : list (nat * nat)) (comp : list nat)
    (kept : list (nat * nat)) : list (nat * nat) :=
  match edges with
  | [] => kept
  | e :: edges' =>
      let ci := nth (fst e) comp 0%nat in
      let cj := nth (snd e) comp 0%nat in
      if (ci =? cj)%nat then kruskal_loop edges' comp kept
      else kruskal_loop edges'
             (map (fun c => if (c =? cj)%nat then ci else c) comp) (kept ++ [e])
  end.

Definition kruskal (weightm : list (list float)) : list (list float) :=
  let edges := sorted (fun e f => (entry weightm e <=? entry weightm f)%float)
                 (argwhere weightm) in
  let kept := kruskal_loop edges (List.seq 0 (length weightm)) [] in
  imap (fun i row =>
          imap (fun j x => if existsb (edge_eqb (i, j)) kept then x else 0%float) row)
       weightm.

(** ** Example volumes *)

#[local] Set Warnings "-inexact-float".

(** Four voxels in a row, two candidates that disagree on the two voxels in
    the middle; constant intensity, [mixing_ratio = 0], [patch_length = 1]. *)
Definition row4_imgs : list (list Z) := [[0; 0; 1; 1]; [0; 1; 0; 1]].

Definition row4_brain : list float := [50; 50; 50; 50]%float.

Definition row4 : AWoL_MRF :=
  {| beta := (-0.2)%float; mixing_ratio := 0; patch_length := 1;
     shape := (1, 1, 4)%nat; label_values := [0; 1];
     mode := ([0; 0; 0; 1]%nat, [2; 1; 1; 2]);
     labels := [0; -1; -1; 1]; intensity := row4_brain;
     no_lcv := false; lcv := []; neighbors_small := ∅; neighbors_big := ∅;
     label_count := []; new_labels := []; seeds := []; patches := [];
     do_walk := false; lcvp := []; patch_stats := []; seq := [] |}.

(** [row4] after [find_lcv], after [find_seeds] and after [get_patch]. *)
Definition row4_found : AWoL_MRF :=
  set_new_labels [0; -1; -1; 1]
    (set_label_count [[0; 0]; [0; 0]; [0; 0]; [0; 0]]
       (set_neighbors_big {[ 1%nat := [0; 2]%nat; 2%nat := [1; 3]%nat ]}
          (set_neighbors_small {[ 1%nat := [0; 2]%nat; 2%nat := [1; 3]%nat ]}
             (set_lcv [1; 2]%nat row4)))).

Definition row4_seeded : AWoL_MRF :=
  set_patches [[1; 2; 3]; [0; 1; 2]]%nat
    (set_seeds [2; 1]%nat (set_neighbors_big ∅ row4_found)).

Definition row4_patch : AWoL_MRF :=
  set_patches [[0; 1; 2]]%nat
    (set_do_walk true (set_patch_stats [] (set_lcvp [1; 2]%nat row4_seeded))).

(** [row4_found] once voxel 1 got a first vote, for label 0. *)
Definition row4_voted : AWoL_MRF :=
  set_new_labels [0; 0; -1; 1]
    (set_label_count [[0; 0]; [1; 0]; [0; 0]; [0; 0]] row4_found).

(** [row4_seeded] with its queue at the second seed, once the walk around the
    first seed has resolved voxels 1 and 2. *)
Definition row4_resolved : AWoL_MRF :=
  set_patches [[0; 1; 2]]%nat
    (set_seeds [1]%nat
       (set_new_labels [0; 0; 1; 1]
          (set_label_count [[0; 0]; [1; 0]; [0; 1]; [0; 0]] row4_seeded))).

(** Six voxels in a row, two candidates that disagree on the two voxels in
    the middle, which have one intensity; [patch_length = 3]. *)
Definition row6_imgs : list (list Z) := [[0; 0; 0; 1; 1; 1]; [0; 0; 1; 0; 1; 1]].

Definition row6_brain : list float := [10; 12; 30; 30; 50; 52]%float.

Definition row6 : AWoL_MRF :=
  {| beta := (-0.2)%float; mixing_ratio := 0; patch_length := 3;
     shape := (1, 1, 6)%nat; label_values := [0; 1];
     mode := ([0; 0; 0; 0; 1; 1]%nat, [2; 2; 1; 1; 2; 2]);
     labels := [0; 0; -1; -1; 1; 1]; intensity := row6_brain;
     no_lcv := false; lcv := []; neighbors_small := ∅; neighbors_big := ∅;
     label_count := []; new_labels := []; seeds := []; patches := [];
     do_walk := false; lcvp := []; patch_stats := []; seq := [] |}.

(** [row6] after [find_lcv], [find_seeds] and the first [get_patch]. *)
Definition row6_patch : AWoL_MRF :=
  set_patches [[0; 1; 2; 3; 4; 5]]%nat
    (set_do_walk true
       (set_patch_stats [(0, (11%float, 1%float)); (1, (51%float, 1%float))]
          (set_lcvp [2; 3]%nat
             (set_seeds [3; 2]%nat
                (set_new_labels [0; 0; -1; -1; 1; 1]
                   (set_label_count (repeat [0; 0] 6)
                      (set_neighbors_small
                         {[ 2%nat := [1; 3]%nat; 3%nat := [2; 4]%nat ]}
                         (set_lcv [2; 3]%nat row6)))))))).

(** Five voxels in a row of constant intensity, two candidates that disagree
    on the voxel in the middle; [patch_length = 2]. *)
Definition row5_imgs : list (list Z) := [[1; 1; 1; 2; 2]; [1; 1; 2; 2; 2]].

Definition row5_brain : list float := [50; 50; 50; 50; 50]%float.

Definition row5 : AWoL_MRF :=
  {| beta := (-0.2)%float; mixing_ratio := 0; patch_length := 2;
     shape := (1, 1, 5)%nat; label_values := [1; 2];
     mode := ([0; 0; 0; 1; 1]%nat, [2; 2; 1; 2; 2]);
     labels := [1; 1; -1; 2; 2]; intensity := row5_brain;
     no_lcv := false; lcv := []; neighbors_small := ∅; neighbors_big := ∅;
     label_count := []; new_labels := []; seeds := []; patches := [];
     do_walk := false; lcvp := []; patch_stats := []; seq := [] |}.

(** [row5] after [find_lcv], [find_seeds], [get_patch] and
    [get_mst_sequence]: about to visit voxel 2. *)
Definition row5_walk : AWoL_MRF :=
  set_seq [2]%nat
    (set_do_walk true
       (set_patch_stats [(1, (50%float, 0%float)); (2, (50%float, 0%float))]
          (set_lcvp [2]%nat
             (set_new_labels [1; 1; -1; 2; 2]
                (set_label_count (repeat [0; 0] 5)
                   (set_neighbors_small {[ 2%nat := [1; 3]%nat ]}
                      (set_lcv [2]%nat row5))))))).

(** Two voxels on which two candidates agree. *)
Definition row2_imgs : list (list Z) := [[0; 1]; [0; 1]].

Definition row2 : AWoL_MRF :=
  {| beta := (-0.2)%float; mixing_ratio := 10; patch_length := 5;
     shape := (1, 1, 2)%nat; label_values := [0; 1];
     mode := ([0; 1]%nat, [2; 2]);
     labels := [0; 1]; intensity := [7; 9]%float;
     no_lcv := false; lcv := []; neighbors_small := ∅; neighbors_big := ∅;
     label_count := []; new_labels := []; seeds := []; patches := [];
     do_walk := false; lcvp := []; patch_stats := []; seq := [] |}.

(** ** Spanning trees, rooted *)

(** The end of the edge [e] that is not its child end. *)
Definition parent (child : nat * nat -> nat) (e : nat * nat) : nat :=
  if (child e =? fst e)%nat then snd e else fst e.

(** The edges [edges] make a tree over the nodes [0 .. n-1], seen from the
    node [root]: every edge has a child end, deeper than its other end, and
    every node but the root is the child end of exactly one edge. *)
Record rooted_tree (n root : nat) (edges : list (nat * nat))
    (child : nat * nat -> nat) (depth : nat -> nat) : Prop := {
  rt_NoDup : List.NoDup edges;
  rt_root : (root < n)%nat;
  rt_range : forall e, In e edges -> (fst e < n)%nat /\ (snd e < n)%nat;
  rt_child : forall e, In e edges -> child e = fst e \/ child e = snd e;
  rt_depth : forall e, In e edges -> (depth (parent child e) < depth (child e))%nat;
  rt_inj : forall e e', In e edges -> In e' edges -> child e = child e' -> e = e';
  rt_not_root : forall e, In e edges -> child e <> root;
  rt_cover : forall v, (v < n)%nat -> v <> root ->
             exists e, In e edges /\ child e = v
}.

(** What the walk of lines 241-253 keeps from round to round over such a
    tree: [rest] are the edges whose child end waits to be visited. *)
Definition walking (n root : nat) (edges : list (nat * nat))
    (child : nat * nat -> nat) (rest : list (nat * nat)) (seq0 : list nat)
    : Prop :=
  List.NoDup seq0 /\ In root seq0
  /\ (forall v, In v seq0 -> (v < n)%nat)
  /\ List.NoDup rest
  /\ (forall e, In e rest <-> In e edges /\ ~ In (child e) seq0)
  /\ (forall e, In e edges -> In (child e) seq0 -> In (parent child e) seq0).

(** The first patch of the six-voxel row, with the intensity of voxel 3 at
    31 instead of 30. *)
Definition row6_graded : AWoL_MRF :=
  {| beta := beta row6_patch; mixing_ratio := mixing_ratio row6_patch;
     patch_length := patch_length row6_patch; shape := shape row6_patch;
     label_values := label_values row6_patch; mode := mode row6_patch;
     labels := labels row6_patch;
     intensity := [10; 12; 30; 31; 50; 52]%float;
     no_lcv := no_lcv row6_patch; lcv := lcv row6_patch;
     neighbors_small := neighbors_small row6_patch;
     neighbors_big := neighbors_big row6_patch;
     label_count := label_count row6_patch; new_labels := new_labels row6_patch;
     seeds := seeds row6_patch; patches := patches row6_patch;
     do_walk := do_walk row6_patch; lcvp := lcvp row6_patch;
     patch_stats := patch_stats row6_patch; seq := seq row6_patch |}.

(** The first patch of the six-voxel row once [get_mst_sequence] has
    returned the sequence [3], and once [mrf_potentials] has gone over it. *)
Definition row6_walked : AWoL_MRF :=
  set_seeds [2]%nat (set_seq [3]%nat row6_patch).

Definition row6_voted : AWoL_MRF :=
  set_patch_stats []
    (set_seq []
       (set_new_labels [0; 0; -1; 0; 1; 1]
          (set_label_count [[0; 0]; [0; 0]; [0; 0]; [1; 0]; [0; 0]; [0; 0]]
             row6_walked))).

(** ** The bounding box (lines 53-55, 63, 88, 304-309 and 401-431) *)

(** An image as the array [sitk.GetArrayFromImage] makes of it, indexed
    [a[z][y][x]]. *)
Definition volume (A : Type) : Type := list (list (list A)).

(** [a.shape], for an array with a voxel. *)
Definition array_shape {A} (a : volume A) : nat * nat * nat :=
  (length a, length (nth 0%nat a []), length (nth 0%nat (nth 0%nat a []) [])).

(** [a.ravel()] and, for the raveled array [flat], the array of shape
    [shape] it is a view of. *)
Definition ravel {A} (a : volume A) : list A := concat (concat a).

Definition reshape {A} (d : A) (shape : nat * nat * nat) (flat : list A) : volume A :=
  let '(depth, height, width) := shape in
  map (fun z =>
         map (fun y =>
                map (fun x => nth ((z * height + y) * width + x) flat d)
                    (List.seq 0 width))
             (List.seq 0 height))
      (List.seq 0 depth).

(** A bound of the slice [l[lo:hi]] of a sequence of length [n]: a negative
    bound counts from the end, and a bound outside the sequence is clipped. *)
Definition slice_bound (n : nat) (i : Z) : nat :=
  Z.to_nat (if i <? 0 then Z.max 0 (Z.of_nat n + i) else Z.min (Z.of_nat n) i).

(** [l[lo:hi]] *)
Definition slice {A} (l : list A) (lo hi : Z) : list A :=
  let start := slice_bound (length l) lo in
  let stop := slice_bound (length l) hi in
  firstn (stop - start) (skipn start l).

(** Lines 54-55: [bbox[:3] -= patch_length; bbox[3:] += patch_length], on
    the array [x0, y0, z0, x1, y1, z1]. *)
Definition pad_bbox (patch_length : Z) (bbox : list Z) : list Z :=
  map (fun c => c - patch_length) (firstn 3 bbox)
  ++ map (fun c => c + patch_length) (skipn 3 bbox).

(** Lines 63 and 88: [a[bbox[2]:bbox[5], bbox[1]:bbox[4], bbox[0]:bbox[3]]]. *)
Definition crop {A} (a : volume A) (bbox : list Z) : volume A :=
  map (fun plane =>
         map (fun row => slice row (nth 0 bbox 0) (nth 3 bbox 0))
             (slice plane (nth 1 bbox 0) (nth 4 bbox 0)))
      (slice a (nth 2 bbox 0) (nth 5 bbox 0)).

(** The constructor called with a bounding box.  The box is an array the
    caller made for the call (line 437); the constructor pads it in place and
    keeps it in [self.bbox], which comes third in the result. *)
Definition __init__bbox (labelimg_list : list (volume Z)) (brainimg : volume float)
    (bbox : list Z) (beta : float) (mixing_ratio patch_length : Z)
    (same_threshold : bool) (thresholds : list float)
    : result (AWoL_MRF * list float * list Z) :=
  let bbox := pad_bbox patch_length bbox in
  let arrays := map (fun img => crop img bbox) labelimg_list in
  '(self, thresholds) ←
    __init__ (map ravel arrays) (ravel (crop brainimg bbox))
      (array_shape (nth 0%nat arrays [])) beta mixing_ratio patch_length
      same_threshold thresholds;
  Ok (self, thresholds, bbox).

(** [np.pad] along one axis, [before] and [after] copies of [fill]. *)
Definition pad_axis {A} (before after : Z) (fill : A) (l : list A) : list A :=
  repeat fill (Z.to_nat before) ++ l ++ repeat fill (Z.to_nat after).

(** [np.pad(a, (wz, wy, wx), "constant", constant_values=0)] for an array
    of shape [shape]; a negative width is a [ValueError]. *)
Definition np_pad (a : volume Z) (shape : nat * nat * nat) (wz wy wx : Z * Z)
    : result (volume Z) :=
  if (fst wz <? 0) || (snd wz <? 0) || (fst wy <? 0) || (snd wy <? 0)
     || (fst wx <? 0) || (snd wx <? 0)
  then Raise ValueError
  else
    let '(_, height, width) := shape in
    let width' := (Z.to_nat (fst wx) + width + Z.to_nat (snd wx))%nat in
    let height' := (Z.to_nat (fst wy) + height + Z.to_nat (snd wy))%nat in
    let rows := map (map (pad_axis (fst wx) (snd wx) 0)) a in
    let planes := map (pad_axis (fst wy) (snd wy) (repeat 0 width')) rows in
    Ok (pad_axis (fst wz) (snd wz) (repeat (repeat 0 width') height') planes).

(** [get_output_image] (lines 300-315) with a bounding box: the array the
    image is made of.  [size] is [(GetWidth(), GetHeight(), GetDepth())] of
    the brain image. *)
Definition get_output_image_bbox (self : AWoL_MRF) (bbox : list Z) (size : Z * Z * Z)
    : result (volume Z) :=
  let '(width, height, depth) := size in
  np_pad (reshape 0 (shape self) (labels self)) (shape self)
    (nth 2 bbox 0, depth - nth 5 bbox 0)
    (nth 1 bbox 0, height - nth 4 bbox 0)
    (nth 0 bbox 0, width - nth 3 bbox 0).

(** ** The bounding box of all candidates (lines 401-431) *)

(** Line 419 and line 424: the corners of the box [b] that
    [GetBoundingBox] returns as a start and a size. *)
Definition corners (b : list Z) : list Z :=
  [nth 0 b 0; nth 1 b 0; nth 2 b 0;
   nth 0 b 0 + nth 3 b 0; nth 1 b 0 + nth 4 b 0; nth 2 b 0 + nth 5 b 0].

(** Lines 425-427 and 428-430, over the indices [range]. *)
Fixpoint keep_minimum (range : list nat) (new_bbox bbox : list Z) : list Z :=
  match range with
  | [] => bbox
  | i :: range' =>
      keep_minimum range' new_bbox
        (if nth i new_bbox 0 <? nth i bbox 0 then <[i := nth i new_bbox 0]> bbox
         else bbox)
  end.

Fixpoint keep_maximum (range : list nat) (new_bbox bbox : list Z) : list Z :=
  match range with
  | [] => bbox
  | i :: range' =>
      keep_maximum range' new_bbox
        (if nth i bbox 0 <? nth i new_bbox 0 then <[i := nth i new_bbox 0]> bbox
         else bbox)
  end.

(** The loop of lines 401-431 as far as [bbox] goes; [boxes] are the boxes of
    the input files, in their order, and [bbox] has no value before the first
    one. *)
Fixpoint bounding_box (boxes : list (list Z)) (bbox : option (list Z))
    : option (list Z) :=
  match boxes with
  | [] => bbox
  | b :: boxes' =>
      bounding_box boxes'
        (Some match bbox with
              | None => corners b
              | Some bbox =>
                  keep_maximum [3; 4; 5]%nat (corners b)
                    (keep_minimum [0; 1; 2]%nat (corners b) bbox)
              end)
  end.

(** The array [a] has the shape [shape]. *)
Definition has_shape {A} (a : volume A) (shape : nat * nat * nat) : Prop :=
  let '(depth, height, width) := shape in
  length a = depth
  /\ forall z, (z < depth)%nat ->
       length (nth z a []) = height
       /\ forall y, (y < height)%nat -> length (nth y (nth z a []) []) = width.

(** [a[z][y][x]] *)
Definition voxel {A} (d : A) (a : volume A) (z y x : nat) : A :=
  nth x (nth y (nth z a []) []) d.

(** Where the voxel [(z, y, x)] of the image lies in the array of shape
    [shape] that was cut out along [bbox]: its index in the raveled array, or
    nothing for a voxel outside the box. *)
Definition in_box (bbox : list Z) (shape : nat * nat * nat) (z y x : nat)
    : option nat :=
  let '(depth, height, width) := shape in
  let x0 := Z.to_nat (nth 0 bbox 0) in
  let y0 := Z.to_nat (nth 1 bbox 0) in
  let z0 := Z.to_nat (nth 2 bbox 0) in
  if ((z0 <=? z) && (z <? z0 + depth) && ((y0 <=? y) && (y <? y0 + height))
      && ((x0 <=? x) && (x <? x0 + width)))%nat
  then Some (((z - z0) * height + (y - y0)) * width + (x - x0))%nat
  else None.

(** The four-voxel row as the images the command line reads; the box of
    its structural voxels is [[1, 0, 0, 4, 1, 1]]. *)
Definition row4_volumes : list (volume Z) := [[[[0; 0; 1; 1]]]; [[[0; 1; 0; 1]]]].

(** What the constructor makes of them within that box, with
    [patch_length = 0]. *)
Definition row3 : AWoL_MRF :=
  {| beta := (-0.2)%float; mixing_ratio := 0; patch_length := 0;
     shape := (1, 1, 3)%nat; label_values := [0; 1];
     mode := ([0; 0; 1]%nat, [1; 1; 2]);
     labels := [-1; -1; 1]; intensity := [50; 50; 50]%float;
     no_lcv := false; lcv := []; neighbors_small := ∅; neighbors_big := ∅;
     label_count := []; new_labels := []; seeds := []; patches := [];
     do_walk := false; lcvp := []; patch_stats := []; seq := [] |}.

(** [bbox] is the smallest box that holds every box of [boxes]: along each
    axis its lower corner is the least lower corner, and its upper corner the
    greatest upper corner. *)
Definition encloses (bbox : list Z) (boxes : list (list Z)) : Prop :=
  length bbox = 6%nat
  /\ forall i, (i < 3)%nat ->
       (forall b, In b boxes ->
          nth i bbox 0 <= nth i (corners b) 0
          /\ nth (i + 3) (corners b) 0 <= nth (i + 3) bbox 0)
       /\ (exists b, In b boxes /\ nth i bbox 0 = nth i (corners b) 0)
       /\ (exists b, In b boxes /\ nth (i + 3) bbox 0 = nth (i + 3) (corners b) 0).

(** The candidates that give voxel [p] the label [value]. *)
Definition votes_for (imgs : list (list Z)) (value : Z) (p : nat) : nat :=
  length (List.filter (fun img => nth p img 0 =? value) imgs).

(** The label of index [k] is the majority-vote label of voxel [p]: no label
    has more candidates, and no label of lower index has as many. *)
Definition plurality (imgs : list (list Z)) (lv : list Z) (p k : nat) : Prop :=
  (k < length lv)%nat
  /\ (forall j, (j < length lv)%nat ->
        (votes_for imgs (nth j lv 0%Z) p <= votes_for imgs (nth k lv 0%Z) p)%nat)
  /\ (forall j, (j < k)%nat ->
        (votes_for imgs (nth j lv 0%Z) p < votes_for imgs (nth k lv 0%Z) p)%nat).

(** n(p): the number of distinct label values the candidates give voxel [p]. *)
Definition candidate_labels (imgs : list (list Z)) (p : nat) : nat :=
  length (nodup Z.eq_dec (map (fun img => nth p img 0) imgs)).

(** [(1/n + t) * N <= count] over the rationals, for the value the binary64
    number [t] stands for, cleared of its denominators. *)
Definition exact_enough (n N count : Z) (t : float) : Prop :=
  match Prim2SF t with
  | S754_zero _ => N <= count * n
  | S754_finite s m e =>
      let tm := if s then Z.neg m else Z.pos m in
      if e <? 0 then (2 ^ (- e) + tm * n) * N <= count * n * 2 ^ (- e)
      else (1 + tm * 2 ^ e * n) * N <= count * n
  | _ => False
  end.

(** The resolved voxels around voxel [s]: those of the volume, other than
    [s], within squared distance 2 of it (one step along one axis or along
    two) that do not hold the sentinel in the confidence volume. *)
Definition resolved_neighbours (self : AWoL_MRF) (s : nat) : nat :=
  length (List.filter
            (fun q => negb (q =? s)%nat && (dist2 (shape self) s q <=? 2)
                      && negb (nth q (labels self) 0 =? -1))
            (List.seq 0 (length (labels self)))).

(** C2 as stated, for voxel [p]: the voxel holds its majority-vote label as
    soon as the vote count of that label reaches [(1/n(p) + threshold) * N]. *)
Definition exact_threshold_rule (imgs : list (list Z)) (thresholds : list float)
    (self : AWoL_MRF) (p : nat) : Prop :=
  forall k,
    plurality imgs (label_values self) p k ->
    exact_enough (Z.of_nat (candidate_labels imgs p)) (Z.of_nat (length imgs))
      (Z.of_nat (votes_for imgs (nth k (label_values self) 0) p))
      (nth k thresholds 0%float) ->
    nth p (labels self) 0 = nth k (label_values self) 0.

(** A cube of 27 voxels whose centre, voxel 13, is the one low-confidence
    voxel, with [mixing_ratio = 18]. *)
Definition cube27 : AWoL_MRF :=
  {| beta := (-0.2)%float; mixing_ratio := 18; patch_length := 1;
     shape := (3, 3, 3)%nat; label_values := [0];
     mode := (repeat 0%nat 27, repeat 2 27);
     labels := repeat 0 13 ++ [-1] ++ repeat 0 13;
     intensity := repeat 50%float 27;
     no_lcv := false; lcv := []; neighbors_small := ∅; neighbors_big := ∅;
     label_count := []; new_labels := []; seeds := []; patches := [];
     do_walk := false; lcvp := []; patch_stats := []; seq := [] |}.

(** Twenty-five candidates over two voxels: fourteen give voxel 0 the label
    0, eleven the label 1; thresholds of 0.06. *)
Definition vote25_imgs : list (list Z) := repeat [0; 1] 14 ++ repeat [1; 0] 11.

Definition vote25 : AWoL_MRF :=
  {| beta := (-0.2)%float; mixing_ratio := 0; patch_length := 1;
     shape := (1, 1, 2)%nat; label_values := [0; 1];
     mode := ([0; 1]%nat, [14; 14]);
     labels := [-1; -1]; intensity := [50; 50]%float;
     no_lcv := false; lcv := []; neighbors_small := ∅; neighbors_big := ∅;
     label_count := []; new_labels := []; seeds := []; patches := [];
     do_walk := false; lcvp := []; patch_stats := []; seq := [] |}.

(** ** The state of the loop of [run] *)

(** What the walk relies on in the object the constructor leaves: there is a
    label, every label value fits an [int16] cell and is not negative, the
    mode of every voxel is the index of a label value, and the confidence
    volume holds a label value or the sentinel. *)
Record constructed (self : AWoL_MRF) : Prop := {
  cs_values : label_values self <> [];
  cs_range : List.Forall (fun v => 0 <= v < 32768) (label_values self);
  cs_mode : forall p, (p < length (labels self))%nat ->
            (nth p (fst (mode self)) 0 < length (label_values self))%nat;
  cs_labels : forall p, (p < length (labels self))%nat ->
              nth p (labels self) 0 = -1
              \/ In (nth p (labels self) 0) (label_values self)
}.

(** What the rounds of the loop of [run] keep, [self0] being the object when
    the loop is entered: the confidence volume, the label values and the modes
    stay; the working volume and the tally keep their shapes; a voxel of high
    confidence keeps its label; a working label is the sentinel or a label
    value. *)
Record walk_inv (self0 self : AWoL_MRF) : Prop := {
  wi_labels : labels self = labels self0;
  wi_values : label_values self = label_values self0;
  wi_mode : mode self = mode self0;
  wi_new_labels : length (new_labels self) = length (labels self0);
  wi_label_count : length (label_count self) = length (labels self0);
  wi_rows : forall p, (p < length (labels self0))%nat ->
            length (nth p (label_count self) []) = length (label_values self0);
  wi_high : forall p, (p < length (labels self0))%nat ->
            nth p (labels self0) 0 <> -1 ->
            nth p (new_labels self) 0 = nth p (labels self0) 0;
  wi_low : forall p, (p < length (labels self0))%nat ->
           nth p (new_labels self) 0 = -1
           \/ In (nth p (new_labels self) 0) (label_values self0)
}.

(** The two queues of the loop, side by side: every seed is a low-confidence
    voxel, and its patch holds it and voxels of the volume only. *)
Definition queued (self0 : AWoL_MRF) (seeds : list nat) (patches : list (list nat))
    : Prop :=
  Forall2 (fun seed patch =>
             In seed patch /\ nth seed (labels self0) 0 = -1
             /\ List.Forall (fun q => (q < length (labels self0))%nat) patch)
          seeds patches.

(** The errors a walk can end in: a local variable read before any
    assignment, or the removal of an edge that is gone. *)
Definition walk_error (e : exn) : Prop := e = UnboundLocalError \/ e = ValueError.

(** The votes the walks have cast at voxel [p], all labels together: the sum
    of the row [label_count[p]]. *)
Definition votes_cast (self : AWoL_MRF) (p : nat) : Z :=
  fold_right Z.add 0 (nth p (label_count self) []).

(** A tally the loop of lines 268-282 can go over [n] times: every row has a
    cell for each label value, and no cell would wrap around. *)
Definition tally_room (self : AWoL_MRF) (n : nat) : Prop :=
  List.Forall (fun row =>
                 length row = length (label_values self)
                 /\ List.Forall (fun c => 0 <= c /\ c + Z.of_nat n < 65536) row)
              (label_count self).

(** * Properties *)

(** ** [np.unique] *)

Lemma insert_unique_In (x y : Z) (l : list Z) :
  In y (insert_unique x l) <-> y = x \/ In y l.
Proof.
  induction l as [|z l IH]; simpl.
  - intuition.
  - destruct (Z.ltb_spec x z); [simpl; intuition|].
    destruct (Z.eqb_spec x z); simpl; [subst; intuition|].
    rewrite IH. intuition.
Qed.

Lemma np_unique_In (a : list Z) (y : Z) : In y (np_unique a) <-> In y a.
Proof.
  induction a as [|x a IH]; simpl; [tauto|].
  rewrite insert_unique_In, IH. intuition.
Qed.

Lemma insert_unique_sorted (x : Z) (l : list Z) :
  StronglySorted Z.lt l -> StronglySorted Z.lt (insert_unique x l).
Proof.
  induction 1 as [|z l Hs IH Hz]; simpl.
  - repeat constructor.
  - destruct (Z.ltb_spec x z).
    + constructor; [constructor; assumption|].
      constructor; [assumption|].
      eapply List.Forall_impl; [|exact Hz]. simpl. intros; lia.
    + destruct (Z.eqb_spec x z); [constructor; assumption|].
      constructor; [assumption|].
      apply List.Forall_forall. intros y Hy. apply insert_unique_In in Hy.
      destruct Hy as [->|Hy]; [lia|].
      rewrite List.Forall_forall in Hz. auto.
Qed.

Lemma np_unique_sorted (a : list Z) : StronglySorted Z.lt (np_unique a).
Proof.
  induction a; simpl; [constructor|]. now apply insert_unique_sorted.
Qed.

Lemma sorted_lt_NoDup (l : list Z) : StronglySorted Z.lt l -> List.NoDup l.
Proof.
  induction 1 as [|z l Hs IH Hz]; constructor; [|assumption].
  intros Hin. rewrite List.Forall_forall in Hz. specialize (Hz _ Hin). lia.
Qed.

Lemma np_unique_NoDup (a : list Z) : List.NoDup (np_unique a).
Proof. apply sorted_lt_NoDup, np_unique_sorted. Qed.

Lemma bind_Ok_inv {A B} (r : result A) (k : A -> result B) (b : B) :
  r ≫= k = Ok b -> exists a, r = Ok a /\ k a = Ok b.
Proof. destruct r as [a|e]; [eauto|discriminate]. Qed.

Lemma bind_Raise_inv {A B} (r : result A) (k : A -> result B) :
  raises (r ≫= k) <-> raises r \/ exists a, r = Ok a /\ raises (k a).
Proof.
  destruct r as [a|e]; simpl.
  - split; [eauto|]. intros [[]|(a' & [= <-] & H)]. exact H.
  - split; auto.
Qed.

Lemma existsb_same {A} (f g : A -> bool) (l : list A) :
  (forall x, f x = g x) -> existsb f l = existsb g l.
Proof. intros H. induction l; simpl; congruence. Qed.

Lemma cellwise_false (a b : list Z) :
  length a = length b ->
  existsb (fun xy => negb (fst xy =? snd xy)) (combine a b) = false <-> a = b.
Proof.
  revert b; induction a as [|x a IH]; intros [|y b]; simpl; try easy.
  intros [= Hlen]. rewrite orb_false_iff, negb_false_iff, (IH _ Hlen), Z.eqb_eq.
  split; [intros [-> ->]; reflexivity|intros [= -> ->]; auto].
Qed.

Lemma broadcast_false (x : Z) (b : list Z) :
  b <> [] -> List.NoDup b ->
  existsb (fun y => negb (x =? y)) b = false <-> [x] = b.
Proof.
  intros Hne Hnd. destruct b as [|y0 [|y1 b]]; [congruence| |].
  - simpl. rewrite orb_false_r, negb_false_iff, Z.eqb_eq.
    split; [now intros ->|now intros [= ->]].
  - split; [|discriminate]. simpl.
    rewrite !orb_false_iff, !negb_false_iff, !Z.eqb_eq. intros (<- & <- & _).
    inversion Hnd as [|? ? Hnot _]. exfalso. apply Hnot. now left.
Qed.

(** The check of line 69 on two arrays of distinct values, neither empty: it
    passes for equal arrays only. *)
Lemma arrays_differ_false (a b : list Z) :
  a <> [] -> b <> [] -> List.NoDup a -> List.NoDup b ->
  arrays_differ a b = Ok false <-> a = b.
Proof.
  intros Ha Hb Hnda Hndb. unfold arrays_differ.
  destruct a as [|x0 [|x1 a]]; [congruence| |].
  - split.
    + intros [= H]. now apply broadcast_false.
    + intros <-. f_equal. now apply broadcast_false.
  - destruct b as [|y0 [|y1 b]]; [congruence| |].
    + split; [|discriminate]. intros [= H]. exfalso.
      assert (Hflip : existsb (fun y => negb (y0 =? y)) (x0 :: x1 :: a) = false).
      { rewrite <- H.
        apply (existsb_same _ (fun x => negb (x =? y0)) (x0 :: x1 :: a)).
        intros z. now rewrite Z.eqb_sym. }
      apply broadcast_false in Hflip; [discriminate|discriminate|assumption].
    + destruct (Nat.eqb_spec (length (x0 :: x1 :: a)) (length (y0 :: y1 :: b)))
        as [Hlen|Hlen].
      * split; [intros [= H]; now apply cellwise_false|].
        intros <-. f_equal. now apply cellwise_false.
      * split; [discriminate|]. intros Heq. now rewrite Heq in Hlen.
Qed.

(** ** The vote tensor *)

Lemma incr_cells_length value la row :
  length (incr_cells value la row) = length row.
Proof.
  revert la; induction row as [|c row IH]; intros [|l la]; simpl; auto.
Qed.

Lemma incr_cells_nth value la row p :
  (p < length la)%nat -> (p < length row)%nat ->
  nth p (incr_cells value la row) 0%nat
  = (nth p row 0 + if (nth p la 0 =? value)%Z then 1 else 0)%nat.
Proof.
  revert la p; induction row as [|c row IH]; intros [|l la] [|p]; simpl;
    try lia.
  - intros _ _. destruct (l =? value); lia.
  - intros ? ?. apply IH; lia.
Qed.

Lemma incr_where_inv value la row row' :
  incr_where value la row = Ok row' -> row' = incr_cells value la row.
Proof.
  unfold incr_where. destruct (existsb _ _); [discriminate|]. now intros [= <-].
Qed.

(** An array no longer than the row has every index within the row. *)
Lemma incr_where_Ok value la row :
  (length la <= length row)%nat ->
  incr_where value la row = Ok (incr_cells value la row).
Proof.
  intros Hlen. unfold incr_where. now rewrite List.skipn_all2 by assumption.
Qed.

Lemma count_votes_cons_inv v lv la row votes votes' :
  count_votes (v :: lv) la (row :: votes) = Ok votes' ->
  exists rest, count_votes lv la votes = Ok rest
               /\ votes' = incr_cells v la row :: rest.
Proof.
  cbn [count_votes]. intros H.
  apply bind_Ok_inv in H as (row' & Hrow & H).
  apply bind_Ok_inv in H as (rest & Hrest & [= <-]).
  apply incr_where_inv in Hrow. subst. eauto.
Qed.

Lemma count_votes_Ok lv la votes :
  Forall (fun row => (length la <= length row)%nat) votes ->
  exists votes', count_votes lv la votes = Ok votes'.
Proof.
  revert votes; induction lv as [|v lv IH]; intros [|row votes] H;
    cbn [count_votes]; eauto.
  inversion H as [|? ? Hrow Hrest]; subst.
  rewrite incr_where_Ok by assumption. cbn [mbind result_bind].
  destruct (IH _ Hrest) as (rest & ->). cbn. eauto.
Qed.

Lemma count_votes_length lv la votes votes' :
  count_votes lv la votes = Ok votes' -> length votes' = length votes.
Proof.
  revert votes votes'; induction lv as [|v lv IH]; intros [|row votes] votes';
    try (now intros [= <-]).
  intros H. apply count_votes_cons_inv in H as (rest & Hrest & ->).
  simpl. f_equal. now apply IH.
Qed.

Lemma count_votes_rows lv la votes votes' n :
  count_votes lv la votes = Ok votes' ->
  Forall (fun row => length row = n) votes ->
  Forall (fun row => length row = n) votes'.
Proof.
  revert votes votes'; induction lv as [|v lv IH]; intros [|row votes] votes';
    try (now intros [= <-]).
  intros H Hrows. apply count_votes_cons_inv in H as (rest & Hrest & ->).
  inversion Hrows; subst. constructor; [apply incr_cells_length|eauto].
Qed.

Lemma count_votes_sum_notin lv la votes votes' p :
  count_votes lv la votes = Ok votes' ->
  (p < length la)%nat ->
  Forall (fun row => (p < length row)%nat) votes ->
  ~ In (nth p la 0) lv ->
  vote_sum votes' p = vote_sum votes p.
Proof.
  intros H Hp. revert votes votes' H; induction lv as [|v lv IH];
    intros [|row votes] votes' H Hrows Hnot; try (now injection H as <-).
  apply count_votes_cons_inv in H as (rest & Hrest & ->).
  inversion Hrows; subst. unfold vote_sum in *; simpl.
  rewrite incr_cells_nth by assumption.
  destruct (Z.eqb_spec (nth p la 0) v); [exfalso; apply Hnot; simpl; auto|].
  rewrite (IH _ _ Hrest); [lia|assumption|]. intros Hin; apply Hnot; simpl; auto.
Qed.

Lemma count_votes_sum lv la votes votes' p :
  count_votes lv la votes = Ok votes' ->
  (p < length la)%nat ->
  length votes = length lv ->
  Forall (fun row => (p < length row)%nat) votes ->
  List.NoDup lv -> In (nth p la 0) lv ->
  vote_sum votes' p = S (vote_sum votes p).
Proof.
  intros H Hp. revert votes votes' H; induction lv as [|v lv IH];
    intros [|row votes] votes' H Hlen Hrows Hnd Hin; simpl in Hlen, Hin;
    try easy.
  apply count_votes_cons_inv in H as (rest & Hrest & ->).
  inversion Hrows; subst. inversion Hnd; subst.
  unfold vote_sum in *; simpl.
  rewrite incr_cells_nth by assumption.
  destruct (Z.eqb_spec (nth p la 0) v) as [Heq|Hne].
  - fold (vote_sum rest p).
    rewrite (count_votes_sum_notin _ _ _ _ _ Hrest);
      [unfold vote_sum; lia|assumption..|].
    now rewrite Heq.
  - rewrite (IH _ _ Hrest); [lia|lia|assumption|assumption|].
    destruct Hin; [congruence|assumption].
Qed.

Lemma vote_loop_cons_inv lv la imgs votes votes' :
  vote_loop lv (la :: imgs) votes = Ok votes' ->
  arrays_differ (np_unique la) lv = Ok false
  /\ exists votes1, count_votes lv la votes = Ok votes1
                    /\ vote_loop lv imgs votes1 = Ok votes'.
Proof.
  cbn [vote_loop]. intros H.
  apply bind_Ok_inv in H as ([|] & Hd & H); [discriminate|].
  apply bind_Ok_inv in H as (votes1 & Hc & H). eauto.
Qed.

Lemma np_unique_nil (a : list Z) : np_unique a = [] -> a = [].
Proof.
  destruct a as [|x a]; [reflexivity|]. intros H.
  assert (Hin : In x (np_unique (x :: a))).
  { apply (proj2 (np_unique_In (x :: a) x)). now left. }
  rewrite H in Hin. destruct Hin.
Qed.

Lemma vote_loop_sum lv imgs votes votes' n p :
  vote_loop lv imgs votes = Ok votes' ->
  List.NoDup lv -> lv <> [] -> length votes = length lv ->
  Forall (fun img => length img = n) imgs ->
  Forall (fun row => length row = n) votes ->
  (p < n)%nat ->
  vote_sum votes' p = (vote_sum votes p + length imgs)%nat.
Proof.
  intros Hloop Hnd Hne. revert votes Hloop.
  induction imgs as [|la imgs IH]; intros votes Hloop Hlen Himgs Hrows Hp.
  - injection Hloop as <-. simpl. lia.
  - apply vote_loop_cons_inv in Hloop as (Hdiff & votes1 & Hc & Hloop).
    inversion Himgs as [|? ? Hla Himgs']; clear Himgs.
    apply arrays_differ_false in Hdiff;
      [|intros E; apply np_unique_nil in E; rewrite E in Hla; simpl in Hla; lia
       |assumption|apply np_unique_NoDup|assumption].
    rewrite (IH _ Hloop); try assumption.
    + rewrite (count_votes_sum _ _ _ _ _ Hc); try assumption; try lia.
      * simpl. lia.
      * eapply List.Forall_impl; [|exact Hrows]. simpl; intros; lia.
      * rewrite <- Hdiff. apply np_unique_In, nth_In. lia.
    + now rewrite (count_votes_length _ _ _ _ Hc).
    + now apply (count_votes_rows _ _ _ _ _ Hc).
Qed.

Lemma vote_sum_zeros (n k p : nat) :
  vote_sum (repeat (repeat 0%nat n) k) p = 0%nat.
Proof.
  unfold vote_sum. induction k as [|k IH]; simpl; [reflexivity|].
  rewrite IH. destruct (Nat.lt_ge_cases p n).
  - rewrite List.nth_repeat_lt by assumption. reflexivity.
  - rewrite List.nth_overflow; [reflexivity|]. now rewrite repeat_length.
Qed.

Lemma collect_votes_inv first rest lv votes :
  collect_votes (first :: rest) = Ok (lv, votes) ->
  lv = np_unique first
  /\ exists votes1,
       count_votes lv first (repeat (repeat 0%nat (length first)) (length lv))
       = Ok votes1
       /\ vote_loop lv rest votes1 = Ok votes.
Proof.
  unfold collect_votes. intros H.
  apply bind_Ok_inv in H as (votes1 & Hc & H).
  apply bind_Ok_inv in H as (votes' & Hloop & [= <- <-]). eauto.
Qed.

(** C7. Once the vote tensor of lines 58-73 is built from [N] candidate
    volumes of one shape, the votes of every voxel, summed over all label
    indices, are [N]. *)
Theorem votes_sum_to_nimg (labelimg_list : list (list Z)) (label_values : list Z)
    (votes : list (list nat)) (p : nat) :
  collect_votes labelimg_list = Ok (label_values, votes) ->
  Forall (fun img => length img = length (nth 0 labelimg_list [])) labelimg_list ->
  (p < length (nth 0 labelimg_list []))%nat ->
  vote_sum votes p = length labelimg_list.
Proof.
  destruct labelimg_list as [|first rest]; [discriminate|].
  simpl nth. intros Hc Hshape Hp.
  apply collect_votes_inv in Hc as (-> & votes1 & Hcount & Hloop).
  set (lv := np_unique first) in *.
  set (zeros := repeat (repeat 0%nat (length first)) (length lv)) in *.
  assert (Hz : Forall (fun row => length row = length first) zeros).
  { apply List.Forall_forall. intros row Hin. apply repeat_spec in Hin. subst.
    apply repeat_length. }
  assert (Hz0 : vote_sum zeros p = 0%nat) by apply vote_sum_zeros.
  assert (Hin : In (nth p first 0) lv) by (apply np_unique_In, nth_In; lia).
  inversion Hshape; subst.
  rewrite (vote_loop_sum _ _ _ _ (length first) p Hloop).
  - rewrite (count_votes_sum _ _ _ _ _ Hcount); simpl; try lia.
    + unfold zeros. now rewrite repeat_length.
    + eapply List.Forall_impl; [|exact Hz]. simpl; intros; lia.
    + apply np_unique_NoDup.
    + exact Hin.
  - apply np_unique_NoDup.
  - intros E. rewrite E in Hin. destruct Hin.
  - rewrite (count_votes_length _ _ _ _ Hcount). unfold zeros.
    now rewrite repeat_length.
  - assumption.
  - now apply (count_votes_rows _ _ _ _ _ Hcount).
  - assumption.
Qed.

(** ** [np.argmax] *)

Lemma argmax_from_spec (l pre : list Z) (besti : nat) (best : Z) :
  (besti < length pre)%nat ->
  nth besti pre 0 = best ->
  (forall j, (j < length pre)%nat -> nth j pre 0 <= best) ->
  (forall j, (j < besti)%nat -> nth j pre 0 < best) ->
  let r := argmax_from l (length pre) besti best in
  (r < length (pre ++ l))%nat
  /\ (forall j, (j < length (pre ++ l))%nat -> nth j (pre ++ l) 0 <= nth r (pre ++ l) 0)
  /\ (forall j, (j < r)%nat -> nth j (pre ++ l) 0 < nth r (pre ++ l) 0).
Proof.
  revert pre besti best. induction l as [|x l IH]; intros pre besti best Hb Hn Hmax Hfirst.
  - simpl. rewrite app_nil_r, Hn. auto.
  - simpl argmax_from.
    replace (pre ++ x :: l) with ((pre ++ [x]) ++ l) by now rewrite <- app_assoc.
    replace (S (length pre)) with (length (pre ++ [x]))
      by (rewrite length_app; simpl; lia).
    assert (Hx : nth (length pre) (pre ++ [x]) 0 = x).
    { rewrite List.app_nth2 by lia. now rewrite Nat.sub_diag. }
    assert (Hpre : forall j, (j < length pre)%nat ->
                     nth j (pre ++ [x]) 0 = nth j pre 0).
    { intros j Hj. now rewrite List.app_nth1. }
    assert (Hcase : forall j, (j < length (pre ++ [x]))%nat ->
                      (j < length pre)%nat \/ j = length pre).
    { intros j. rewrite length_app. simpl. lia. }
    destruct (Z.ltb_spec best x).
    + apply IH.
      * rewrite length_app; simpl; lia.
      * exact Hx.
      * intros j Hj. destruct (Hcase j Hj) as [Hlt| ->].
        -- rewrite Hpre by assumption. specialize (Hmax j Hlt). lia.
        -- rewrite Hx. lia.
      * intros j Hj. rewrite Hpre by assumption. specialize (Hmax j Hj). lia.
    + apply IH.
      * rewrite length_app; simpl; lia.
      * rewrite Hpre by assumption. exact Hn.
      * intros j Hj. destruct (Hcase j Hj) as [Hlt| ->].
        -- rewrite Hpre by assumption. auto.
        -- rewrite Hx. lia.
      * intros j Hj. rewrite Hpre by lia. auto.
Qed.

(** [np.argmax] returns the first index that holds the largest entry. *)
Lemma np_argmax_spec (l : list Z) :
  l <> [] ->
  (np_argmax l < length l)%nat
  /\ (forall j, (j < length l)%nat -> nth j l 0 <= nth (np_argmax l) l 0)
  /\ (forall j, (j < np_argmax l)%nat -> nth j l 0 < nth (np_argmax l) l 0).
Proof.
  destruct l as [|x l]; [congruence|]. intros _.
  apply (argmax_from_spec l [x] 0 x); simpl; try lia; try reflexivity.
  - intros [|j] Hj; simpl; lia.
Qed.

(** ** The confidence volume *)

Lemma int16_small (v : Z) : 0 <= v < 32768 -> int16 v = v.
Proof.
  intros H. unfold int16. rewrite Z.mod_small by lia. lia.
Qed.

Lemma above_threshold_mode votes mode thresholds nimg i p :
  above_threshold votes mode thresholds nimg i p = true ->
  nth p (fst mode) 0%nat = i.
Proof.
  unfold above_threshold. intros H. apply andb_true_iff in H as [H _].
  now apply Nat.eqb_eq in H.
Qed.

Lemma to_int16_inv (value cell : Z) :
  to_int16 value = Ok cell -> cell = value /\ -32768 <= value <= 32767.
Proof.
  unfold to_int16.
  destruct (Z.ltb_spec value (-32768)), (Z.ltb_spec 32767 value); simpl;
    try discriminate.
  intros [= <-]. lia.
Qed.

Lemma find_hcv_length votes mode thresholds nimg values :
  forall i labels labels',
  find_hcv votes mode thresholds nimg i values labels = Ok labels' ->
  length labels' = length labels.
Proof.
  induction values as [|v values IH]; intros i labels labels'; cbn [find_hcv].
  - now intros [= <-].
  - intros H. apply bind_Ok_inv in H as (cell & _ & H).
    apply IH in H. rewrite H. apply length_imap.
Qed.

(** The loop of lines 91-95 ends in [OverflowError] exactly when a label
    value does not fit an [int16] cell. *)
Lemma find_hcv_raises votes mode thresholds nimg values :
  forall i labels,
  raises (find_hcv votes mode thresholds nimg i values labels)
  <-> Exists (fun v => v < -32768 \/ 32767 < v) values.
Proof.
  induction values as [|v values IH]; intros i labels; cbn [find_hcv].
  - simpl. split; [easy|]. intros H; inversion H.
  - rewrite List.Exists_cons. unfold to_int16.
    destruct (Z.ltb_spec v (-32768)); [simpl; tauto|].
    destruct (Z.ltb_spec 32767 v); [simpl; tauto|].
    cbn [orb mbind result_bind]. rewrite IH. intuition lia.
Qed.

(** After the loop of lines 91-95 a voxel holds the value of its mode label
    when [above_threshold] accepts it there, and its previous content
    otherwise. *)
Lemma find_hcv_lookup votes mode thresholds nimg values :
  forall i (labels labels' : list Z) p old,
  find_hcv votes mode thresholds nimg i values labels = Ok labels' ->
  labels !! p = Some old ->
  let m := nth p (fst mode) 0%nat in
  labels' !! p
  = Some (if (i <=? m)%nat && (m <? i + length values)%nat
             && above_threshold votes mode thresholds nimg m p
          then nth (m - i) values 0 else old).
Proof.
  induction values as [|v values IH]; intros i labels labels' p old Hfind Hp m;
    cbn [find_hcv length] in *.
  - injection Hfind as <-. rewrite Hp. f_equal.
    destruct (Nat.leb_spec i m), (Nat.ltb_spec m (i + 0)); simpl; auto; lia.
  - apply bind_Ok_inv in Hfind as (cell & Hcell & Hfind).
    apply to_int16_inv in Hcell as (-> & _).
    erewrite (IH _ _ _ _ _ Hfind); [|rewrite list_lookup_imap, Hp; reflexivity].
    fold m. f_equal.
    destruct (Nat.lt_trichotomy m i) as [Hlt|[->|Hgt]].
    + replace (S i <=? m)%nat with false by (symmetry; apply Nat.leb_gt; lia).
      replace (i <=? m)%nat with false by (symmetry; apply Nat.leb_gt; lia).
      cbn [andb].
      destruct (above_threshold votes mode thresholds nimg i p) eqn:Hi;
        [|reflexivity].
      apply above_threshold_mode in Hi. fold m in Hi. lia.
    + replace (S i <=? i)%nat with false by (symmetry; apply Nat.leb_gt; lia).
      rewrite Nat.leb_refl, Nat.sub_diag.
      replace (i <? i + S (length values))%nat with true
        by (symmetry; apply Nat.ltb_lt; lia).
      cbn [andb nth]. reflexivity.
    + replace (S i <=? m)%nat with true by (symmetry; apply Nat.leb_le; lia).
      replace (i <=? m)%nat with true by (symmetry; apply Nat.leb_le; lia).
      replace (S i + length values)%nat with (i + S (length values))%nat by lia.
      replace (m - i)%nat with (S (m - S i)) by lia.
      cbn [andb nth].
      destruct (above_threshold votes mode thresholds nimg i p) eqn:Hi;
        [|reflexivity].
      apply above_threshold_mode in Hi. fold m in Hi. lia.
Qed.

(** ** The constructor *)

Lemma init_inv imgs brain shp b mr pl same thr self thr' :
  __init__ imgs brain shp b mr pl same thr = Ok (self, thr') ->
  exists lv votes labels0,
    0 <= mr /\ 0 <= pl /\ check_thresholds thr = Ok tt
    /\ collect_votes imgs = Ok (lv, votes)
    /\ match_thresholds lv same thr = Ok thr'
    /\ lv <> []
    /\ find_hcv votes (mode_of votes) thr' (length imgs) 0 lv
         (repeat (int16 (0 - 1)) (length (nth 0 votes []))) = Ok labels0
    /\ self =
       {| beta := b; mixing_ratio := mr; patch_length := pl;
          shape := shp; label_values := lv; mode := mode_of votes;
          labels := labels0; intensity := brain;
          no_lcv := false; lcv := []; neighbors_small := ∅; neighbors_big := ∅;
          label_count := []; new_labels := []; seeds := []; patches := [];
          do_walk := false; lcvp := []; patch_stats := []; seq := [] |}.
Proof.
  unfold __init__. intros H.
  apply bind_Ok_inv in H as (mr' & Hmr & H).
  apply bind_Ok_inv in H as (pl' & Hpl & H).
  apply bind_Ok_inv in H as ([] & Hthr & H).
  apply bind_Ok_inv in H as ([lv votes] & Hvotes & H).
  apply bind_Ok_inv in H as (thr2 & Hpad & H).
  unfold positive_int in Hmr, Hpl.
  destruct (Z.ltb_spec mr 0); [discriminate|]. injection Hmr as <-.
  destruct (Z.ltb_spec pl 0); [discriminate|]. injection Hpl as <-.
  destruct lv as [|v lv]; [discriminate|].
  apply bind_Ok_inv in H as (labels0 & Hfind & [= <- <-]).
  exists (v :: lv), votes, labels0.
  repeat split; auto; discriminate.
Qed.

Lemma vote_loop_shape lv imgs votes votes' n :
  vote_loop lv imgs votes = Ok votes' ->
  Forall (fun row => length row = n) votes ->
  length votes' = length votes /\ Forall (fun row => length row = n) votes'.
Proof.
  revert votes; induction imgs as [|la imgs IH]; intros votes H Hrows.
  - injection H as <-. auto.
  - apply vote_loop_cons_inv in H as (_ & votes1 & Hc & H).
    apply IH in H; [|now apply (count_votes_rows _ _ _ _ _ Hc)].
    now rewrite (count_votes_length _ _ _ _ Hc) in H.
Qed.

Lemma collect_votes_shape imgs lv votes :
  collect_votes imgs = Ok (lv, votes) ->
  exists first rest,
    imgs = first :: rest /\ lv = np_unique first
    /\ length votes = length lv
    /\ Forall (fun row => length row = length first) votes.
Proof.
  destruct imgs as [|first rest]; [discriminate|].
  intros H. apply collect_votes_inv in H as (-> & votes1 & Hc & Hloop).
  exists first, rest. split; [reflexivity|]. split; [reflexivity|].
  apply vote_loop_shape with (n := length first) in Hloop.
  - rewrite (count_votes_length _ _ _ _ Hc), repeat_length in Hloop. exact Hloop.
  - apply (count_votes_rows _ _ _ _ _ Hc), List.Forall_forall.
    intros row Hin. apply repeat_spec in Hin. subst. apply repeat_length.
Qed.

Lemma mode_of_nth votes p :
  (p < length (nth 0 votes []))%nat ->
  nth p (fst (mode_of votes)) 0%nat = np_argmax (column votes p)
  /\ nth p (snd (mode_of votes)) 0 = np_amax (column votes p).
Proof.
  intros Hp. unfold mode_of; simpl. split.
  - rewrite (List.nth_indep _ 0%nat (np_argmax (column votes 0)))
      by now rewrite length_map, length_seq.
    rewrite (List.map_nth (fun p => np_argmax (column votes p))).
    now rewrite List.seq_nth.
  - rewrite (List.nth_indep _ 0 (np_amax (column votes 0)))
      by now rewrite length_map, length_seq.
    rewrite (List.map_nth (fun p => np_amax (column votes p))).
    now rewrite List.seq_nth.
Qed.

Lemma repeat_lookup {A} (x : A) (n p : nat) :
  (p < n)%nat -> repeat x n !! p = Some x.
Proof.
  revert p; induction n as [|n IH]; intros [|p] Hp; simpl; try lia; auto.
  apply IH. lia.
Qed.

Lemma lookup_nth_lt {A} (l : list A) (p : nat) (d : A) :
  (p < length l)%nat -> l !! p = Some (nth p l d).
Proof.
  revert p; induction l as [|x l IH]; intros [|p] Hp; simpl in *; try lia; auto.
  apply IH. lia.
Qed.

Lemma NoDup_nth_eq (l : list Z) (i j : nat) :
  List.NoDup l -> (i < length l)%nat -> (j < length l)%nat ->
  nth i l 0 = nth j l 0 -> i = j.
Proof. intros Hnd Hi Hj. now apply (proj1 (List.NoDup_nth l 0) Hnd). Qed.

Lemma nth_map_lt {A B} (f : A -> B) (l : list A) (i : nat) (d : A) (d' : B) :
  (i < length l)%nat -> nth i (map f l) d' = f (nth i l d).
Proof.
  intros Hi. rewrite (List.nth_indep _ d' (f d)) by now rewrite length_map.
  apply List.map_nth.
Qed.

(** ** The vote tensor, cell by cell *)

Lemma count_votes_cell (lv : list Z) (la : list Z) :
  forall (votes votes' : list (list nat)) (k p : nat),
  count_votes lv la votes = Ok votes' ->
  (k < length lv)%nat -> (k < length votes)%nat ->
  (p < length la)%nat -> (p < length (nth k votes []))%nat ->
  nth p (nth k votes' []) 0%nat
  = (nth p (nth k votes []) 0
     + if (nth p la 0 =? nth k lv 0)%Z then 1 else 0)%nat.
Proof.
  induction lv as [|v lv IH]; intros [|row votes] votes' [|k] p H; simpl;
    try lia.
  - apply count_votes_cons_inv in H as (rest & _ & ->).
    intros _ _. apply incr_cells_nth.
  - apply count_votes_cons_inv in H as (rest & Hrest & ->).
    intros Hk Hk'. cbn [nth]. apply (IH _ _ _ _ Hrest); lia.
Qed.

Lemma vote_loop_cell (lv : list Z) (n : nat) (imgs : list (list Z)) :
  forall (votes votes' : list (list nat)) (k p : nat),
  vote_loop lv imgs votes = Ok votes' ->
  List.Forall (fun img => length img = n) imgs ->
  List.Forall (fun row => length row = n) votes ->
  (k < length lv)%nat -> (k < length votes)%nat -> (p < n)%nat ->
  nth p (nth k votes' []) 0%nat
  = (nth p (nth k votes []) 0 + votes_for imgs (nth k lv 0%Z) p)%nat.
Proof.
  induction imgs as [|la imgs IH]; intros votes votes' k p.
  - intros [= <-] _ _ _ _ _. unfold votes_for. simpl. lia.
  - intros Hloop Himgs Hrows Hk Hk' Hp.
    apply vote_loop_cons_inv in Hloop as (_ & votes1 & Hc & Hloop).
    inversion Himgs as [|? ? Hla Himgs']; subst.
    rewrite (IH _ _ k p Hloop Himgs'); try assumption.
    + rewrite (count_votes_cell _ _ _ _ _ _ Hc); try assumption.
      * unfold votes_for. simpl. destruct (nth p la 0 =? nth k lv 0); simpl; lia.
      * rewrite List.Forall_forall in Hrows. rewrite (Hrows (nth k votes [])); [lia|].
        now apply List.nth_In.
    + now apply (count_votes_rows _ _ _ _ _ Hc).
    + now rewrite (count_votes_length _ _ _ _ Hc).
Qed.

(** The vote tensor, cell by cell: [votes[k][p]] is the number of candidates
    that give voxel [p] the label [label_values[k]]. *)
Lemma collect_votes_cell (imgs : list (list Z)) (lv : list Z)
    (votes : list (list nat)) (k p : nat) :
  collect_votes imgs = Ok (lv, votes) ->
  List.Forall (fun img => length img = length (nth 0%nat imgs [])) imgs ->
  (k < length lv)%nat -> (p < length (nth 0%nat imgs []))%nat ->
  nth p (nth k votes []) 0%nat = votes_for imgs (nth k lv 0) p.
Proof.
  destruct imgs as [|first rest]; [discriminate|].
  cbn [nth]. intros H Hshape Hk Hp.
  apply collect_votes_inv in H as (Hlv & votes1 & Hc & Hloop).
  inversion Hshape as [|? ? _ Hrest]; subst.
  set (lv := np_unique first) in *.
  set (zeros := repeat (repeat 0%nat (length first)) (length lv)) in *.
  assert (Hzeros : List.Forall (fun row => length row = length first) zeros).
  { apply List.Forall_forall. intros row Hin. apply repeat_spec in Hin.
    subst. apply repeat_length. }
  rewrite (vote_loop_cell lv (length first) rest _ _ k p Hloop Hrest);
    try assumption.
  - rewrite (count_votes_cell _ _ _ _ _ _ Hc); try assumption.
    + unfold zeros. rewrite (nth_lookup (repeat _ _)), repeat_lookup by assumption.
      cbn [default]. unfold id. rewrite List.nth_repeat_lt by assumption.
      unfold votes_for. simpl. destruct (nth p first 0 =? nth k lv 0); simpl; lia.
    + unfold zeros. now rewrite repeat_length.
    + unfold zeros. rewrite (nth_lookup (repeat _ _)), repeat_lookup by assumption.
      cbn [default]. unfold id. now rewrite repeat_length.
  - now apply (count_votes_rows _ _ _ _ _ Hc).
  - rewrite (count_votes_length _ _ _ _ Hc). unfold zeros. now rewrite repeat_length.
Qed.

(** A column of the vote tensor, by the candidates. *)
Lemma column_votes (imgs : list (list Z)) (lv : list Z) (votes : list (list nat))
    (p : nat) :
  collect_votes imgs = Ok (lv, votes) ->
  List.Forall (fun img => length img = length (nth 0%nat imgs [])) imgs ->
  (p < length (nth 0%nat imgs []))%nat ->
  column votes p = map (fun v => Z.of_nat (votes_for imgs v p)) lv.
Proof.
  intros Hvotes Hshape Hp.
  destruct (collect_votes_shape _ _ _ Hvotes) as (first & rest & _ & _ & Hlen & _).
  apply (List.nth_ext _ _ 0 0).
  - unfold column. now rewrite !length_map.
  - intros k Hk. unfold column in *. rewrite length_map in Hk.
    rewrite (nth_map_lt _ _ _ []) by assumption.
    rewrite (nth_map_lt _ _ _ 0) by lia.
    now rewrite (collect_votes_cell _ _ _ k p Hvotes Hshape) by lia.
Qed.

Lemma vote_loop_unique lv imgs votes votes' :
  vote_loop lv imgs votes = Ok votes' ->
  lv <> [] -> List.NoDup lv -> List.Forall (fun img => img <> []) imgs ->
  List.Forall (fun img => np_unique img = lv) imgs.
Proof.
  intros H Hne Hnd. revert votes H.
  induction imgs as [|la imgs IH]; intros votes H Himgs; [constructor|].
  apply vote_loop_cons_inv in H as (Hd & votes1 & _ & H).
  inversion Himgs as [|? ? Hla Himgs']; subst.
  constructor; [|eauto].
  apply arrays_differ_false in Hd; auto using np_unique_NoDup.
  intros E. now apply np_unique_nil in E.
Qed.

(** Every candidate of a successful count shows the label values of the
    first one, and no other value. *)
Lemma collect_votes_unique (imgs : list (list Z)) (lv : list Z)
    (votes : list (list nat)) :
  collect_votes imgs = Ok (lv, votes) ->
  List.Forall (fun img => img <> []) imgs ->
  List.Forall (fun img => np_unique img = lv) imgs.
Proof.
  destruct imgs as [|first rest]; [discriminate|].
  intros H Himgs. apply collect_votes_inv in H as (Hlv & votes1 & _ & Hloop).
  inversion Himgs as [|? ? Hfirst Hrest]; subst.
  constructor; [reflexivity|].
  apply (vote_loop_unique _ _ _ _ Hloop); auto using np_unique_NoDup.
  intros E. now apply np_unique_nil in E.
Qed.

Lemma votes_for_pos (imgs : list (list Z)) (v : Z) (p : nat) :
  (0 < votes_for imgs v p)%nat <-> exists img, In img imgs /\ nth p img 0 = v.
Proof.
  unfold votes_for. induction imgs as [|img imgs IH]; simpl.
  - split; [lia|]. intros (img & [] & _).
  - destruct (Z.eqb_spec (nth p img 0) v) as [Heq|Hne]; simpl.
    + split; [intros _; exists img; auto|lia].
    + rewrite IH. split.
      * intros (img' & Hin & Hv). eauto.
      * intros (img' & [<-|Hin] & Hv); [contradiction|eauto].
Qed.

Lemma filter_map_length {A B} (f : B -> bool) (g : A -> B) (l : list A) :
  length (List.filter f (map g l)) = length (List.filter (fun x => f (g x)) l).
Proof.
  induction l as [|x l IH]; simpl; [reflexivity|].
  destruct (f (g x)); simpl; now rewrite IH.
Qed.

(** [np.sum(votes != 0, axis=0)] counts the distinct label values the
    candidates give the voxel. *)
Lemma n_labels_candidates (imgs : list (list Z)) (lv : list Z)
    (votes : list (list nat)) (p : nat) :
  collect_votes imgs = Ok (lv, votes) ->
  List.Forall (fun img => length img = length (nth 0%nat imgs [])) imgs ->
  (p < length (nth 0%nat imgs []))%nat ->
  n_labels votes p = candidate_labels imgs p.
Proof.
  intros Hvotes Hshape Hp. unfold n_labels, candidate_labels.
  rewrite (column_votes _ _ _ _ Hvotes Hshape Hp), filter_map_length.
  apply Permutation_length, Permutation.NoDup_Permutation.
  - apply List.NoDup_filter.
    destruct (collect_votes_shape _ _ _ Hvotes) as (? & ? & _ & -> & _).
    apply np_unique_NoDup.
  - apply List.NoDup_nodup.
  - intros v. rewrite List.filter_In, List.nodup_In, List.in_map_iff.
    rewrite negb_true_iff, Z.eqb_neq.
    assert (Hunique : List.Forall (fun img => np_unique img = lv) imgs).
    { apply (collect_votes_unique _ _ _ Hvotes).
      rewrite List.Forall_forall in *. intros img Himg E.
      specialize (Hshape img Himg). rewrite E in Hshape. simpl in Hshape. lia. }
    rewrite List.Forall_forall in Hunique, Hshape.
    split.
    + intros (_ & Hpos).
      destruct (proj1 (votes_for_pos imgs v p)) as (img & Himg & Hv); [lia|].
      eauto.
    + intros (img & Hv & Himg). split.
      * rewrite <- (Hunique img Himg), <- Hv. apply np_unique_In, List.nth_In.
        rewrite (Hshape img Himg). exact Hp.
      * assert (0 < votes_for imgs v p)%nat by (apply votes_for_pos; eauto). lia.
Qed.

(** [np.argmax] of a column is the majority-vote label, and there is one
    such label only. *)
Lemma argmax_plurality (imgs : list (list Z)) (lv : list Z)
    (votes : list (list nat)) (p : nat) :
  collect_votes imgs = Ok (lv, votes) ->
  List.Forall (fun img => length img = length (nth 0%nat imgs [])) imgs ->
  (p < length (nth 0%nat imgs []))%nat ->
  lv <> [] ->
  plurality imgs lv p (np_argmax (column votes p))
  /\ np_amax (column votes p)
     = Z.of_nat (votes_for imgs (nth (np_argmax (column votes p)) lv 0) p).
Proof.
  intros Hvotes Hshape Hp Hne.
  pose proof (column_votes _ _ _ _ Hvotes Hshape Hp) as Hcol.
  assert (Hcell : forall k, (k < length lv)%nat ->
            nth k (column votes p) 0 = Z.of_nat (votes_for imgs (nth k lv 0) p)).
  { intros k Hk. rewrite Hcol. now rewrite (nth_map_lt _ _ _ 0). }
  assert (Hlen : length (column votes p) = length lv)
    by (rewrite Hcol; apply length_map).
  assert (Hcne : column votes p <> []).
  { intros E. rewrite E in Hlen. destruct lv; [congruence|discriminate]. }
  destruct (np_argmax_spec _ Hcne) as (Harg & Hmax & Hfst).
  rewrite Hlen in Harg, Hmax.
  split; [split; [exact Harg|split]|].
  - intros j Hj. specialize (Hmax j Hj). rewrite !Hcell in Hmax by assumption. lia.
  - intros j Hj. specialize (Hfst j Hj). rewrite !Hcell in Hfst by lia. lia.
  - unfold np_amax. now apply Hcell.
Qed.

Lemma plurality_unique (imgs : list (list Z)) (lv : list Z) (p k k' : nat) :
  plurality imgs lv p k -> plurality imgs lv p k' -> k = k'.
Proof.
  intros (Hk & Hmax & Hfst) (Hk' & Hmax' & Hfst').
  destruct (Nat.lt_trichotomy k k') as [Hlt|[Heq|Hgt]]; [|assumption|].
  - specialize (Hfst' k Hlt). specialize (Hmax k' Hk'). lia.
  - specialize (Hfst k' Hgt). specialize (Hmax' k Hk). lia.
Qed.

(** The confidence volume the constructor leaves. *)
Lemma init_labels imgs brain shp b mr pl same thr self thr' :
  __init__ imgs brain shp b mr pl same thr = Ok (self, thr') ->
  exists votes,
    collect_votes imgs = Ok (label_values self, votes)
    /\ label_values self <> [] /\ List.NoDup (label_values self)
    /\ length (fst (mode self)) = length (labels self)
    /\ forall p, (p < length (labels self))%nat ->
         let m := nth p (fst (mode self)) 0%nat in
         m = np_argmax (column votes p)
         /\ (m < length (label_values self))%nat
         /\ nth p (labels self) 0
            = if confident votes thr' (length imgs) p
              then nth m (label_values self) 0 else -1.
Proof.
  intros Hinit.
  apply init_inv in Hinit
    as (lv & votes & labels0 & _ & _ & _ & Hvotes & _ & Hne & Hfind & ->).
  cbn [labels mode label_values]. exists votes.
  destruct (collect_votes_shape _ _ _ Hvotes)
    as (first & rest & -> & Hlv & Hlen & Hrows).
  pose proof (find_hcv_length _ _ _ _ _ _ _ _ Hfind) as Hl0.
  rewrite repeat_length in Hl0.
  split; [assumption|]. split; [assumption|].
  split; [subst lv; apply np_unique_NoDup|].
  split.
  { unfold mode_of. cbn [fst]. now rewrite length_map, length_seq. }
  intros p Hp. rewrite Hl0 in Hp.
  destruct (mode_of_nth votes p Hp) as [Hm Hc]. cbv zeta.
  assert (Hcol : length (column votes p) = length lv)
    by (unfold column; now rewrite length_map).
  assert (Hmlt : (np_argmax (column votes p) < length lv)%nat).
  { rewrite <- Hcol. apply np_argmax_spec.
    destruct (column votes p); [|discriminate].
    destruct lv; [congruence|discriminate]. }
  rewrite Hm. split; [reflexivity|]. split; [assumption|].
  apply nth_lookup_Some.
  erewrite (find_hcv_lookup _ _ _ _ _ _ _ _ _ _ Hfind)
    by (apply repeat_lookup; exact Hp).
  f_equal. rewrite Hm. unfold above_threshold, confident.
  rewrite Hm, Hc, Nat.eqb_refl.
  replace (np_argmax (column votes p) <? 0 + length lv)%nat with true
    by (symmetry; apply Nat.ltb_lt; lia).
  rewrite Nat.sub_0_r. cbn [Nat.leb andb]. reflexivity.
Qed.

(** The confidence volume has a cell for every voxel of the first
    candidate. *)
Lemma init_nvox imgs brain shp b mr pl same thr self thr' :
  __init__ imgs brain shp b mr pl same thr = Ok (self, thr') ->
  length (labels self) = length (nth 0%nat imgs []).
Proof.
  intros Hinit.
  apply init_inv in Hinit
    as (lv & votes & labels0 & _ & _ & _ & Hvotes & _ & Hne & Hfind & ->).
  cbn [labels].
  rewrite (find_hcv_length _ _ _ _ _ _ _ _ Hfind), repeat_length.
  destruct (collect_votes_shape _ _ _ Hvotes)
    as (first & rest & -> & Hlv & Hlen & Hrows).
  cbn [nth]. rewrite Forall_forall in Hrows.
  apply Hrows, list_elem_of_In, List.nth_In.
  rewrite Hlen. destruct lv; [congruence|simpl; lia].
Qed.

(** C2, as the code has it, for candidates of one shape and label values
    that are not negative.  After construction a voxel holds the label value
    of index [k] iff [k] is its majority-vote label and either the candidates
    give the voxel one label value only, or the bound
    [(1.0/n(p) + threshold[k]) * N], each operation rounded to binary64, is at
    most the vote count of the label; it holds the sentinel [-1] otherwise,
    and so never when [n(p) = 1]. *)
Theorem confidence_volume_iff imgs brain shp b mr pl same thr self thr' p :
  __init__ imgs brain shp b mr pl same thr = Ok (self, thr') ->
  Forall (fun img => length img = length (nth 0%nat imgs [])) imgs ->
  Forall (fun v => 0 <= v < 32768) (label_values self) ->
  (p < length (labels self))%nat ->
  let lv := label_values self in
  let n := candidate_labels imgs p in
  let enough k :=
    ((1 / float_of_nat n + nth k thr' 0) * float_of_nat (length imgs)
       <=? float_of_nat (votes_for imgs (nth k lv 0%Z) p))%float = true in
  (exists m, plurality imgs lv p m)
  /\ (forall k, (k < length lv)%nat ->
        nth p (labels self) 0 = nth k lv 0
        <-> plurality imgs lv p k /\ (n = 1%nat \/ enough k))
  /\ (nth p (labels self) 0 = -1
      <-> forall k, plurality imgs lv p k -> ~ (n = 1%nat \/ enough k))
  /\ (n = 1%nat -> nth p (labels self) 0 <> -1).
Proof.
  intros Hinit Hshape Hrange Hp lv n enough.
  destruct (init_labels _ _ _ _ _ _ _ _ _ _ Hinit)
    as (votes & Hvotes & Hne & Hnd & Hmlen & Hvox).
  destruct (Hvox p Hp) as (Hm & Hmlt & Hlab).
  assert (Hp' : (p < length (nth 0%nat imgs []))%nat)
    by now rewrite <- (init_nvox _ _ _ _ _ _ _ _ _ _ Hinit).
  destruct (argmax_plurality _ _ _ _ Hvotes Hshape Hp' Hne) as (Hplur & Hamax).
  rewrite <- Hm in Hplur, Hamax.
  set (m := nth p (fst (mode self)) 0%nat) in *.
  assert (Hconf : confident votes thr' (length imgs) p = true
                  <-> n = 1%nat \/ enough m).
  { unfold confident, min_votes.
    rewrite (n_labels_candidates _ _ _ _ Hvotes Hshape Hp'). fold n.
    rewrite <- Hm, Hamax. fold lv.
    rewrite orb_true_iff, Nat.eqb_eq. reflexivity. }
  assert (Hpos : forall k, (k < length lv)%nat -> nth k lv 0 <> -1).
  { intros k Hk. rewrite List.Forall_forall in Hrange.
    specialize (Hrange _ (nth_In lv 0 Hk)). lia. }
  fold lv in Hlab.
  split; [exists m; exact Hplur|]. split; [|split].
  - intros k Hk. split.
    + intros Heq. rewrite Hlab in Heq.
      destruct (confident votes thr' (length imgs) p) eqn:Hc.
      * apply NoDup_nth_eq in Heq; [|assumption..]. subst k.
        split; [exact Hplur|]. now apply Hconf.
      * symmetry in Heq. now apply Hpos in Heq.
    + intros (Hk' & Hen).
      rewrite (plurality_unique _ _ _ _ _ Hk' Hplur) in *.
      rewrite Hlab, (proj2 Hconf Hen). reflexivity.
  - rewrite Hlab. destruct (confident votes thr' (length imgs) p) eqn:Hc.
    + split.
      * intros Heq. now apply Hpos in Heq.
      * intros Hall. exfalso. apply (Hall m Hplur). now apply Hconf.
    + split; [|reflexivity]. intros _ k Hk Hen.
      rewrite (plurality_unique _ _ _ _ _ Hk Hplur) in Hen.
      apply Hconf in Hen. discriminate.
  - intros Hn. rewrite Hlab, (proj2 Hconf (or_introl Hn)). now apply Hpos.
Qed.

(** ** Validation *)

Lemma positive_int_raises (x : Z) : raises (positive_int x) <-> x < 0.
Proof.
  unfold positive_int. destruct (Z.ltb_spec x 0); simpl; intuition lia.
Qed.

Lemma check_thresholds_raises (thr : list float) :
  raises (check_thresholds thr) <-> Exists outside_unit_interval thr.
Proof.
  induction thr as [|t thr IH]; simpl.
  - split; [easy|]. intros H; inversion H.
  - rewrite bind_Raise_inv, List.Exists_cons, <- IH.
    unfold restricted_float, outside_unit_interval.
    destruct (t <? 0)%float, (1 <? t)%float; simpl; split;
      try (intros [[]|(a & [= <-] & H)]; auto; fail);
      try (intros [[|]|]; try discriminate; eauto; fail); auto.
Qed.

Lemma vote_loop_raises lv imgs votes n :
  lv <> [] -> List.NoDup lv -> (0 < n)%nat ->
  Forall (fun img => length img = n) imgs ->
  Forall (fun row => length row = n) votes ->
  raises (vote_loop lv imgs votes) <-> Exists (fun img => np_unique img <> lv) imgs.
Proof.
  intros Hne Hnd Hn Himgs. revert votes.
  induction Himgs as [|la imgs Hla Himgs IH]; intros votes Hrows.
  - simpl. split; [easy|]. intros H; inversion H.
  - cbn [vote_loop]. rewrite List.Exists_cons.
    assert (Hiff : arrays_differ (np_unique la) lv = Ok false <-> np_unique la = lv).
    { apply arrays_differ_false; auto using np_unique_NoDup.
      intros E. apply np_unique_nil in E. subst la. simpl in Hla. lia. }
    destruct (arrays_differ (np_unique la) lv) as [[|]|e].
    + simpl. split; [|auto]. intros _. left. intros Heq.
      apply Hiff in Heq. discriminate.
    + cbn [mbind result_bind].
      destruct (count_votes_Ok lv la votes) as (votes1 & Hc).
      { eapply List.Forall_impl; [|exact Hrows]. simpl. intros row ->. lia. }
      rewrite Hc. cbn [mbind result_bind].
      rewrite IH by (apply (count_votes_rows _ _ _ _ _ Hc); assumption).
      pose proof (proj1 Hiff eq_refl). tauto.
    + simpl. split; [|auto]. intros _. left. intros Heq.
      apply Hiff in Heq. discriminate.
Qed.

Lemma collect_votes_raises first rest :
  first <> [] -> Forall (fun img => length img = length first) rest ->
  raises (collect_votes (first :: rest))
  <-> Exists (fun img => np_unique img <> np_unique first) rest.
Proof.
  intros Hne Hrest. unfold collect_votes.
  set (zeros := repeat (repeat 0%nat (length first)) (length (np_unique first))).
  assert (Hz : Forall (fun row => length row = length first) zeros).
  { apply List.Forall_forall. intros row Hin. apply repeat_spec in Hin. subst.
    apply repeat_length. }
  destruct (count_votes_Ok (np_unique first) first zeros) as (votes1 & Hc).
  { eapply List.Forall_impl; [|exact Hz]. simpl. intros row ->. lia. }
  rewrite Hc. cbn [mbind result_bind].
  rewrite bind_Raise_inv.
  rewrite (vote_loop_raises _ _ _ (length first)); auto using np_unique_NoDup.
  - split; [|auto]. intros [H|(a & _ & [])]. exact H.
  - intros E. now apply np_unique_nil in E.
  - destruct first; [congruence|simpl; lia].
  - now apply (count_votes_rows _ _ _ _ _ Hc).
Qed.

Lemma pad_thresholds_Ok (missing : nat) (thr : list float) (t : float) :
  last thr = Some t ->
  pad_thresholds missing thr = Ok (thr ++ repeat t missing).
Proof.
  revert thr; induction missing as [|k IH]; intros thr Hlast; simpl.
  - now rewrite app_nil_r.
  - unfold last_item. rewrite Hlast. cbn [mbind result_bind].
    rewrite IH by apply last_snoc. now rewrite <- app_assoc.
Qed.

Lemma match_thresholds_raises lv same thr :
  lv <> [] ->
  raises (match_thresholds lv same thr)
  <-> (length thr <> length lv /\ same = false) \/ (thr = [] /\ same = true).
Proof.
  intros Hne. unfold match_thresholds.
  destruct (Nat.eqb_spec (length lv) (length thr)) as [Heq|Hneq]; simpl.
  - split; [easy|]. intros [[H _]|[-> _]]; [lia|].
    destruct lv; [congruence|discriminate].
  - destruct same; simpl.
    + destruct thr as [|t0 thr].
      * destruct lv as [|v lv]; [congruence|]. simpl. intuition.
      * destruct (last (t0 :: thr)) as [t|] eqn:Hlast.
        -- rewrite (pad_thresholds_Ok _ _ t Hlast). simpl.
           split; [easy|]. intros [[_ [=]]|[[=] _]].
        -- apply last_None in Hlast. discriminate.
    + split; [intros _; left; split; [lia|reflexivity]|easy].
Qed.

Lemma np_unique_nonempty (a : list Z) : a <> [] -> np_unique a <> [].
Proof.
  destruct a as [|x a]; [congruence|]. intros _ Hnil.
  assert (Hin : In x (np_unique (x :: a))) by (apply np_unique_In; simpl; auto).
  rewrite Hnil in Hin. destruct Hin.
Qed.

(** C9, as the code has it. Over candidate volumes of one shape with at
    least one voxel, construction raises exactly on a negative [mixing_ratio]
    or [patch_length], a threshold below 0 or above 1, a volume whose label
    values differ from the first one's, a threshold count different from the
    label count while [same_threshold] is false, an empty threshold list
    while [same_threshold] is true, or a label value that does not fit an
    [int16] cell; with [same_threshold] true and fewer thresholds than labels
    (but at least one), valid inputs are accepted and the threshold list is
    extended by repeating its last value. *)
Theorem init_raises_iff first rest brain shp b mr pl same thr :
  first <> [] ->
  Forall (fun img => length img = length first) rest ->
  let overflow := Exists (fun v => v < -32768 \/ 32767 < v) (np_unique first) in
  (raises (__init__ (first :: rest) brain shp b mr pl same thr)
   <-> invalid_inputs first rest mr pl same thr \/ (thr = [] /\ same = true)
       \/ overflow)
  /\ (forall t, same = true -> last thr = Some t ->
        (length thr < length (np_unique first))%nat ->
        ~ invalid_inputs first rest mr pl same thr -> ~ overflow ->
        exists self,
          __init__ (first :: rest) brain shp b mr pl same thr
          = Ok (self, thr ++ repeat t (length (np_unique first) - length thr))).
Proof.
  intros Hne Hshape overflow. pose proof (np_unique_nonempty first Hne) as Hlv.
  assert (Hiff : raises (__init__ (first :: rest) brain shp b mr pl same thr)
                 <-> invalid_inputs first rest mr pl same thr
                     \/ (thr = [] /\ same = true) \/ overflow).
  { unfold __init__, invalid_inputs.
    rewrite bind_Raise_inv, positive_int_raises.
    split.
    - intros [H|(mr' & Hmr & H)]; [auto|].
      apply bind_Raise_inv in H as [H|(pl' & Hpl & H)];
        [apply positive_int_raises in H; auto|].
      apply bind_Raise_inv in H as [H|([] & Hthr & H)];
        [apply check_thresholds_raises in H; auto 6|].
      apply bind_Raise_inv in H as [H|([lv votes] & Hvotes & H)];
        [apply collect_votes_raises in H; auto 6|].
      apply collect_votes_shape in Hvotes
        as (first' & rest' & [= <- <-] & -> & _ & _).
      apply bind_Raise_inv in H as [H|(thr2 & Hthr2 & H)].
      + apply match_thresholds_raises in H as [H|H]; auto 8.
      + destruct (np_unique first) as [|v lv] eqn:E; [congruence|].
        apply bind_Raise_inv in H as [H|(labels0 & _ & [])].
        apply find_hcv_raises in H. right. right. exact H.
    - intros H.
      destruct (Z.ltb_spec mr 0) as [Hmr|Hmr]; [auto|].
      right. exists mr. split;
        [unfold positive_int; now rewrite (proj2 (Z.ltb_ge mr 0) Hmr)|].
      destruct (Z.ltb_spec pl 0) as [Hpl|Hpl];
        [apply bind_Raise_inv; left; now apply positive_int_raises|].
      apply bind_Raise_inv. right. exists pl. split;
        [unfold positive_int; now rewrite (proj2 (Z.ltb_ge pl 0) Hpl)|].
      apply bind_Raise_inv.
      destruct (check_thresholds thr) as [[]|e] eqn:Hchk; [|left; exact I].
      right. exists tt. split; [reflexivity|].
      apply bind_Raise_inv.
      destruct (collect_votes (first :: rest)) as [[lv votes]|e] eqn:Hvotes;
        [|left; exact I].
      right. exists (lv, votes). split; [reflexivity|].
      apply collect_votes_shape in Hvotes as Hshape'.
      destruct Hshape' as (first' & rest' & [= <- <-] & -> & _ & _).
      apply bind_Raise_inv.
      destruct (match_thresholds (np_unique first) same thr) as [thr2|e] eqn:Hmatch;
        [|left; exact I].
      right. exists thr2. split; [reflexivity|].
      assert (Hnot : ~ raises (match_thresholds (np_unique first) same thr))
        by (rewrite Hmatch; simpl; tauto).
      rewrite match_thresholds_raises in Hnot by assumption.
      destruct H as [[H|[H|[H|[H|H]]]]|[H|H]]; try lia; try tauto.
      + apply check_thresholds_raises in H. rewrite Hchk in H. destruct H.
      + apply collect_votes_raises in H; [|assumption..].
        rewrite Hvotes in H. destruct H.
      + destruct (np_unique first) as [|v lv] eqn:E; [congruence|].
        apply bind_Raise_inv. left. apply find_hcv_raises. exact H. }
  split; [exact Hiff|].
  intros t -> Hlast Hlen Hvalid Hfit.
  destruct (__init__ (first :: rest) brain shp b mr pl true thr)
    as [[self thr']|e] eqn:Hinit.
  - exists self. do 2 f_equal.
    apply init_inv in Hinit
      as (lv & votes & labels0 & _ & _ & _ & Hv & Hpad & _ & _ & _).
    apply collect_votes_shape in Hv as (first' & rest' & [= <- <-] & -> & _ & _).
    unfold match_thresholds in Hpad.
    destruct (Nat.eqb_spec (length (np_unique first)) (length thr)); [lia|].
    cbn [negb] in Hpad. rewrite (pad_thresholds_Ok _ _ t Hlast) in Hpad.
    now injection Hpad as <-.
  - exfalso. destruct (proj1 Hiff I) as [Hr|[[-> _]|Hr]];
      [now apply Hvalid|discriminate|now apply Hfit].
Qed.

(** ** Patches without work *)

(** C8. When no voxel of the head patch still holds the sentinel, [get_patch]
    succeeds, asks for no walk, takes the patch and its seed off their
    queues and leaves the working labels and the tallies as they were; the
    round of the main loop then goes on to the next seed at once. *)
Theorem get_patch_skip np_log np_mean np_std minimum_spanning_tree
    (self : AWoL_MRF) patch patches' seed seeds' :
  patches self = patch :: patches' ->
  seeds self = seed :: seeds' ->
  where_eq (new_labels self) (-1) patch = [] ->
  exists self',
    get_patch np_mean np_std self = Ok self'
    /\ do_walk self' = false
    /\ patches self' = patches' /\ seeds self' = seeds'
    /\ new_labels self' = new_labels self
    /\ label_count self' = label_count self
    /\ labels self' = labels self
    /\ forall rounds,
         seed_loop np_log np_mean np_std minimum_spanning_tree (S rounds) self
         = seed_loop np_log np_mean np_std minimum_spanning_tree rounds self'.
Proof.
  intros Hp Hs Hstill.
  exists (set_seeds seeds' (set_patches patches' (set_do_walk false self))).
  assert (Hget : get_patch np_mean np_std self
                 = Ok (set_seeds seeds' (set_patches patches' (set_do_walk false self)))).
  { unfold get_patch. rewrite Hp, Hstill. cbn [length Nat.ltb Nat.leb].
    cbn [set_do_walk seeds]. now rewrite Hs. }
  repeat split; try assumption; try reflexivity.
  intros rounds. cbn [seed_loop]. rewrite Hs, Hget. reflexivity.
Qed.

(** ** Runs without a seed *)

Lemma where_eq_In (a : list Z) (value : Z) (l : list nat) (p : nat) :
  In p (where_eq a value l) <-> In p l /\ nth p a 0 = value.
Proof. unfold where_eq. now rewrite List.filter_In, Z.eqb_eq. Qed.

Lemma mem_In (x : nat) (l : list nat) : mem x l = true <-> In x l.
Proof.
  unfold mem. rewrite existsb_exists. split.
  - intros (y & Hy & Heq). apply Nat.eqb_eq in Heq. now subst.
  - intros H. exists x. split; [assumption|apply Nat.eqb_refl].
Qed.

Lemma list_remove_In (x : nat) (l : list nat) :
  In x l -> exists l', list_remove Nat.eqb x l = Ok l'.
Proof.
  induction l as [|y l IH]; simpl; [easy|]. intros Hin.
  destruct (Nat.eqb_spec x y); [eauto|].
  destruct IH as [l' ->]; [destruct Hin; congruence|]. simpl. eauto.
Qed.

Lemma dist2_self (shp : nat * nat * nat) (p : nat) : dist2 shp p p = 0.
Proof.
  unfold dist2, unravel_index. destruct shp as [[d h] w]. lia.
Qed.

Lemma query_ball_self shp nvox r2 p :
  (p < nvox)%nat -> 0 <= r2 -> In p (query_ball shp nvox r2 p).
Proof.
  intros Hp Hr. unfold query_ball. apply List.filter_In. split.
  - apply List.in_seq. lia.
  - rewrite dist2_self. now apply Z.leb_le.
Qed.

Lemma neighbors_Ok shp nvox r2 lcv acc :
  0 <= r2 -> List.Forall (fun p => (p < nvox)%nat) lcv ->
  exists m, neighbors shp nvox r2 lcv acc = Ok m.
Proof.
  intros Hr. revert acc. induction lcv as [|p lcv IH]; intros acc Hlcv; simpl.
  - eauto.
  - inversion Hlcv; subst.
    destruct (list_remove_In p (query_ball shp nvox r2 p)) as [l' ->];
      [now apply query_ball_self|].
    cbn [mbind result_bind]. now apply IH.
Qed.

(** In binary64 the square of [np.sqrt(3)] lies between 2 and 3: the ball
    of that radius ends at the squared distance 2. *)
Lemma sqrt3_ball_eq : sqrt3_ball = 2.
Proof. vm_compute. reflexivity. Qed.

Lemma sqrt3_squared :
  (float_of_Z 2 <=? sqrt 3 * sqrt 3)%float = true
  /\ (float_of_Z 3 <=? sqrt 3 * sqrt 3)%float = false.
Proof. split; vm_compute; reflexivity. Qed.

(** [find_lcv] never raises; it leaves the confidence volume alone, and its
    working copy is that volume. *)
Lemma find_lcv_Ok (self : AWoL_MRF) :
  exists self1,
    find_lcv self = Ok self1
    /\ labels self1 = labels self /\ mode self1 = mode self
    /\ label_values self1 = label_values self
    /\ mixing_ratio self1 = mixing_ratio self
    /\ lcv self1 = where_eq (labels self) (-1) (List.seq 0 (length (labels self)))
    /\ (lcv self1 = [] -> no_lcv self1 = true)
    /\ (lcv self1 <> [] ->
          no_lcv self1 = false /\ new_labels self1 = labels self
          /\ label_count self1
             = repeat (repeat 0 (length (label_values self))) (length (labels self))).
Proof.
  unfold find_lcv.
  set (found := where_eq (labels self) (-1) (List.seq 0 (length (labels self)))).
  assert (Hfound : List.Forall (fun p => (p < length (labels self))%nat) found).
  { apply List.Forall_forall. intros p Hp. apply where_eq_In in Hp as [Hp _].
    apply List.in_seq in Hp. lia. }
  destruct found as [|p0 found'] eqn:Hf.
  - eexists. split; [reflexivity|]. cbn. repeat split; auto; congruence.
  - cbn [shape set_no_lcv set_lcv].
    destruct (neighbors_Ok (shape self) (length (labels self)) 1 (p0 :: found') ∅)
      as [small Hsmall]; [lia|assumption|].
    destruct (neighbors_Ok (shape self) (length (labels self)) sqrt3_ball
                (p0 :: found') ∅)
      as [big Hbig]; [rewrite sqrt3_ball_eq; lia|assumption|].
    cbn [labels] in *. rewrite Hsmall. cbn [mbind result_bind].
    rewrite Hbig. cbn [mbind result_bind].
    eexists. split; [reflexivity|]. cbn. repeat split; auto; congruence.
Qed.

Lemma assign_mode_length mode0 still i values nlflat :
  length (assign_mode mode0 still i values nlflat) = length nlflat.
Proof.
  revert i nlflat; induction values as [|v values IH]; intros i nlflat; simpl;
    [reflexivity|]. rewrite IH. apply length_imap.
Qed.

(** After the loop of lines 296-297 a voxel of [still_lcv] holds the value
    of its mode label; the other voxels are as they were. *)
Lemma assign_mode_lookup mode0 still values :
  forall i (nlflat : list Z) p old,
  nlflat !! p = Some old ->
  let m := nth p mode0 0%nat in
  assign_mode mode0 still i values nlflat !! p
  = Some (if mem p still && ((i <=? m)%nat && (m <? i + length values)%nat)
          then int16 (nth (m - i) values 0) else old).
Proof.
  induction values as [|v values IH]; intros i nlflat p old Hp m;
    cbn [assign_mode length].
  - rewrite Hp. f_equal.
    destruct (Nat.leb_spec i m), (Nat.ltb_spec m (i + 0)); simpl;
      rewrite ?andb_false_r; auto; lia.
  - erewrite IH; [|rewrite list_lookup_imap, Hp; reflexivity].
    fold m. f_equal. destruct (mem p still); [|reflexivity]. cbn [andb].
    destruct (Nat.lt_trichotomy m i) as [Hlt|[->|Hgt]].
    + replace (S i <=? m)%nat with false by (symmetry; apply Nat.leb_gt; lia).
      replace (i <=? m)%nat with false by (symmetry; apply Nat.leb_gt; lia).
      replace (m =? i)%nat with false by (symmetry; apply Nat.eqb_neq; lia).
      reflexivity.
    + replace (S i <=? i)%nat with false by (symmetry; apply Nat.leb_gt; lia).
      rewrite Nat.leb_refl, Nat.sub_diag, Nat.eqb_refl.
      replace (i <? i + S (length values))%nat with true
        by (symmetry; apply Nat.ltb_lt; lia).
      reflexivity.
    + replace (S i <=? m)%nat with true by (symmetry; apply Nat.leb_le; lia).
      replace (i <=? m)%nat with true by (symmetry; apply Nat.leb_le; lia).
      replace (m =? i)%nat with false by (symmetry; apply Nat.eqb_neq; lia).
      replace (S i + length values)%nat with (i + S (length values))%nat by lia.
      replace (m - i)%nat with (S (m - S i)) by lia.
      reflexivity.
Qed.

Lemma find_seeds_frame (self : AWoL_MRF) :
  labels (find_seeds self) = labels self
  /\ new_labels (find_seeds self) = new_labels self
  /\ mode (find_seeds self) = mode self
  /\ label_values (find_seeds self) = label_values self
  /\ label_count (find_seeds self) = label_count self.
Proof.
  unfold find_seeds. destruct (rank_lcv self (lcv self)) as [cl [|s sd]];
    cbn; auto.
Qed.

(** C6. When the confidence volume has no low-confidence voxel, or none of
    them qualifies as a seed, [run] returns the majority-vote volume. *)
Theorem run_majority_vote np_log np_mean np_std minimum_spanning_tree
    imgs brain shp b mr pl same thr self thr' :
  __init__ imgs brain shp b mr pl same thr = Ok (self, thr') ->
  Forall (fun v => 0 <= v < 32768) (label_values self) ->
  (forall self1, find_lcv self = Ok self1 ->
     lcv self1 = [] \/ seeds (find_seeds self1) = []) ->
  run np_log np_mean np_std minimum_spanning_tree self = Ok (majority_vote self).
Proof.
  intros Hinit Hrange Hnone.
  destruct (init_labels _ _ _ _ _ _ _ _ _ _ Hinit)
    as (votes & _ & Hne & Hnd & Hlen & Hlab0).
  assert (Hlab : forall p, (p < length (labels self))%nat ->
            let m := nth p (fst (mode self)) 0%nat in
            m = np_argmax (column votes p)
            /\ (m < length (label_values self))%nat
            /\ nth p (labels self) 0
               = if confident votes thr' (length imgs) p
                 then int16 (nth m (label_values self) 0) else -1).
  { intros p Hp. destruct (Hlab0 p Hp) as (Hm & Hmlt & Hl).
    split; [exact Hm|]. split; [exact Hmlt|]. rewrite Hl.
    destruct (confident _ _ _ _); [|reflexivity].
    symmetry. apply int16_small.
    rewrite List.Forall_forall in Hrange. now apply Hrange, nth_In. }
  clear Hlab0.
  destruct (find_lcv_Ok self)
    as (self1 & Hfind & Hl1 & Hm1 & Hv1 & _ & Hlcv & Hnil & Hcons).
  assert (Hval : forall p, (p < length (labels self))%nat ->
            nth p (majority_vote self) 0
            = int16 (nth (nth p (fst (mode self)) 0%nat) (label_values self) 0)).
  { intros p Hp. unfold majority_vote.
    rewrite (List.nth_indep _ 0 (nth 0%nat (label_values self) 0))
      by (rewrite length_map; lia).
    rewrite (List.map_nth (fun m => nth m (label_values self) 0)).
    symmetry. apply int16_small.
    rewrite List.Forall_forall in Hrange. apply Hrange, nth_In.
    now apply Hlab. }
  assert (Hmaj : length (majority_vote self) = length (labels self))
    by (unfold majority_vote; now rewrite length_map).
  unfold run. rewrite Hfind. cbn [mbind result_bind].
  destruct (Hnone self1 Hfind) as [Hno|Hno].
  - rewrite (Hnil Hno). unfold get_output_image. rewrite Hl1. f_equal.
    apply (List.nth_ext _ _ 0 0); [now rewrite Hmaj|].
    intros p Hp. rewrite Hval by assumption.
    destruct (Hlab p Hp) as (_ & _ & ->).
    destruct (confident votes thr' (length imgs) p) eqn:Hc; [reflexivity|].
    exfalso.
    assert (Hin : In p (lcv self1)); [|rewrite Hno in Hin; destruct Hin].
    rewrite Hlcv. apply where_eq_In. split; [apply List.in_seq; lia|].
    destruct (Hlab p Hp) as (_ & _ & ->). now rewrite Hc.
  - destruct (lcv self1) as [|p0 l0] eqn:Hl.
    + rewrite (Hnil eq_refl). unfold get_output_image. rewrite Hl1. f_equal.
      apply (List.nth_ext _ _ 0 0); [now rewrite Hmaj|].
      intros p Hp. rewrite Hval by assumption.
      destruct (Hlab p Hp) as (_ & _ & ->).
      destruct (confident votes thr' (length imgs) p) eqn:Hc; [reflexivity|].
      exfalso.
      assert (Hin : In p (@nil nat)); [|destruct Hin].
      rewrite Hlcv. apply where_eq_In. split; [apply List.in_seq; lia|].
      destruct (Hlab p Hp) as (_ & _ & ->). now rewrite Hc.
    + destruct Hcons as (Hno_lcv & Hnew & _); [discriminate|].
      rewrite Hno_lcv, Hno. cbn [length seed_loop]. rewrite Hno.
      cbn [mbind result_bind].
      destruct (find_seeds_frame self1) as (_ & Hnl & Hmd & Hlv & _).
      unfold get_output_image, final_labels. cbn [labels set_labels].
      rewrite Hnl, Hmd, Hlv, Hnew, Hm1, Hv1. f_equal.
      apply (List.nth_ext _ _ 0 0);
        [now rewrite assign_mode_length, Hmaj|].
      rewrite assign_mode_length. intros p Hp.
      rewrite Hval by assumption.
      destruct (Hlab p Hp) as (_ & Hmlt & Hp').
      apply nth_lookup_Some.
      erewrite assign_mode_lookup by (apply (lookup_nth_lt _ _ 0); exact Hp).
      f_equal. rewrite Nat.sub_0_r.
      replace (0 <=? nth p (mode self).1 0)%nat with true by reflexivity.
      replace (nth p (mode self).1 0 <? 0 + length (label_values self))%nat
        with true by (symmetry; apply Nat.ltb_lt; lia).
      rewrite andb_true_r.
      destruct (mem p _) eqn:Hmem; [reflexivity|].
      rewrite Hp'.
      destruct (confident votes thr' (length imgs) p) eqn:Hc; [reflexivity|].
      exfalso. apply not_true_iff_false in Hmem. apply Hmem.
      apply mem_In, where_eq_In. split; [apply List.in_seq; lia|].
      exact Hp'.
Qed.

(** ** The seed queue *)

Section Sorting.
Context {A : Type} (leb : A -> A -> bool).
Hypothesis leb_total : forall a b, leb a b = true \/ leb b a = true.
Hypothesis leb_trans :
  forall a b c, leb a b = true -> leb b c = true -> leb a c = true.

Lemma insert_sorted_perm (x : A) (l : list A) :
  Permutation (insert_sorted leb x l) (x :: l).
Proof.
  induction l as [|y l IH]; simpl; [reflexivity|].
  destruct (leb x y); [reflexivity|].
  rewrite IH. apply perm_swap.
Qed.

Lemma sorted_perm (l : list A) : Permutation (sorted leb l) l.
Proof.
  induction l as [|x l IH]; simpl; [reflexivity|].
  rewrite insert_sorted_perm. now constructor.
Qed.

Lemma insert_sorted_sorted (x : A) (l : list A) :
  StronglySorted (fun a b => leb a b = true) l ->
  StronglySorted (fun a b => leb a b = true) (insert_sorted leb x l).
Proof using leb_total leb_trans.
  induction 1 as [|y l Hs IH Hy]; simpl.
  - repeat constructor.
  - destruct (leb x y) eqn:Hxy.
    + constructor; [now constructor|].
      constructor; [assumption|].
      eapply List.Forall_impl; [|exact Hy]. intros z Hz. eauto.
    + constructor; [assumption|].
      assert (Hyx : leb y x = true)
        by (destruct (leb_total x y); congruence).
      rewrite List.Forall_forall in *. intros z Hz.
      apply (Permutation_in _ (insert_sorted_perm x l)) in Hz.
      destruct Hz as [<-|Hz]; auto.
Qed.

Lemma sorted_sorted (l : list A) :
  StronglySorted (fun a b => leb a b = true) (sorted leb l).
Proof using leb_total leb_trans.
  induction l; simpl; [constructor|]. now apply insert_sorted_sorted.
Qed.
End Sorting.








Lemma rank_lcv_spec (self : AWoL_MRF) (lcvs : list nat) :
  let qualified :=
    List.filter (fun s => mixing_ratio self <? Z.of_nat (score self s)) lcvs in
  rank_lcv self lcvs = (map (score self) qualified, qualified).
Proof.
  induction lcvs as [|s lcvs IH]; simpl; [reflexivity|].
  simpl in IH. rewrite IH. fold (score self s).
  destruct (mixing_ratio self <? Z.of_nat (score self s)); reflexivity.
Qed.

Lemma combine_map_key {A B} (key : B -> A) (l : list B) :
  combine (map key l) l = map (fun s => (key s, s)) l.
Proof. induction l; simpl; congruence. Qed.


(** ** The order of binary64 numbers *)

Lemma cmp_exp_mant_Lt (e1 e2 : Z) (m1 m2 : positive) :
  match e1 ?= e2 with
  | Lt => Lt | Gt => Gt | Eq => Pos.compare_cont Eq m1 m2
  end = Lt <-> e1 < e2 \/ (e1 = e2 /\ (m1 < m2)%positive).
Proof.
  change (Pos.compare_cont Eq m1 m2) with (m1 ?= m2)%positive.
  destruct (Z.compare_spec e1 e2), (Pos.compare_spec m1 m2);
    split; try discriminate; try lia; auto.
Qed.

Lemma cmp_exp_mant_Gt (e1 e2 : Z) (m1 m2 : positive) :
  match e1 ?= e2 with
  | Lt => Lt | Gt => Gt | Eq => Pos.compare_cont Eq m1 m2
  end = Gt <-> e2 < e1 \/ (e1 = e2 /\ (m2 < m1)%positive).
Proof.
  change (Pos.compare_cont Eq m1 m2) with (m1 ?= m2)%positive.
  destruct (Z.compare_spec e1 e2), (Pos.compare_spec m1 m2);
    split; try discriminate; try lia; auto.
Qed.

Lemma cmp_exp_mant_Eq (e1 e2 : Z) (m1 m2 : positive) :
  match e1 ?= e2 with
  | Lt => Lt | Gt => Gt | Eq => Pos.compare_cont Eq m1 m2
  end = Eq <-> e1 = e2 /\ m1 = m2.
Proof.
  change (Pos.compare_cont Eq m1 m2) with (m1 ?= m2)%positive.
  destruct (Z.compare_spec e1 e2), (Pos.compare_spec m1 m2);
    split; try discriminate; try lia; auto.
Qed.

(** What [SFcompare] answers on two finite numbers of one sign. *)
Lemma SFcompare_finite (s : bool) (m1 m2 : positive) (e1 e2 : Z) (c : comparison) :
  SFcompare (S754_finite s m1 e1) (S754_finite s m2 e2) = Some c <->
  match c with
  | Lt => if s then e2 < e1 \/ (e1 = e2 /\ (m2 < m1)%positive)
          else e1 < e2 \/ (e1 = e2 /\ (m1 < m2)%positive)
  | Gt => if s then e1 < e2 \/ (e1 = e2 /\ (m1 < m2)%positive)
          else e2 < e1 \/ (e1 = e2 /\ (m2 < m1)%positive)
  | Eq => e1 = e2 /\ m1 = m2
  end.
Proof.
  pose proof (cmp_exp_mant_Lt e1 e2 m1 m2) as HL.
  pose proof (cmp_exp_mant_Gt e1 e2 m1 m2) as HG.
  pose proof (cmp_exp_mant_Eq e1 e2 m1 m2) as HE.
  change (Pos.compare_cont Eq m1 m2) with (m1 ?= m2)%positive in *.
  destruct s; simpl;
    change (Pos.compare_cont Eq m1 m2) with (m1 ?= m2)%positive;
    destruct (e1 ?= e2), (m1 ?= m2)%positive, c; simpl;
    split; intros H; try discriminate; try reflexivity; try tauto;
    try (exfalso; intuition discriminate).
Qed.

Lemma SFltb_trans (a b c : spec_float) :
  SFltb a b = true -> SFltb b c = true -> SFltb a c = true.
Proof.
  unfold SFltb.
  destruct (SFcompare a b) as [[]|] eqn:Hab; try discriminate. intros _.
  destruct (SFcompare b c) as [[]|] eqn:Hbc; try discriminate. intros _.
  destruct a as [sa|sa| |sa ma ea], b as [sb|sb| |sb mb eb],
    c as [sc|sc| |sc mc ec];
    try destruct sa; try destruct sb; try destruct sc;
    try discriminate; try reflexivity.
  - apply SFcompare_finite in Hab, Hbc. cbv beta iota in *.
    replace (SFcompare _ _) with (Some Lt); [reflexivity|].
    symmetry. apply SFcompare_finite. cbv beta iota. lia.
  - apply SFcompare_finite in Hab, Hbc. cbv beta iota in *.
    replace (SFcompare _ _) with (Some Lt); [reflexivity|].
    symmetry. apply SFcompare_finite. cbv beta iota. lia.
Qed.

Lemma SFleb_ltb_trans (a b c : spec_float) :
  SFleb a b = true -> SFltb b c = true -> SFltb a c = true.
Proof.
  unfold SFltb, SFleb.
  destruct (SFcompare a b) as [[]|] eqn:Hab; try discriminate; intros _;
  (destruct (SFcompare b c) as [[]|] eqn:Hbc; try discriminate; intros _);
  destruct a as [sa|sa| |sa ma ea], b as [sb|sb| |sb mb eb],
    c as [sc|sc| |sc mc ec];
    try destruct sa; try destruct sb; try destruct sc;
    try discriminate; try reflexivity;
    apply SFcompare_finite in Hab, Hbc; cbv beta iota in *;
    (replace (SFcompare _ _) with (Some Lt); [reflexivity|]);
    symmetry; apply SFcompare_finite; cbv beta iota; lia.
Qed.

Lemma SFltb_irrefl (a : spec_float) : SFltb a a = false.
Proof.
  unfold SFltb. destruct (SFcompare a a) as [[]|] eqn:Haa; try reflexivity.
  destruct a as [s|s| |s m e]; try destruct s; try discriminate;
    apply SFcompare_finite in Haa; cbv beta iota in Haa; lia.
Qed.

Lemma ltb_trans (a b c : float) :
  (a <? b)%float = true -> (b <? c)%float = true -> (a <? c)%float = true.
Proof. rewrite !ltb_spec. apply SFltb_trans. Qed.

Lemma leb_ltb_trans (a b c : float) :
  (a <=? b)%float = true -> (b <? c)%float = true -> (a <? c)%float = true.
Proof. rewrite !ltb_spec, leb_spec. apply SFleb_ltb_trans. Qed.

Lemma ltb_irrefl (a : float) : (a <? a)%float = false.
Proof. rewrite ltb_spec. apply SFltb_irrefl. Qed.

(** ** The label a visit selects *)

Lemma select_label_scanned (np_log : float -> float) (self : AWoL_MRF)
    (lcv : nat) (stale : option Z) (stats seen : list (Z * (float * float)))
    (mrf_energy : float) (new_label : option Z) :
  scanned (mrf_total np_log self lcv) stale seen mrf_energy new_label ->
  scanned (mrf_total np_log self lcv) stale (seen ++ stats)
    (fst (select_label np_log self lcv stats mrf_energy new_label))
    (snd (select_label np_log self lcv stats mrf_energy new_label)).
Proof.
  set (energy := mrf_total np_log self lcv).
  revert seen mrf_energy new_label.
  induction stats as [|stat stats IH]; intros seen cur lab Hinv.
  - simpl. now rewrite app_nil_r.
  - cbn [select_label]. fold energy.
    replace (seen ++ stat :: stats) with ((seen ++ [stat]) ++ stats)
      by now rewrite <- app_assoc.
    destruct (energy stat <? cur)%float eqn:Hlt; apply IH.
    + right. exists (length seen), stat.
      assert (Hinf : (energy stat <? infinity)%float = true).
      { destruct Hinv as [(_ & -> & _)|(i & s & _ & _ & -> & Hs & _)];
          [assumption|eauto using ltb_trans]. }
      assert (Hbelow : forall s', In s' seen ->
                (energy s' <? cur)%float = false).
      { destruct Hinv as [(_ & -> & H)|(i & s & _ & _ & -> & _ & H & _)]; auto. }
      split; [apply list_lookup_middle; reflexivity|].
      split; [reflexivity|]. split; [reflexivity|]. split; [assumption|].
      split.
      * intros s' Hin. apply in_app_or in Hin as [Hin|[<-|[]]];
          [|apply ltb_irrefl].
        destruct (energy s' <? energy stat)%float eqn:Hs'; [|reflexivity].
        rewrite <- (Hbelow s' Hin). symmetry. eauto using ltb_trans.
      * intros j s' Hj Hs'. rewrite lookup_app_l in Hs' by assumption.
        apply list_elem_of_lookup_2, list_elem_of_In in Hs'.
        destruct (energy s' <=? energy stat)%float eqn:Hle; [|reflexivity].
        rewrite <- (Hbelow s' Hs'). symmetry. eauto using leb_ltb_trans.
    + destruct Hinv as [(-> & -> & H)|(i & s & Hi & -> & -> & Hs & Hmin & Hfirst)].
      * left. split; [reflexivity|]. split; [reflexivity|].
        intros s' Hin. apply in_app_or in Hin as [Hin|[<-|[]]]; auto.
      * right. exists i, s.
        split; [rewrite lookup_app_l; [assumption|];
                now apply lookup_lt_Some in Hi|].
        split; [reflexivity|]. split; [reflexivity|]. split; [assumption|].
        split.
        -- intros s' Hin. apply in_app_or in Hin as [Hin|[<-|[]]]; auto.
        -- intros j s' Hj Hs'. apply (Hfirst j s' Hj).
           rewrite lookup_app_l in Hs'; [assumption|].
           apply lookup_lt_Some in Hi. lia.
Qed.

(** C1, as the code has it. At a visited voxel every label [k] of
    [patch_stats], of mean [mean] and standard deviation [std], gets the
    energy [log(sqrt(2 pi) std) + (x - mean)^2 / (2 std^2)] plus [beta] times
    (twice the direct neighbours that hold [k], plus those at the sentinel,
    minus their number).  Provided one of these energies is below [inf], the
    vote of the visit is a label of least energy, the first one in the order
    of [patch_stats]: no label has an energy below its own, and no earlier
    label one at or below it. *)
Theorem visit_selects_minimum (np_log : float -> float) (self : AWoL_MRF)
    (stale : option Z) (lcv : nat) :
  let x := nth lcv (intensity self) 0%float in
  let n := default [] (neighbors_small self !! lcv) in
  let energy (stat : Z * (float * float)) : float :=
    let '(value, (mean, std)) := stat in
    ((np_log (sqrt (2 * np_pi) * std) + ((x - mean) * (x - mean)) / (2 * (std * std)))
     + beta self
       * float_of_Z (2 * Z.of_nat (length (where_eq (new_labels self) value n))
                     + Z.of_nat (length (where_eq (new_labels self) (-1) n))
                     - Z.of_nat (length n)))%float in
  (exists stat, In stat (patch_stats self)
                /\ (energy stat <? infinity)%float = true) ->
  exists i value mean std,
    patch_stats self !! i = Some (value, (mean, std))
    /\ mrf_visit np_log self stale lcv
       = (self' ← update_label_count self lcv value; Ok (self', Some value))
    /\ (energy (value, (mean, std)) <? infinity)%float = true
    /\ (forall stat, In stat (patch_stats self) ->
          (energy stat <? energy (value, (mean, std)))%float = false)
    /\ (forall j stat, (j < i)%nat -> patch_stats self !! j = Some stat ->
          (energy stat <=? energy (value, (mean, std)))%float = false).
Proof.
  intros x n energy (stat & Hin & Hlt).
  assert (Henergy : forall s, energy s = mrf_total np_log self lcv s)
    by (intros [value [mean std]]; reflexivity).
  pose proof (select_label_scanned np_log self lcv stale (patch_stats self) []
                infinity stale) as Hscan.
  cbn [app] in Hscan.
  destruct Hscan as [(_ & _ & Hnone)|(i & [value [mean std]] & Hi & Hlab & _ & Hinf & Hmin & Hfirst)].
  - left. repeat split; auto. intros s [].
  - specialize (Hnone stat Hin). rewrite <- Henergy in Hnone. congruence.
  - exists i, value, mean, std. split; [assumption|].
    split; [unfold mrf_visit; now rewrite Hlab|].
    rewrite Henergy. split; [assumption|]. split.
    + intros s Hs. rewrite Henergy. auto.
    + intros j s Hj Hs. rewrite Henergy. eauto.
Qed.

(** ** The tally *)

Lemma index_of_Z_lt (x : Z) (a : list Z) (i : nat) :
  index_of_Z x a = Ok i -> (i < length a)%nat /\ nth i a 0 = x.
Proof.
  revert i; induction a as [|y a IH]; intros i; simpl; [discriminate|].
  destruct (Z.eqb_spec x y) as [->|Hne].
  - intros [= <-]. split; [lia|reflexivity].
  - intros H. apply bind_Ok_inv in H as (i' & Hi' & [= <-]).
    apply IH in Hi' as [? ?]. split; [lia|assumption].
Qed.

(** What lines 281-282 leave. *)
Lemma update_label_count_inv (self self' : AWoL_MRF) (lcv : nat) (new_label : Z) :
  update_label_count self lcv new_label = Ok self' ->
  exists i,
    index_of_Z new_label (label_values self) = Ok i
    /\ let row := nth lcv (label_count self) [] in
       let row' := <[i := uint16 (nth i row 0 + 1)]> row in
       label_count self' = <[lcv := row']> (label_count self)
       /\ new_labels self'
          = <[lcv := int16 (nth (np_argmax row') (label_values self) 0)]>
              (new_labels self)
       /\ label_values self' = label_values self.
Proof.
  unfold update_label_count. intros H.
  apply bind_Ok_inv in H as (i & Hi & [= <-]).
  exists i. split; [assumption|]. cbn. auto.
Qed.

(** C4, as the code has it. After a tally increment the working label of
    the voxel is the label of the highest count; among labels tied for the
    highest count it is the first one of [label_values]. *)
Theorem working_label_follows_tally (self self' : AWoL_MRF) (lcv : nat)
    (new_label : Z) :
  update_label_count self lcv new_label = Ok self' ->
  (lcv < length (new_labels self))%nat ->
  (lcv < length (label_count self))%nat ->
  let before := nth lcv (label_count self) [] in
  let tally := nth lcv (label_count self') [] in
  exists i k,
    index_of_Z new_label (label_values self) = Ok i
    /\ tally = <[i := uint16 (nth i before 0 + 1)]> before
    /\ nth lcv (new_labels self') 0 = int16 (nth k (label_values self) 0)
    /\ (forall j, (j < length tally)%nat -> nth j tally 0 <= nth k tally 0)
    /\ (forall j, (j < k)%nat -> nth j tally 0 < nth k tally 0)
    /\ (tally <> [] -> (k < length tally)%nat).
Proof.
  intros Hupd Hnl Hlc before tally.
  apply update_label_count_inv in Hupd as (i & Hi & Hcount & Hnew & _).
  cbv zeta in Hcount, Hnew. fold before in Hcount, Hnew.
  assert (Htally : tally = <[i := uint16 (nth i before 0 + 1)]> before).
  { unfold tally. rewrite Hcount. apply nth_lookup_Some.
    now apply list_lookup_insert_eq. }
  exists i, (np_argmax tally).
  split; [assumption|]. split; [assumption|].
  split.
  { rewrite Hnew, Htally. apply nth_lookup_Some.
    now apply list_lookup_insert_eq. }
  destruct tally as [|c tally'] eqn:Ht.
  - split; [simpl; intros; lia|]. split; [simpl; intros; lia|]. congruence.
  - rewrite <- Ht.
    destruct (np_argmax_spec tally) as (Hk & Hmax & Hfirst);
      [rewrite Ht; discriminate|].
    auto.
Qed.

(** * The neighbour maps *)

Lemma list_remove_NoDup (x : nat) (l l' : list nat) :
  list_remove Nat.eqb x l = Ok l' -> List.NoDup l ->
  forall q, In q l' <-> In q l /\ q <> x.
Proof.
  revert l'; induction l as [|y l IH]; intros l'; simpl; [discriminate|].
  intros H Hnd q. inversion Hnd as [|? ? Hy Hl]; subst.
  destruct (Nat.eqb_spec x y) as [->|Hne].
  - injection H as <-. split.
    + intros Hq. split; [auto|]. intros ->. contradiction.
    + intros [[<-|Hq] Hqy]; [congruence|assumption].
  - apply bind_Ok_inv in H as (l'' & Hl'' & [= <-]).
    simpl. rewrite (IH _ Hl'' Hl q). split.
    + intros [<-|[Hq Hqx]]; auto.
    + intros [[<-|Hq] Hqx]; auto.
Qed.

Lemma query_ball_In shp nvox r2 p q :
  In q (query_ball shp nvox r2 p) <-> (q < nvox)%nat /\ dist2 shp p q <= r2.
Proof.
  unfold query_ball. rewrite List.filter_In, List.in_seq, Z.leb_le. lia.
Qed.

Lemma query_ball_NoDup shp nvox r2 p : List.NoDup (query_ball shp nvox r2 p).
Proof. apply List.NoDup_filter, List.seq_NoDup. Qed.

Lemma neighbors_other shp nvox r2 (lcv : list nat) :
  forall acc m p,
  neighbors shp nvox r2 lcv acc = Ok m -> ~ In p lcv -> m !! p = acc !! p.
Proof.
  induction lcv as [|p0 lcv IH]; intros acc m p; simpl.
  - now intros [= <-].
  - intros H Hnot. apply bind_Ok_inv in H as (qbt & _ & H).
    rewrite (IH _ _ _ H) by tauto.
    apply lookup_insert_ne. tauto.
Qed.

(** The entry of a low-confidence voxel [p] in [neighbors(tree_lcv, tree, r)]:
    the voxels within the radius, [p] itself left out. *)
Lemma neighbors_lookup shp nvox r2 (lcv : list nat) :
  forall acc m p,
  neighbors shp nvox r2 lcv acc = Ok m -> In p lcv ->
  exists n, m !! p = Some n
            /\ forall q, In q n <-> (q < nvox)%nat /\ q <> p /\ dist2 shp p q <= r2.
Proof.
  induction lcv as [|p0 lcv IH]; intros acc m p; simpl; [easy|].
  intros H Hin. apply bind_Ok_inv in H as (qbt & Hqbt & H).
  destruct (List.in_dec Nat.eq_dec p lcv) as [Hp|Hp]; [eapply IH; eassumption|].
  destruct Hin as [->|Hin]; [|contradiction].
  exists (sorted Nat.leb qbt). split.
  - rewrite (neighbors_other _ _ _ _ _ _ _ H Hp). apply lookup_insert_eq.
  - intros q.
    rewrite (Permutation_in' eq_refl (sorted_perm Nat.leb qbt)).
    rewrite (list_remove_NoDup _ _ _ Hqbt (query_ball_NoDup _ _ _ _)).
    rewrite query_ball_In. tauto.
Qed.

Lemma sq_small (d : Z) : d * d <= 3 -> -1 <= d <= 1.
Proof. intros H. nia. Qed.

Lemma small_sq (d : Z) : -1 <= d <= 1 -> d * d <= 1.
Proof.
  intros H. assert (d = -1 \/ d = 0 \/ d = 1) as [->|[->| ->]] by lia; lia.
Qed.

Lemma sq_abs (d : Z) : Z.abs d <= d * d.
Proof. destruct (Z.abs_spec d) as [[? ->]|[? ->]]; nia. Qed.

(** The two radii: a squared distance of at most 2 is a step of at most one
    voxel along every axis and along two axes at most, one of at most 1 a step
    along one axis at most. *)
Lemma within_two (dz dy dx : Z) :
  dz * dz + dy * dy + dx * dx <= 2
  <-> Z.abs dz <= 1 /\ Z.abs dy <= 1 /\ Z.abs dx <= 1
      /\ Z.abs dz + Z.abs dy + Z.abs dx <= 2.
Proof.
  pose proof (Z.square_nonneg dz). pose proof (Z.square_nonneg dy).
  pose proof (Z.square_nonneg dx).
  pose proof (sq_abs dz). pose proof (sq_abs dy). pose proof (sq_abs dx).
  split; intros Hd.
  - pose proof (sq_small dz). pose proof (sq_small dy). pose proof (sq_small dx).
    lia.
  - destruct Hd as (Hz & Hy & Hx & Hs).
    assert (dz = -1 \/ dz = 0 \/ dz = 1) as [->|[->| ->]] by lia;
      assert (dy = -1 \/ dy = 0 \/ dy = 1) as [->|[->| ->]] by lia;
      assert (dx = -1 \/ dx = 0 \/ dx = 1) as [->|[->| ->]] by lia; lia.
Qed.

Lemma within_one (dz dy dx : Z) :
  dz * dz + dy * dy + dx * dx <= 1 <-> Z.abs dz + Z.abs dy + Z.abs dx <= 1.
Proof.
  pose proof (Z.square_nonneg dz). pose proof (Z.square_nonneg dy).
  pose proof (Z.square_nonneg dx).
  pose proof (sq_abs dz). pose proof (sq_abs dy). pose proof (sq_abs dx).
  split; intros Hd; [lia|].
  pose proof (small_sq dz). pose proof (small_sq dy). pose proof (small_sq dx).
  assert (Hc : (dz = 0 /\ dy = 0) \/ (dz = 0 /\ dx = 0) \/ (dy = 0 /\ dx = 0))
    by lia.
  destruct Hc as [[-> ->]|[[-> ->]|[-> ->]]]; lia.
Qed.

(** What [find_lcv] leaves in [neighbors_small] and [neighbors_big]. *)
Lemma find_lcv_neighbors (self self1 : AWoL_MRF) (p : nat) :
  find_lcv self = Ok self1 -> In p (lcv self1) ->
  exists small big,
    neighbors_small self1 !! p = Some small
    /\ neighbors_big self1 !! p = Some big
    /\ (forall q, In q small <->
          (q < length (labels self))%nat /\ q <> p /\ dist2 (shape self) p q <= 1)
    /\ (forall q, In q big <->
          (q < length (labels self))%nat /\ q <> p /\ dist2 (shape self) p q <= 2).
Proof.
  unfold find_lcv.
  set (found := where_eq (labels self) (-1) (List.seq 0 (length (labels self)))).
  destruct found as [|p0 found'] eqn:Hf.
  - intros [= <-]. cbn. easy.
  - cbn [shape set_no_lcv set_lcv labels]. intros H.
    apply bind_Ok_inv in H as (small & Hsmall & H).
    apply bind_Ok_inv in H as (big & Hbig & [= <-]).
    rewrite sqrt3_ball_eq in Hbig.
    cbn. intros Hin.
    destruct (neighbors_lookup _ _ _ _ _ _ p Hsmall Hin) as (ns & Hns & Hns').
    destruct (neighbors_lookup _ _ _ _ _ _ p Hbig Hin) as (nb & Hnb & Hnb').
    exists ns, nb. auto.
Qed.

(** * The final pass on a resolved volume *)

(** X1. Running [final_labels] over a working volume that holds no sentinel
    leaves every label as it is. *)
Theorem final_labels_resolved (self : AWoL_MRF) :
  where_eq (new_labels self) (-1) (List.seq 0 (length (new_labels self))) = [] ->
  new_labels (final_labels self) = new_labels self
  /\ labels (final_labels self) = new_labels self.
Proof.
  intros Hnone.
  assert (Heq : assign_mode (fst (mode self)) [] 0 (label_values self)
                  (new_labels self) = new_labels self).
  { apply (List.nth_ext _ _ 0 0); [apply assign_mode_length|].
    rewrite assign_mode_length. intros p Hp.
    apply nth_lookup_Some.
    erewrite assign_mode_lookup by (apply (lookup_nth_lt _ _ 0); exact Hp).
    reflexivity. }
  unfold final_labels. rewrite Hnone. cbn [new_labels labels set_labels set_new_labels].
  now rewrite Heq.
Qed.

(** * The loops end within their rounds *)

Lemma list_remove_length {A} (eqb : A -> A -> bool) (x : A) (l l' : list A) :
  list_remove eqb x l = Ok l' -> length l = S (length l').
Proof.
  revert l'; induction l as [|y l IH]; intros l'; simpl; [discriminate|].
  destruct (eqb x y); [now intros [= <-]|].
  intros H. apply bind_Ok_inv in H as (l'' & Hl & [= <-]).
  simpl. f_equal. now apply IH.
Qed.

(** The walk of [get_mst_sequence] takes one edge off per round: more
    rounds than edges change nothing. *)
Lemma mst_walk_rounds (mst : list (list float)) (rounds : nat) :
  forall edges seq nextedge,
  (length edges <= rounds)%nat ->
  mst_walk rounds mst edges seq nextedge
  = mst_walk (length edges) mst edges seq nextedge.
Proof.
  induction rounds as [|rounds IH]; intros [|e edges] seq0 nextedge Hlen;
    simpl in Hlen; try reflexivity; [lia|].
  cbn [mst_walk length].
  destruct (snd (find_nextedge mst seq0 (e :: edges) _ nextedge))
    as [next|]; [|reflexivity].
  destruct (list_remove edge_eqb next (e :: edges)) as [edges'|] eqn:Hrem;
    [|reflexivity].
  apply list_remove_length in Hrem. simpl in Hrem.
  cbn [mbind result_bind].
  rewrite IH by lia.
  replace (length edges) with (length edges') by lia. reflexivity.
Qed.

Lemma update_label_count_seeds (self self' : AWoL_MRF) (lcv : nat) (new_label : Z) :
  update_label_count self lcv new_label = Ok self' -> seeds self' = seeds self.
Proof.
  unfold update_label_count. intros H.
  apply bind_Ok_inv in H as (k & _ & [= <-]). reflexivity.
Qed.

Lemma mrf_loop_seeds (np_log : float -> float) (seq0 : list nat) :
  forall self self' new_label,
  mrf_loop np_log self new_label seq0 = Ok self' -> seeds self' = seeds self.
Proof.
  induction seq0 as [|lcv seq0 IH]; intros self self' new_label; simpl.
  - now intros [= <-].
  - intros H. apply bind_Ok_inv in H as ([self1 label1] & Hvisit & H).
    apply IH in H. rewrite H. unfold mrf_visit in Hvisit.
    destruct (snd (select_label _ _ _ _ _ _)) as [label|]; [|discriminate].
    apply bind_Ok_inv in Hvisit as (self2 & Hupd & [= <- _]).
    now apply update_label_count_seeds in Hupd.
Qed.

Lemma mrf_potentials_seeds (np_log : float -> float) (self self' : AWoL_MRF) :
  mrf_potentials np_log self = Ok self' -> seeds self' = seeds self.
Proof.
  unfold mrf_potentials. intros H.
  apply bind_Ok_inv in H as (self1 & Hloop & [= <-]).
  apply mrf_loop_seeds in Hloop. exact Hloop.
Qed.

Lemma get_mst_sequence_seeds minimum_spanning_tree (self self' : AWoL_MRF) :
  get_mst_sequence minimum_spanning_tree self = Ok self' ->
  length (seeds self) = S (length (seeds self')).
Proof.
  unfold get_mst_sequence. destruct (seeds self) as [|seed seeds']; [discriminate|].
  intros H. apply bind_Ok_inv in H as (start & _ & H).
  apply bind_Ok_inv in H as (seq0 & _ & [= <-]). reflexivity.
Qed.

Lemma get_patch_seeds np_mean np_std (self self' : AWoL_MRF) :
  get_patch np_mean np_std self = Ok self' ->
  if do_walk self' then seeds self' = seeds self
  else length (seeds self) = S (length (seeds self')).
Proof.
  unfold get_patch. destruct (patches self) as [|patch patches']; [discriminate|].
  destruct (0 <? length _)%nat.
  - intros [= <-]. reflexivity.
  - cbn [seeds set_do_walk]. destruct (seeds self) as [|seed seeds'];
      [discriminate|].
    intros [= <-]. reflexivity.
Qed.

(** Every round of the loop of [run] takes one seed off the queue: within
    as many rounds as there are seeds the queue is empty. *)
Lemma seed_loop_empties np_log np_mean np_std minimum_spanning_tree (rounds : nat) :
  forall self self',
  (length (seeds self) <= rounds)%nat ->
  seed_loop np_log np_mean np_std minimum_spanning_tree rounds self = Ok self' ->
  seeds self' = [].
Proof.
  induction rounds as [|rounds IH]; intros self self' Hlen; cbn [seed_loop].
  - destruct (seeds self) as [|seed seeds'] eqn:Hs; [|simpl in Hlen; lia].
    intros [= <-]. exact Hs.
  - destruct (seeds self) as [|seed seeds'] eqn:Hs; [now intros [= <-]|].
    simpl in Hlen. intros H.
    apply bind_Ok_inv in H as (self1 & Hpatch & H).
    apply get_patch_seeds in Hpatch.
    destruct (do_walk self1).
    + apply bind_Ok_inv in H as (self2 & Hmst & H).
      apply bind_Ok_inv in H as (self3 & Hmrf & H).
      apply get_mst_sequence_seeds in Hmst.
      apply mrf_potentials_seeds in Hmrf.
      apply (IH self3); [|assumption].
      rewrite Hmrf. rewrite Hpatch, Hs in Hmst. simpl in Hmst. lia.
    + apply (IH self1); [|assumption].
      rewrite Hs in Hpatch. simpl in Hpatch. lia.
Qed.

(** * The walk over a spanning tree *)

Lemma edge_eqb_eq (e f : nat * nat) : edge_eqb e f = true <-> e = f.
Proof.
  unfold edge_eqb. destruct e as [a b], f as [c d]; simpl.
  rewrite andb_true_iff, !Nat.eqb_eq. split; [intros [-> ->]|intros [= -> ->]]; auto.
Qed.

Lemma list_remove_edge (e : nat * nat) (l : list (nat * nat)) :
  In e l -> List.NoDup l ->
  exists l', list_remove edge_eqb e l = Ok l'
             /\ List.NoDup l' /\ length l = S (length l')
             /\ forall x, In x l' <-> In x l /\ x <> e.
Proof.
  induction l as [|y l IH]; simpl; [easy|]. intros Hin Hnd.
  inversion Hnd as [|? ? Hy Hl]; subst.
  destruct (edge_eqb e y) eqn:Hey.
  - apply edge_eqb_eq in Hey. subst y. exists l.
    repeat split; auto.
    + intros ->. contradiction.
    + intros [[<-|Hx] Hne]; [congruence|assumption].
  - assert (Hne : e <> y) by (intros ->; rewrite (proj2 (edge_eqb_eq y y) eq_refl) in Hey; discriminate).
    destruct IH as (l' & -> & Hnd' & Hlen & Hl'); [destruct Hin; congruence|assumption|].
    exists (y :: l'). cbn [mbind result_bind]. split; [reflexivity|].
    split; [constructor; [rewrite Hl'; tauto|assumption]|].
    split; [simpl; lia|].
    intros x. simpl. rewrite Hl'. split.
    + intros [<-|[Hx Hxe]]; auto.
    + intros [[<-|Hx] Hxe]; auto.
Qed.

Lemma exists_min {A} (f : A -> nat) (l : list A) :
  l <> [] -> exists x, In x l /\ forall y, In y l -> (f x <= f y)%nat.
Proof.
  induction l as [|a l IH]; [congruence|]. intros _.
  destruct l as [|b l].
  - exists a. split; [simpl; auto|]. intros y [<-|[]]. lia.
  - destruct IH as (x & Hx & Hmin); [discriminate|].
    destruct (Nat.le_gt_cases (f a) (f x)).
    + exists a. split; [simpl; auto|].
      intros y [<-|Hy]; [lia|]. specialize (Hmin y Hy). lia.
    + exists x. split; [simpl; auto|].
      intros y [<-|Hy]; [lia|]. auto.
Qed.

(** The [for] loop of lines 243-246 ends with the edge it started with, or
    with an edge of the list that touches the sequence. *)
Lemma find_nextedge_result (mst : list (list float)) (seq0 : list nat) :
  forall edges mincost nextedge,
  snd (find_nextedge mst seq0 edges mincost nextedge) = nextedge
  \/ exists e, snd (find_nextedge mst seq0 edges mincost nextedge) = Some e
               /\ In e edges
               /\ mem (fst e) seq0 || mem (snd e) seq0 = true.
Proof.
  induction edges as [|e1 edges IH]; intros mincost nextedge; cbn [find_nextedge].
  - left. reflexivity.
  - destruct (mem (fst e1) seq0 || mem (snd e1) seq0) eqn:Hel; cbn [andb].
    + destruct (entry mst e1 <? mincost)%float.
      * right. destruct (IH (entry mst e1) (Some e1)) as [->|(e & -> & He & Hm)].
        -- exists e1. simpl. auto.
        -- exists e. simpl. auto.
      * destruct (IH mincost nextedge) as [->|(e & -> & He & Hm)]; [auto|].
        right. exists e. simpl. auto.
    + destruct (IH mincost nextedge) as [->|(e & -> & He & Hm)]; [auto|].
      right. exists e. simpl. auto.
Qed.

Lemma find_nextedge_fresh (mst : list (list float)) (seq0 : list nat) :
  forall edges mincost nextedge e0,
  In e0 edges ->
  mem (fst e0) seq0 || mem (snd e0) seq0 = true ->
  (entry mst e0 <? mincost)%float = true ->
  exists e, snd (find_nextedge mst seq0 edges mincost nextedge) = Some e
            /\ In e edges
            /\ mem (fst e) seq0 || mem (snd e) seq0 = true.
Proof.
  induction edges as [|e1 edges IH]; intros mincost nextedge e0 Hin Hel Hw;
    [destruct Hin|]. cbn [find_nextedge].
  destruct ((mem (fst e1) seq0 || mem (snd e1) seq0)
            && (entry mst e1 <? mincost)%float) eqn:Hc.
  - apply andb_true_iff in Hc as [Hel1 _].
    destruct (find_nextedge_result mst seq0 edges (entry mst e1) (Some e1))
      as [->|(e & -> & He & Hm)].
    + exists e1. simpl. auto.
    + exists e. simpl. auto.
  - destruct Hin as [->|Hin]; [rewrite Hel, Hw in Hc; discriminate|].
    destruct (IH mincost nextedge e0 Hin Hel Hw) as (e & -> & He & Hm).
    exists e. simpl. auto.
Qed.

Lemma mst_walk_cons (rounds : nat) (mst : list (list float))
    (rest : list (nat * nat)) (seq0 : list nat) (nextedge : option (nat * nat)) :
  rest <> [] ->
  mst_walk (S rounds) mst rest seq0 nextedge
  = match snd (find_nextedge mst seq0 rest (np_amax_float mst + 1)%float nextedge) with
    | None => Raise UnboundLocalError
    | Some e =>
        rest' ← list_remove edge_eqb e rest;
        mst_walk rounds mst rest'
          (if mem (fst e) seq0 then seq0 ++ [snd e] else seq0 ++ [fst e]) (Some e)
    end.
Proof. destruct rest; [congruence|reflexivity]. Qed.

Section TreeWalk.
Variables (n root : nat) (edges : list (nat * nat)).
Variables (child : nat * nat -> nat) (depth : nat -> nat).
Variable mst : list (list float).
Hypothesis tree : rooted_tree n root edges child depth.
Hypothesis weights :
  forall e, In e edges -> (entry mst e <? np_amax_float mst + 1)%float = true.

Lemma parent_end (e : nat * nat) :
  In e edges ->
  (child e = fst e /\ parent child e = snd e)
  \/ (child e = snd e /\ parent child e = fst e).
Proof using tree.
  intros He. unfold parent. pose proof (rt_depth _ _ _ _ _ tree e He) as Hd.
  unfold parent in Hd.
  destruct (Nat.eqb_spec (child e) (fst e)) as [Heq|Hne]; [auto|].
  destruct (rt_child _ _ _ _ _ tree e He); [contradiction|auto].
Qed.

Lemma walking_next (rest : list (nat * nat)) (seq0 : list nat) :
  walking n root edges child rest seq0 -> rest <> [] ->
  exists e, In e rest /\ In (parent child e) seq0.
Proof using tree.
  intros (Hnd & Hroot & Hlt & Hndr & Hrest & Hclosed) Hne.
  destruct (exists_min (fun e => depth (child e)) rest Hne) as (e & He & Hmin).
  exists e. split; [assumption|].
  destruct (List.in_dec Nat.eq_dec (parent child e) seq0) as [Hin|Hout];
    [assumption|exfalso].
  apply Hrest in He as [He Hc].
  assert (Hp : (parent child e < n)%nat).
  { destruct (rt_range _ _ _ _ _ tree e He).
    destruct (parent_end e He) as [[_ ->]|[_ ->]]; assumption. }
  assert (Hpr : parent child e <> root) by (intros Heq; rewrite Heq in Hout; auto).
  destruct (rt_cover _ _ _ _ _ tree _ Hp Hpr) as (e' & He' & Hc').
  assert (Hr' : In e' rest) by (apply Hrest; split; [assumption|now rewrite Hc']).
  specialize (Hmin e' Hr'). cbv beta in Hmin. rewrite Hc' in Hmin.
  pose proof (rt_depth _ _ _ _ _ tree e He). lia.
Qed.

Lemma walking_step (rest rest' : list (nat * nat)) (seq0 : list nat) (e : nat * nat) :
  walking n root edges child rest seq0 -> In e rest ->
  mem (fst e) seq0 || mem (snd e) seq0 = true ->
  (forall x, In x rest' <-> In x rest /\ x <> e) -> List.NoDup rest' ->
  (if mem (fst e) seq0 then seq0 ++ [snd e] else seq0 ++ [fst e])
  = seq0 ++ [child e]
  /\ walking n root edges child rest' (seq0 ++ [child e]).
Proof using tree.
  intros (Hnd & Hroot & Hlt & Hndr & Hrest & Hclosed) He Hel Hrest' Hndr'.
  apply Hrest in He as [He Hc].
  assert (Hpar : In (parent child e) seq0).
  { apply orb_true_iff in Hel. rewrite !mem_In in Hel.
    destruct (parent_end e He) as [[Hce ->]|[Hce ->]]; rewrite Hce in Hc; tauto. }
  split.
  - destruct (mem (fst e) seq0) eqn:Hm.
    + apply mem_In in Hm.
      destruct (parent_end e He) as [[Hce _]|[-> _]]; [|reflexivity].
      rewrite Hce in Hc. contradiction.
    + destruct (parent_end e He) as [[-> _]|[Hce Hp]]; [reflexivity|].
      rewrite Hp in Hpar. apply mem_In in Hpar. congruence.
  - split; [|split; [|split; [|split; [|split]]]].
    + apply List.NoDup_app; [assumption| |].
      * repeat constructor. simpl. tauto.
      * intros v Hv [<-|[]]. contradiction.
    + apply in_or_app. auto.
    + intros v Hv. apply in_app_or in Hv as [Hv|[<-|[]]]; [auto|].
      destruct (rt_range _ _ _ _ _ tree e He).
      destruct (rt_child _ _ _ _ _ tree e He) as [->| ->]; assumption.
    + assumption.
    + intros x. split.
      * intros Hx. apply Hrest' in Hx as [Hx Hxe]. apply Hrest in Hx as [Hx Hxc].
        split; [assumption|]. intros Hin.
        apply in_app_or in Hin as [Hin|[Heq|[]]]; [contradiction|].
        apply Hxe. symmetry. now apply (rt_inj _ _ _ _ _ tree).
      * intros [Hx Hxc]. apply Hrest'. split.
        -- apply Hrest. split; [assumption|].
           intros Hin. apply Hxc, in_or_app. auto.
        -- intros ->. apply Hxc, in_or_app. simpl. auto.
    + intros x Hx Hin. apply in_or_app. left.
      apply in_app_or in Hin as [Hin|[Heq|[]]]; [auto|].
      assert (x = e) by (symmetry; now apply (rt_inj _ _ _ _ _ tree)).
      now subst x.
Qed.

(** Over a tree the walk of lines 241-253 raises nothing and visits every
    node once. *)
Lemma mst_walk_tree (rounds : nat) :
  forall rest seq0 nextedge,
  walking n root edges child rest seq0 -> (length rest <= rounds)%nat ->
  exists seq', mst_walk rounds mst rest seq0 nextedge = Ok seq'
               /\ List.NoDup seq'
               /\ (forall v, In v seq' <-> (v < n)%nat)
               /\ exists more, seq' = seq0 ++ more.
Proof using tree weights.
  induction rounds as [|rounds IH]; intros rest seq0 nextedge Hwalk Hlen.
  - destruct rest as [|e rest]; [|simpl in Hlen; lia].
    exists seq0. cbn [mst_walk].
    destruct Hwalk as (Hnd & Hroot & Hlt & Hndr & Hrest & Hclosed).
    repeat split; auto.
    + intros Hv. destruct (Nat.eq_dec v root) as [->|Hne]; [assumption|].
      destruct (rt_cover _ _ _ _ _ tree v Hv Hne) as (e & He & <-).
      destruct (List.in_dec Nat.eq_dec (child e) seq0) as [Hin|Hout];
        [assumption|].
      destruct (proj2 (Hrest e) (conj He Hout)).
    + exists []. now rewrite app_nil_r.
  - assert (Hdec : rest = [] \/ rest <> [])
      by (destruct rest; [left|right]; congruence).
    destruct Hdec as [->|Hne].
    + exists seq0. cbn [mst_walk].
      destruct Hwalk as (Hnd & Hroot & Hlt & Hndr & Hrest & Hclosed).
      repeat split; auto.
      * intros Hv. destruct (Nat.eq_dec v root) as [->|Hne]; [assumption|].
        destruct (rt_cover _ _ _ _ _ tree v Hv Hne) as (e & He & <-).
        destruct (List.in_dec Nat.eq_dec (child e) seq0) as [Hin|Hout];
          [assumption|].
        destruct (proj2 (Hrest e) (conj He Hout)).
      * exists []. now rewrite app_nil_r.
    + rewrite mst_walk_cons by assumption.
      destruct (walking_next rest seq0 Hwalk Hne) as (e0 & He0 & Hp0).
      assert (He0' : In e0 edges) by (now apply Hwalk in He0).
      assert (Hel0 : mem (fst e0) seq0 || mem (snd e0) seq0 = true).
      { apply orb_true_iff. rewrite !mem_In.
        destruct (parent_end e0 He0') as [[_ Hp]|[_ Hp]]; rewrite Hp in Hp0; auto. }
      destruct (find_nextedge_fresh mst seq0 rest (np_amax_float mst + 1)%float
                  nextedge e0 He0 Hel0 (weights e0 He0'))
        as (e & -> & He & Hel).
      destruct (list_remove_edge e rest He) as (rest' & -> & Hnd' & Hlen' & Hrest');
        [apply Hwalk|].
      cbn [mbind result_bind].
      destruct (walking_step rest rest' seq0 e Hwalk He Hel Hrest' Hnd')
        as [-> Hwalk'].
      destruct (IH rest' (seq0 ++ [child e]) (Some e) Hwalk')
        as (seq' & -> & Hnds & Hall & more & ->); [lia|].
      exists ((seq0 ++ [child e]) ++ more). repeat split; auto; try apply Hall.
      exists ([child e] ++ more). now rewrite app_assoc.
Qed.
End TreeWalk.

Lemma index_of_nth (x : nat) (a : list nat) (i : nat) :
  index_of x a = Ok i -> (i < length a)%nat /\ nth i a 0%nat = x.
Proof.
  revert i; induction a as [|y a IH]; intros i; simpl; [discriminate|].
  destruct (Nat.eqb_spec x y) as [->|Hne].
  - intros [= <-]. split; [lia|reflexivity].
  - intros H. apply bind_Ok_inv in H as (i' & Hi' & [= <-]).
    apply IH in Hi' as [? ?]. split; [lia|assumption].
Qed.

Lemma map_nth_seq (l : list nat) :
  map (fun i => nth i l 0%nat) (List.seq 0 (length l)) = l.
Proof.
  apply (List.nth_ext _ _ 0%nat 0%nat); [now rewrite length_map, length_seq|].
  rewrite length_map, length_seq. intros k Hk.
  rewrite (List.nth_indep _ 0%nat (nth 0 l 0%nat))
    by now rewrite length_map, length_seq.
  rewrite (List.map_nth (fun i => nth i l 0%nat)).
  now rewrite List.seq_nth.
Qed.

(** X2. Where the spanning tree is a tree over all the low-confidence voxels
    of the patch, and no weight of it reaches [np.amax(mst) + 1],
    [get_mst_sequence] returns a sequence that starts at the seed and holds
    every voxel of [self.lcvp] once. *)
Theorem mst_sequence_over_tree
    (minimum_spanning_tree : list (list float) -> list (list float))
    (self : AWoL_MRF) (seed : nat) (seeds' : list nat) (start : nat)
    (child : nat * nat -> nat) (depth : nat -> nat) :
  seeds self = seed :: seeds' ->
  index_of seed (lcvp self) = Ok start ->
  rooted_tree (length (lcvp self)) start
    (argwhere (minimum_spanning_tree (weight_matrix self))) child depth ->
  (forall e, In e (argwhere (minimum_spanning_tree (weight_matrix self))) ->
     (entry (minimum_spanning_tree (weight_matrix self)) e
      <? np_amax_float (minimum_spanning_tree (weight_matrix self)) + 1)%float
     = true) ->
  exists self',
    get_mst_sequence minimum_spanning_tree self = Ok self'
    /\ Permutation (seq self') (lcvp self)
    /\ hd_error (seq self') = Some seed
    /\ seeds self' = seeds'.
Proof.
  intros Hseeds Hstart Htree Hweights.
  set (mst := minimum_spanning_tree (weight_matrix self)) in *.
  assert (Hwalk : walking (length (lcvp self)) start (argwhere mst) child
                    (argwhere mst) [start]).
  { split; [repeat constructor; simpl; tauto|].
    split; [simpl; auto|].
    split; [intros v [<-|[]]; apply (rt_root _ _ _ _ _ Htree)|].
    split; [apply (rt_NoDup _ _ _ _ _ Htree)|].
    split.
    - intros e. split; [|tauto]. intros He. split; [assumption|].
      intros [Heq|[]]. symmetry in Heq. now apply (rt_not_root _ _ _ _ _ Htree e).
    - intros e He [Heq|[]]. symmetry in Heq.
      now apply (rt_not_root _ _ _ _ _ Htree e) in Heq. }
  destruct (mst_walk_tree _ _ _ _ _ mst Htree Hweights (length (argwhere mst))
              (argwhere mst) [start] None Hwalk (Nat.le_refl _))
    as (seq' & Hseq & Hnd & Hall & more & Hmore).
  unfold get_mst_sequence. fold mst. rewrite Hseeds, Hstart.
  cbn [mbind result_bind]. rewrite Hseq. cbn [mbind result_bind].
  eexists. split; [reflexivity|]. cbn [seq seeds set_seeds set_seq lcvp].
  split; [|split; [|reflexivity]].
  - apply (Permutation_trans
             (l' := map (fun i => nth i (lcvp self) 0%nat)
                      (List.seq 0 (length (lcvp self)))));
      [|now rewrite map_nth_seq].
    apply Permutation_map. apply Permutation.NoDup_Permutation;
      [assumption|apply List.seq_NoDup|].
    intros v. rewrite Hall, List.in_seq. lia.
  - rewrite Hmore. simpl. f_equal. now apply index_of_nth in Hstart.
Qed.

(** * The examples, step by step *)

Lemma row4_init :
  __init__ row4_imgs row4_brain (1, 1, 4)%nat (-0.2)%float 0 1 true [0.2; 0.2]%float
  = Ok (row4, [0.2; 0.2]%float).
Proof. vm_compute. reflexivity. Qed.

Lemma row4_votes :
  collect_votes row4_imgs = Ok ([0; 1], [[2; 1; 1; 0]; [0; 1; 1; 2]]%nat).
Proof. vm_compute. reflexivity. Qed.

Lemma row4_find_lcv : find_lcv row4 = Ok row4_found.
Proof. vm_compute. reflexivity. Qed.

Lemma row4_find_seeds : find_seeds row4_found = row4_seeded.
Proof. vm_compute. reflexivity. Qed.

Lemma row4_get_patch (np_mean np_std : list float -> float) :
  get_patch np_mean np_std row4_seeded = Ok row4_patch.
Proof. vm_compute. reflexivity. Qed.

Lemma row4_first_vote : update_label_count row4_found 1 0 = Ok row4_voted.
Proof. vm_compute. reflexivity. Qed.

Lemma row6_init :
  __init__ row6_imgs row6_brain (1, 1, 6)%nat (-0.2)%float 0 3 true [0.2; 0.2]%float
  = Ok (row6, [0.2; 0.2]%float).
Proof. vm_compute. reflexivity. Qed.

Lemma row6_get_patch :
  (self ← find_lcv row6; get_patch mean_seq std_seq (find_seeds self))
  = Ok row6_patch.
Proof. vm_compute. reflexivity. Qed.

Lemma row6_run :
  run log_tangent mean_seq std_seq kruskal row6 = Ok [0; 0; 0; 0; 1; 1].
Proof. vm_compute. reflexivity. Qed.

Lemma row5_init :
  __init__ row5_imgs row5_brain (1, 1, 5)%nat (-0.2)%float 0 2 true [0.2; 0.2]%float
  = Ok (row5, [0.2; 0.2]%float).
Proof. vm_compute. reflexivity. Qed.

Lemma row5_get_mst_sequence :
  (self ← find_lcv row5;
   self ← get_patch mean_seq std_seq (find_seeds self);
   get_mst_sequence kruskal self)
  = Ok row5_walk.
Proof. vm_compute. reflexivity. Qed.

Lemma row2_init :
  __init__ row2_imgs [7; 9]%float (1, 1, 2)%nat (-0.2)%float 10 5 true [0.2; 0.2]%float
  = Ok (row2, [0.2; 0.2]%float).
Proof. vm_compute. reflexivity. Qed.

(** * The properties on the examples *)

(** The votes of voxel 1 of the four-voxel row. *)
Lemma votes_sum_to_nimg_witness :
  vote_sum [[2; 1; 1; 0]; [0; 1; 1; 2]]%nat 1 = length row4_imgs.
Proof.
  apply (votes_sum_to_nimg row4_imgs [0; 1] _ 1 row4_votes).
  - repeat constructor.
  - simpl. lia.
Defined.

(** Voxel 1 of the four-voxel row: two labels with one vote each, below
    [(1/2 + 0.2) * 2], and so the sentinel. *)
Lemma confidence_volume_iff_witness :
  let lv := label_values row4 in
  let n := candidate_labels row4_imgs 1 in
  let enough k :=
    ((1 / float_of_nat n + nth k [0.2; 0.2] 0) * float_of_nat (length row4_imgs)
       <=? float_of_nat (votes_for row4_imgs (nth k lv 0%Z) 1))%float = true in
  (exists m, plurality row4_imgs lv 1 m)
  /\ (forall k, (k < length lv)%nat ->
        nth 1 (labels row4) 0 = nth k lv 0
        <-> plurality row4_imgs lv 1 k /\ (n = 1%nat \/ enough k))
  /\ (nth 1 (labels row4) 0 = -1
      <-> forall k, plurality row4_imgs lv 1 k -> ~ (n = 1%nat \/ enough k))
  /\ (n = 1%nat -> nth 1 (labels row4) 0 <> -1).
Proof.
  apply (confidence_volume_iff row4_imgs row4_brain (1, 1, 4)%nat (-0.2)%float
           0 1 true [0.2; 0.2]%float row4 [0.2; 0.2]%float 1 row4_init).
  - repeat constructor.
  - repeat constructor; lia.
  - simpl. lia.
Defined.

(** C2 fails as stated: of twenty-five candidates fourteen give voxel 0 the
    label 0 and eleven the label 1, with a threshold of 0.06.  The count 14
    reaches [(1/2 + 0.06) * 25], yet in binary64 [1/2 + 0.06] rounds up and
    the product is above 14: the constructor leaves the sentinel. *)
Lemma exact_bound_not_enough :
  __init__ vote25_imgs [50; 50]%float (1, 1, 2)%nat (-0.2)%float 0 1 true
    [0.06; 0.06]%float
  = Ok (vote25, [0.06; 0.06]%float)
  /\ ~ exact_threshold_rule vote25_imgs [0.06; 0.06]%float vote25 0.
Proof.
  split; [vm_compute; reflexivity|].
  intros H. specialize (H 0%nat).
  assert (Habs : nth 0 (labels vote25) 0 = nth 0 (label_values vote25) 0);
    [|discriminate].
  apply H.
  - split; [simpl; lia|]. split.
    + intros [|[|j]] Hj; [vm_compute; lia..|simpl in Hj; lia].
    + intros j Hj. lia.
  - vm_compute. discriminate.
Qed.

(** C9 fails as stated: an empty threshold list with [same_threshold] makes
    the constructor raise ([thresholds[-1]] of line 80), and is none of the
    listed inputs. *)
Lemma empty_thresholds_raise :
  ~ (raises (__init__ row4_imgs row4_brain (1, 1, 4)%nat (-0.2)%float 0 1 true [])
     <-> invalid_inputs [0; 0; 1; 1] [[0; 1; 0; 1]] 0 1 true []).
Proof.
  intros [Hraise _].
  assert (Hr : raises (__init__ row4_imgs row4_brain (1, 1, 4)%nat
                         (-0.2)%float 0 1 true []))
    by (vm_compute; exact I).
  destruct (Hraise Hr) as [H|[H|[H|[H|[_ H]]]]]; try lia; try discriminate.
  - inversion H.
  - inversion H as [? ? Hd|? ? Hd]; [apply Hd; reflexivity|inversion Hd].
Qed.

(** One threshold for the two labels of the four-voxel row. *)
Lemma init_raises_iff_witness :
  let overflow :=
    Exists (fun v => v < -32768 \/ 32767 < v) (np_unique [0; 0; 1; 1]) in
  (raises (__init__ ([0; 0; 1; 1] :: [[0; 1; 0; 1]]) row4_brain (1, 1, 4)%nat
             (-0.2)%float 0 1 true [0.2]%float)
   <-> invalid_inputs [0; 0; 1; 1] [[0; 1; 0; 1]] 0 1 true [0.2]%float
       \/ ([0.2]%float = [] /\ true = true) \/ overflow)
  /\ (forall t, true = true -> last [0.2]%float = Some t ->
        (length [0.2]%float < length (np_unique [0; 0; 1; 1]%Z))%nat ->
        ~ invalid_inputs [0; 0; 1; 1] [[0; 1; 0; 1]] 0 1 true [0.2]%float ->
        ~ overflow ->
        exists self,
          __init__ ([0; 0; 1; 1] :: [[0; 1; 0; 1]]) row4_brain (1, 1, 4)%nat
            (-0.2)%float 0 1 true [0.2]%float
          = Ok (self, [0.2]%float
                      ++ repeat t (length (np_unique [0; 0; 1; 1]%Z)
                                   - length [0.2]%float))).
Proof.
  apply (init_raises_iff [0; 0; 1; 1] [[0; 1; 0; 1]] row4_brain (1, 1, 4)%nat
           (-0.2)%float 0 1 true [0.2]%float).
  - discriminate.
  - repeat constructor.
Defined.


(** C4 fails as stated: voxel 1 of the four-voxel row has one vote for
    label 0; a vote for label 1 ties the tally, and the working label stays
    0, the label of [np.argmax]. *)
Lemma tie_keeps_first_label : ~ latest_vote_breaks_ties row4_voted 1 1.
Proof.
  intros H.
  assert (Hupd : update_label_count row4_voted 1 1
                 = Ok (set_new_labels [0; 0; -1; 1]
                         (set_label_count [[0; 0]; [1; 1]; [0; 0]; [0; 0]]
                            row4_voted)))
    by (vm_compute; reflexivity).
  specialize (H _ 1%nat Hupd eq_refl). cbn in H.
  assert (Habs : 0 = 1); [|discriminate].
  apply H. intros [|[|j]] Hj; simpl; lia.
Qed.

(** The first vote at voxel 1 of the four-voxel row. *)
Lemma working_label_follows_tally_witness :
  let before := nth 1 (label_count row4_found) [] in
  let tally := nth 1 (label_count row4_voted) [] in
  exists i k,
    index_of_Z 0 (label_values row4_found) = Ok i
    /\ tally = <[i := uint16 (nth i before 0 + 1)]> before
    /\ nth 1 (new_labels row4_voted) 0 = int16 (nth k (label_values row4_found) 0)
    /\ (forall j, (j < length tally)%nat -> nth j tally 0 <= nth k tally 0)
    /\ (forall j, (j < k)%nat -> nth j tally 0 < nth k tally 0)
    /\ (tally <> [] -> (k < length tally)%nat).
Proof.
  apply (working_label_follows_tally row4_found row4_voted 1 0 row4_first_vote);
    simpl; lia.
Defined.

(** ** Energies that are not numbers *)

Lemma add_nan_r (x : float) : (x + nan)%float = nan.
Proof.
  apply Prim2SF_inj. rewrite add_spec.
  change (Prim2SF nan) with S754_nan.
  destruct (Prim2SF x); reflexivity.
Qed.

Lemma add_nan_l (x : float) : (nan + x)%float = nan.
Proof.
  apply Prim2SF_inj. rewrite add_spec.
  change (Prim2SF nan) with S754_nan. reflexivity.
Qed.

(** With a standard deviation of 0 at the mean intensity the energy of line
    273 is [log(0) + 0/0], not a number whatever [np_log] answers. *)
Lemma row5_energy_nan (np_log : float -> float) (stat : Z * (float * float)) :
  In stat (patch_stats row5_walk) -> mrf_total np_log row5_walk 2 stat = nan.
Proof.
  intros [<-|[<-|[]]]; unfold mrf_total, mrf_single;
    cbn [nth intensity row5_walk set_seq set_do_walk set_patch_stats set_lcvp
         set_new_labels set_label_count set_neighbors_small set_lcv row5
         row5_brain];
    change ((50 - 50) * (50 - 50) / (2 * (0 * 0)))%float with nan;
    now rewrite add_nan_r, add_nan_l.
Qed.

Lemma row5_visit_raises (np_log : float -> float) :
  mrf_visit np_log row5_walk None 2 = Raise UnboundLocalError.
Proof.
  unfold mrf_visit.
  change (patch_stats row5_walk)
    with [(1, (50%float, 0%float)); (2, (50%float, 0%float))].
  cbn [select_label].
  rewrite !row5_energy_nan by (simpl; auto).
  reflexivity.
Qed.

(** C1 fails as stated: in the five-voxel row of constant intensity both
    labels of [patch_stats] have a standard deviation of 0, their energies
    at voxel 2 are not numbers, none is below [inf], and the visit ends in
    [UnboundLocalError] without a vote. *)
Lemma constant_intensity_no_vote :
  ~ exists np_log, visit_votes_minimum np_log row5_walk None 2.
Proof.
  intros (np_log & i & stat & Hi & Hvisit & _).
  rewrite row5_visit_raises in Hvisit.
  destruct i as [|[|i]]; cbn in Hi; try discriminate;
    injection Hi as <-; vm_compute in Hvisit; discriminate.
Qed.

(** The visit of voxel 3 in the first patch of the six-voxel row: label 0,
    of energy 182.2, against label 1, of energy 221.8. *)
Lemma visit_selects_minimum_witness :
  visit_votes_minimum log_tangent row6_patch None 3.
Proof.
  destruct (visit_selects_minimum log_tangent row6_patch None 3)
    as (i & value & mean & std & Hi & Hvisit & _ & Hmin & Hfirst).
  - exists (0, (11%float, 1%float)). split; [simpl; auto|]. vm_compute. reflexivity.
  - exists i, (value, (mean, std)). repeat split; assumption.
Defined.

(** The second seed of the four-voxel row, once the walk around the first
    one has resolved both voxels of its patch. *)
Lemma get_patch_skip_witness :
  exists self',
    get_patch mean_seq std_seq row4_resolved = Ok self'
    /\ do_walk self' = false
    /\ patches self' = [] /\ seeds self' = []
    /\ new_labels self' = new_labels row4_resolved
    /\ label_count self' = label_count row4_resolved
    /\ labels self' = labels row4_resolved
    /\ forall rounds,
         seed_loop log_tangent mean_seq std_seq kruskal (S rounds) row4_resolved
         = seed_loop log_tangent mean_seq std_seq kruskal rounds self'.
Proof.
  apply (get_patch_skip log_tangent mean_seq std_seq kruskal row4_resolved
           [0; 1; 2]%nat [] 1%nat []); reflexivity.
Defined.

(** Two candidates that agree everywhere. *)
Lemma run_majority_vote_witness :
  run log_tangent mean_seq std_seq kruskal row2 = Ok (majority_vote row2).
Proof.
  apply (run_majority_vote log_tangent mean_seq std_seq kruskal
           _ _ _ _ _ _ _ _ row2 _ row2_init).
  - repeat constructor; lia.
  - intros self1 Hfind. vm_compute in Hfind. injection Hfind as <-.
    left. reflexivity.
Defined.

(** ** Patches the walk does not cover *)

Lemma in_nil_all {A} (l : list A) : (forall x, In x l -> False) -> l = [].
Proof.
  destruct l as [|x l]; [reflexivity|]. intros H. destruct (H x). simpl; auto.
Qed.

(** C3, at a failing input. In the first patch of the six-voxel row the
    voxels 2 and 3 still hold the sentinel; they are direct neighbours of one
    intensity, the weight between them is 0, which [argwhere] and the
    spanning tree read as no edge, and the sequence is the seed alone. *)
Theorem row6_sequence_omits_voxel
    (minimum_spanning_tree : list (list float) -> list (list float)) :
  keeps_edges minimum_spanning_tree (weight_matrix row6_patch) ->
  where_eq (new_labels row6_patch) (-1) [0; 1; 2; 3; 4; 5]%nat = [2; 3]%nat
  /\ weight_matrix row6_patch = [[0; 0]; [0; 0]]%float
  /\ exists self',
       get_mst_sequence minimum_spanning_tree row6_patch = Ok self'
       /\ seq self' = [3]%nat.
Proof.
  intros Hkeeps. split; [reflexivity|]. split; [reflexivity|].
  assert (Hedges : argwhere (minimum_spanning_tree (weight_matrix row6_patch)) = []).
  { apply in_nil_all. intros e He. apply Hkeeps in He. exact He. }
  unfold get_mst_sequence. rewrite Hedges.
  eexists. split; [reflexivity|]. reflexivity.
Qed.

Lemma row6_sequence_omits_voxel_witness :
  where_eq (new_labels row6_patch) (-1) [0; 1; 2; 3; 4; 5]%nat = [2; 3]%nat
  /\ weight_matrix row6_patch = [[0; 0]; [0; 0]]%float
  /\ exists self',
       get_mst_sequence kruskal row6_patch = Ok self' /\ seq self' = [3]%nat.
Proof.
  apply (row6_sequence_omits_voxel kruskal).
  intros e He. vm_compute in He. exact He.
Defined.

(** ** Walks without a candidate label *)

Lemma mrf_potentials_no_stats (np_log : float -> float) (self : AWoL_MRF) :
  patch_stats self = [] -> seq self <> [] ->
  mrf_potentials np_log self = Raise UnboundLocalError.
Proof.
  intros Hstats Hseq. unfold mrf_potentials.
  destruct (seq self) as [|lcv rest]; [congruence|].
  cbn [mrf_loop]. unfold mrf_visit. rewrite Hstats. reflexivity.
Qed.

(** C10, at a failing input. The patch of the first seed of the four-voxel
    row holds voxel 1, voxel 2 and one resolved voxel: [get_patch] asks for a
    walk, [patch_stats] is empty, and the first visit of the walk ends [run]
    in [UnboundLocalError]. *)
Theorem row4_walk_without_stats (np_log : float -> float)
    (np_mean np_std : list float -> float) :
  (exists self',
     get_patch np_mean np_std row4_seeded = Ok self'
     /\ do_walk self' = true /\ patch_stats self' = []
     /\ where_eq (new_labels self') (-1) [1; 2; 3]%nat = [1; 2]%nat)
  /\ run np_log np_mean np_std kruskal row4 = Raise UnboundLocalError.
Proof.
  split.
  - exists row4_patch. split; [apply row4_get_patch|]. repeat split.
  - vm_compute. reflexivity.
Qed.

(** The six-voxel row once [run] has resolved it. *)
Lemma final_labels_resolved_witness :
  new_labels (final_labels (set_new_labels [0; 0; 0; 0; 1; 1] row6))
  = new_labels (set_new_labels [0; 0; 0; 0; 1; 1] row6)
  /\ labels (final_labels (set_new_labels [0; 0; 0; 0; 1; 1] row6))
     = new_labels (set_new_labels [0; 0; 0; 0; 1; 1] row6).
Proof.
  apply (final_labels_resolved (set_new_labels [0; 0; 0; 0; 1; 1] row6)).
  reflexivity.
Defined.

(** The first patch of the six-voxel row with intensities 30 and 31 at the
    voxels 2 and 3: one edge, of weight 1, from node 1 (the seed) to node 0. *)
Lemma mst_sequence_over_tree_witness :
  exists self',
    get_mst_sequence kruskal row6_graded = Ok self'
    /\ Permutation (seq self') (lcvp row6_graded)
    /\ hd_error (seq self') = Some 3%nat
    /\ seeds self' = [2]%nat.
Proof.
  apply (mst_sequence_over_tree kruskal row6_graded 3 [2]%nat 1
           fst (fun v => if (v =? 1)%nat then 0%nat else 1%nat)).
  - reflexivity.
  - reflexivity.
  - change (argwhere (kruskal (weight_matrix row6_graded))) with [(0, 1)%nat].
    split.
    + repeat constructor. simpl. tauto.
    + simpl. lia.
    + intros e [<-|[]]. simpl. lia.
    + intros e [<-|[]]. simpl. auto.
    + intros e [<-|[]]. simpl. lia.
    + intros e e' [<-|[]] [<-|[]] _. reflexivity.
    + intros e [<-|[]]. simpl. lia.
    + intros v Hv Hne. exists (0, 1)%nat. simpl in *. split; [auto|lia].
  - change (argwhere (kruskal (weight_matrix row6_graded))) with [(0, 1)%nat].
    intros e [<-|[]]. vm_compute. reflexivity.
Defined.

(** * The loop of [run], round by round *)

Lemma index_of_Z_In (x : Z) (a : list Z) :
  In x a -> exists i, index_of_Z x a = Ok i.
Proof.
  induction a as [|y a IH]; simpl; [tauto|].
  intros H. destruct (Z.eqb_spec x y) as [->|Hne]; [now exists 0%nat|].
  destruct H as [->|H]; [congruence|].
  destruct (IH H) as (i & ->). now exists (S i).
Qed.

Lemma index_of_In (x : nat) (a : list nat) :
  In x a -> exists i, index_of x a = Ok i.
Proof.
  induction a as [|y a IH]; simpl; [tauto|].
  intros H. destruct (Nat.eqb_spec x y) as [->|Hne]; [now exists 0%nat|].
  destruct H as [->|H]; [congruence|].
  destruct (IH H) as (i & ->). now exists (S i).
Qed.

(** One vote: what [update_label_count] writes, and where. *)
Lemma update_label_count_eq (self self' : AWoL_MRF) (lcv : nat) (new_label : Z) :
  update_label_count self lcv new_label = Ok self' ->
  exists k,
    index_of_Z new_label (label_values self) = Ok k
    /\ let row := <[k := uint16 (nth k (nth lcv (label_count self) []) 0 + 1)]>
                    (nth lcv (label_count self) []) in
       self' = set_new_labels
                 (<[lcv := int16 (nth (np_argmax row) (label_values self) 0)]>
                    (new_labels self))
                 (set_label_count (<[lcv := row]> (label_count self)) self).
Proof.
  unfold update_label_count. intros H.
  apply bind_Ok_inv in H as (k & Hk & [= <-]). now exists k.
Qed.

(** The label the scan of lines 271-278 ends with is a key of [patch_stats],
    or the label the visit started with. *)
Lemma select_label_In (np_log : float -> float) (self : AWoL_MRF) (lcv : nat)
    (stats : list (Z * (float * float))) :
  forall mrf_energy new_label l,
  snd (select_label np_log self lcv stats mrf_energy new_label) = Some l ->
  In l (map fst stats) \/ new_label = Some l.
Proof.
  induction stats as [|stat stats IH]; intros e nl l; simpl; [auto|].
  destruct (_ <? e)%float; intros H; apply IH in H as [H|H]; auto.
  injection H as <-. auto.
Qed.

(** The keys of [patch_stats]: the label values that two voxels of the patch
    or more hold in the confidence volume, in the order of [label_values]. *)
Lemma patch_stats_loop_keys (np_mean np_std : list float -> float)
    (self : AWoL_MRF) (patch : list nat) (values : list Z) :
  map fst (patch_stats_loop np_mean np_std self patch values)
  = List.filter (fun v => (1 <? length (where_eq (labels self) v patch))%nat) values.
Proof.
  induction values as [|v values IH]; simpl; [reflexivity|].
  rewrite length_map. destruct (1 <? _)%nat; simpl; now rewrite IH.
Qed.

Lemma list_remove_raises {A} (eqb : A -> A -> bool) (x : A) (l : list A) (e : exn) :
  list_remove eqb x l = Raise e -> e = ValueError.
Proof.
  induction l as [|y l IH]; simpl; [now intros [= <-]|].
  destruct (eqb x y); [discriminate|].
  destruct (list_remove eqb x l) as [l'|e']; [discriminate|].
  cbn. intros [= <-]. now apply IH.
Qed.

Lemma list_remove_incl {A} (eqb : A -> A -> bool) (x : A) (l l' : list A) :
  list_remove eqb x l = Ok l' -> forall y, In y l' -> In y l.
Proof.
  revert l'; induction l as [|z l IH]; intros l'; simpl; [discriminate|].
  destruct (eqb x z); [intros [= <-]; auto|].
  intros H. apply bind_Ok_inv in H as (l'' & Hl & [= <-]).
  intros y [<-|Hy]; eauto.
Qed.

Lemma find_nextedge_In (mst : list (list float)) (seq0 : list nat)
    (edges : list (nat * nat)) :
  forall mincost nextedge e,
  snd (find_nextedge mst seq0 edges mincost nextedge) = Some e ->
  In e edges \/ nextedge = Some e.
Proof.
  induction edges as [|f edges IH]; intros mincost nextedge e; simpl; [auto|].
  destruct (_ && _); intros H; apply IH in H as [H|H]; auto.
  injection H as <-. auto.
Qed.

Lemma nth_insert_eq {A} (l : list A) (i : nat) (x d : A) :
  (i < length l)%nat -> nth i (<[i := x]> l) d = x.
Proof.
  intros Hi. rewrite nth_lookup, list_lookup_insert_eq; [reflexivity|assumption].
Qed.

Lemma nth_insert_ne {A} (l : list A) (i j : nat) (x d : A) :
  i <> j -> nth j (<[i := x]> l) d = nth j l d.
Proof.
  intros Hij. now rewrite !nth_lookup, list_lookup_insert_ne.
Qed.

(** The walk of lines 241-253, whatever the matrix: it ends in a sequence
    that extends the one it started with by one node per edge, over the nodes
    the edges name, or in one of the two errors. *)
Lemma mst_walk_general (mst : list (list float)) (P : nat -> Prop) (rounds : nat) :
  forall edges seq0 nextedge,
  (forall v, In v seq0 -> P v) ->
  (forall e, In e edges -> P (fst e) /\ P (snd e)) ->
  (forall e, nextedge = Some e -> P (fst e) /\ P (snd e)) ->
  match mst_walk rounds mst edges seq0 nextedge with
  | Ok seq' =>
      (forall v, In v seq' -> P v)
      /\ exists more, seq' = seq0 ++ more
                      /\ ((length edges <= rounds)%nat -> length more = length edges)
  | Raise e => walk_error e
  end.
Proof.
  induction rounds as [|rounds IH]; intros edges seq0 nextedge Hseq Hedges Hnext.
  - destruct edges as [|e edges]; simpl.
    + split; [assumption|]. exists []. now rewrite app_nil_r.
    + split; [assumption|]. exists []. rewrite app_nil_r. split; [reflexivity|lia].
  - destruct edges as [|e0 edges].
    { simpl. split; [assumption|]. exists []. now rewrite app_nil_r. }
    rewrite mst_walk_cons by discriminate.
    destruct (snd (find_nextedge _ _ _ _ _)) as [e|] eqn:Hfind;
      [|now left].
    assert (He : P (fst e) /\ P (snd e)).
    { apply find_nextedge_In in Hfind as [Hin|Heq]; auto. }
    destruct (list_remove edge_eqb e (e0 :: edges)) as [rest|err] eqn:Hrem.
    2:{ cbn. right. now apply list_remove_raises in Hrem. }
    cbn [mbind result_bind].
    set (seq1 := if mem (fst e) seq0 then seq0 ++ [snd e] else seq0 ++ [fst e]).
    assert (Hseq1 : exists v, seq1 = seq0 ++ [v] /\ P v).
    { unfold seq1. destruct (mem (fst e) seq0); eexists; split;
        try reflexivity; tauto. }
    destruct Hseq1 as (v & Hseq1 & Hv).
    specialize (IH rest seq1 (Some e)).
    destruct (mst_walk rounds mst rest seq1 (Some e)) as [seq'|err].
    + destruct IH as (Hrange & more & -> & Hlen).
      * intros u. rewrite Hseq1, List.in_app_iff. simpl.
        intros [Hu|[<-|[]]]; auto.
      * intros f Hf. apply Hedges. eapply list_remove_incl; eassumption.
      * now intros f [= <-].
      * split; [assumption|]. exists (v :: more).
        rewrite Hseq1, <- app_assoc. split; [reflexivity|].
        apply list_remove_length in Hrem. simpl in *. intros Hle.
        rewrite Hlen; lia.
    + apply IH.
      * intros u. rewrite Hseq1, List.in_app_iff. simpl.
        intros [Hu|[<-|[]]]; auto.
      * intros f Hf. apply Hedges. eapply list_remove_incl; eassumption.
      * now intros f [= <-].
Qed.

(** The positions [np.argwhere] returns lie within the matrix. *)
Lemma argwhere_range (m : list (list float)) (e : nat * nat) :
  In e (argwhere m) ->
  (fst e < length m)%nat /\ (snd e < length (nth (fst e) m []))%nat
  /\ (entry m e =? 0)%float = false.
Proof.
  unfold argwhere. rewrite List.in_flat_map. intros (i & Hi & He).
  apply List.in_flat_map in He as (j & Hj & He).
  apply List.in_seq in Hi, Hj.
  destruct (entry m (i, j) =? 0)%float eqn:Hz; [destruct He|].
  destruct He as [<-|[]]. simpl. repeat split; try lia. exact Hz.
Qed.

Lemma weight_matrix_shape (self : AWoL_MRF) :
  length (weight_matrix self) = length (lcvp self)
  /\ forall i, (i < length (lcvp self))%nat ->
       length (nth i (weight_matrix self) []) = length (lcvp self).
Proof.
  unfold weight_matrix. split.
  - now rewrite length_map, List.length_seq.
  - intros i Hi.
    set (f := fun wx : nat => map _ (List.seq 0 (length (lcvp self)))).
    rewrite (List.nth_indep _ [] (f 0%nat))
      by now rewrite length_map, List.length_seq.
    rewrite List.map_nth. unfold f. now rewrite length_map, List.length_seq.
Qed.

(** A vote at a low-confidence voxel, for a label value, keeps what the loop
    of [run] relies on; it writes the tally and the working volume only. *)
Lemma update_label_count_walk (self0 self : AWoL_MRF) (lcv : nat) (new_label : Z) :
  constructed self0 -> walk_inv self0 self ->
  (lcv < length (labels self0))%nat -> nth lcv (labels self0) 0 = -1 ->
  In new_label (label_values self0) ->
  exists self' nl lc,
    update_label_count self lcv new_label = Ok self'
    /\ self' = set_new_labels nl (set_label_count lc self)
    /\ walk_inv self0 self'.
Proof.
  intros Hcs Hwi Hlcv Hlow Hin.
  destruct Hwi as [Hl Hv Hm Hnl Hlc Hrows Hhigh Hlw].
  rewrite <- Hv in Hin.
  destruct (index_of_Z_In _ _ Hin) as (k & Hk).
  unfold update_label_count. rewrite Hk. cbn [mbind result_bind].
  set (row := <[k := _]> (nth lcv (label_count self) [])).
  eexists _, _, _. split; [reflexivity|]. split; [reflexivity|].
  assert (Hrow : length row = length (label_values self0)).
  { unfold row. rewrite length_insert. now apply Hrows. }
  assert (Hne : row <> []).
  { intros Heq. rewrite Heq in Hrow. simpl in Hrow.
    destruct (label_values self0) eqn:E; [|discriminate].
    now apply (cs_values _ Hcs). }
  destruct (np_argmax_spec row Hne) as (Harg & _).
  split; cbn [labels label_values mode new_labels label_count
              set_new_labels set_label_count]; try assumption.
  - now rewrite length_insert.
  - now rewrite length_insert.
  - intros p Hp. destruct (Nat.eq_dec lcv p) as [<-|Hne'].
    + rewrite nth_insert_eq by lia. exact Hrow.
    + rewrite nth_insert_ne by assumption. now apply Hrows.
  - intros p Hp Hhc. destruct (Nat.eq_dec lcv p) as [<-|Hne']; [contradiction|].
    rewrite nth_insert_ne by assumption. now apply Hhigh.
  - intros p Hp. destruct (Nat.eq_dec lcv p) as [<-|Hne'].
    + right. rewrite nth_insert_eq by lia. rewrite Hv.
      assert (Hmem : In (nth (np_argmax row) (label_values self0) 0)
                       (label_values self0)).
      { apply List.nth_In. lia. }
      rewrite int16_small; [exact Hmem|].
      pose proof (cs_range _ Hcs) as Hr.
      rewrite List.Forall_forall in Hr. now apply Hr.
    + rewrite nth_insert_ne by assumption. now apply Hlw.
Qed.

(** The loop of lines 268-282 over low-confidence voxels, with label values
    for keys of [patch_stats]: it ends with the invariant kept, or in
    [UnboundLocalError]. *)
Lemma mrf_loop_walk (np_log : float -> float) (self0 : AWoL_MRF) (seq0 : list nat) :
  constructed self0 ->
  forall self stale,
  walk_inv self0 self ->
  (forall v, In v seq0 ->
     (v < length (labels self0))%nat /\ nth v (labels self0) 0 = -1) ->
  (forall k, In k (map fst (patch_stats self)) -> In k (label_values self0)) ->
  (forall l, stale = Some l -> In l (label_values self0)) ->
  match mrf_loop np_log self stale seq0 with
  | Ok self' =>
      walk_inv self0 self'
      /\ exists nl lc, self' = set_new_labels nl (set_label_count lc self)
  | Raise e => e = UnboundLocalError
  end.
Proof.
  intros Hcs. induction seq0 as [|lcv seq0 IH]; intros self stale Hwi Hseq Hkeys Hstale.
  - simpl. split; [assumption|]. exists (new_labels self), (label_count self).
    now destruct self.
  - cbn [mrf_loop]. unfold mrf_visit.
    destruct (snd (select_label _ _ _ _ _ _)) as [l|] eqn:Hsel; [|reflexivity].
    assert (Hl : In l (label_values self0)).
    { apply select_label_In in Hsel as [H|H]; auto. }
    destruct (Hseq lcv (or_introl eq_refl)) as (Hlt & Hlow).
    destruct (update_label_count_walk self0 self lcv l Hcs Hwi Hlt Hlow Hl)
      as (self1 & nl & lc & Hupd & Heq & Hwi1).
    rewrite Hupd. cbn [mbind result_bind].
    specialize (IH self1 (Some l) Hwi1).
    destruct (mrf_loop np_log self1 (Some l) seq0) as [self'|e].
    + destruct IH as (Hwi' & nl' & lc' & ->).
      * intros v Hv. apply Hseq. now right.
      * rewrite Heq. exact Hkeys.
      * now intros l' [= <-].
      * split; [assumption|]. exists nl', lc'. rewrite Heq. reflexivity.
    + apply IH.
      * intros v Hv. apply Hseq. now right.
      * rewrite Heq. exact Hkeys.
      * now intros l' [= <-].
Qed.

Lemma walk_inv_frame (self0 self self' : AWoL_MRF) :
  labels self' = labels self -> label_values self' = label_values self ->
  mode self' = mode self -> new_labels self' = new_labels self ->
  label_count self' = label_count self ->
  walk_inv self0 self -> walk_inv self0 self'.
Proof.
  intros H1 H2 H3 H4 H5 [Hl Hv Hm Hnl Hlc Hrows Hhigh Hlw].
  split; rewrite ?H1, ?H2, ?H3, ?H4, ?H5; assumption.
Qed.

(** The loop of lines 114-119, from aligned queues: it ends with the
    invariant kept and the queues aligned, or in one of the two errors of a
    walk.  [get_patch] always finds a patch, and [get_mst_sequence] the seed
    among the low-confidence voxels of the patch. *)
Lemma seed_loop_walk (np_log : float -> float) (np_mean np_std : list float -> float)
    (minimum_spanning_tree : list (list float) -> list (list float))
    (self0 : AWoL_MRF) (rounds : nat) :
  constructed self0 ->
  (forall w, keeps_edges minimum_spanning_tree w) ->
  forall self,
  walk_inv self0 self -> queued self0 (seeds self) (patches self) ->
  match seed_loop np_log np_mean np_std minimum_spanning_tree rounds self with
  | Ok self' => walk_inv self0 self' /\ queued self0 (seeds self') (patches self')
  | Raise e => walk_error e
  end.
Proof.
  intros Hcs Hmst. induction rounds as [|rounds IH]; intros self Hwi Hq.
  { cbn [seed_loop]. destruct (seeds self) eqn:E; rewrite <- E in Hq; auto. }
  cbn [seed_loop]. destruct (seeds self) as [|seed seeds'] eqn:Hseeds.
  { rewrite <- Hseeds in Hq. auto. }
  unfold queued in Hq.
  inversion Hq as [|? patch ? patches' (Hin & Hlow & Hpatch) Hq' E1 Hpatches].
  symmetry in Hpatches. clear E1.
  unfold get_patch. rewrite Hpatches.
  destruct (0 <? length (where_eq (new_labels self) (-1) patch))%nat.
  2:{ cbn [seeds set_do_walk]. rewrite Hseeds.
      cbn [mbind result_bind do_walk set_seeds set_patches set_do_walk].
      apply IH.
      - eapply walk_inv_frame; [..|exact Hwi]; reflexivity.
      - exact Hq'. }
  cbn [mbind result_bind do_walk set_patches set_do_walk].
  set (self1 := set_patches patches' _).
  assert (Hwi1 : walk_inv self0 self1)
    by (eapply walk_inv_frame; [..|exact Hwi]; reflexivity).
  assert (Hlcvp : lcvp self1 = where_eq (labels self) (-1) patch) by reflexivity.
  assert (Hlabels : labels self = labels self0) by apply (wi_labels _ _ Hwi).
  unfold get_mst_sequence.
  replace (seeds self1) with (seed :: seeds') by (symmetry; exact Hseeds).
  assert (Hseed : In seed (lcvp self1)).
  { rewrite Hlcvp. apply where_eq_In. now rewrite Hlabels. }
  destruct (index_of_In _ _ Hseed) as (start & Hstart).
  rewrite Hstart. cbn [mbind result_bind].
  set (mst := minimum_spanning_tree (weight_matrix self1)).
  pose proof (mst_walk_general mst (fun v => (v < length (lcvp self1))%nat)
                (length (argwhere mst))
                (argwhere mst) [start] None) as Hwalk.
  destruct (mst_walk _ mst (argwhere mst) [start] None) as [seq'|e].
  2:{ cbn. apply Hwalk.
      - intros v [<-|[]]. now apply index_of_nth in Hstart.
      - intros e' He'. apply Hmst, argwhere_range in He' as (H1 & H2 & _).
        destruct (weight_matrix_shape self1) as (Hlen & Hrows).
        rewrite Hlen in H1. rewrite Hrows in H2 by assumption. auto.
      - discriminate. }
  destruct Hwalk as (Hrange & _).
  { intros v [<-|[]]. now apply index_of_nth in Hstart. }
  { intros e' He'. apply Hmst, argwhere_range in He' as (H1 & H2 & _).
    destruct (weight_matrix_shape self1) as (Hlen & Hrows).
    rewrite Hlen in H1. rewrite Hrows in H2 by assumption. auto. }
  { discriminate. }
  cbn [mbind result_bind].
  set (self2 := set_seeds seeds' _).
  assert (Hwi2 : walk_inv self0 self2)
    by (eapply walk_inv_frame; [..|exact Hwi1]; reflexivity).
  unfold mrf_potentials.
  pose proof (mrf_loop_walk np_log self0 (seq self2) Hcs self2 None Hwi2) as Hloop.
  destruct (mrf_loop np_log self2 None (seq self2)) as [self3|e].
  2:{ cbn. left. apply Hloop.
      - intros v Hv. change (seq self2) with (map (fun i => nth i (lcvp self1) 0%nat) seq') in Hv.
        apply List.in_map_iff in Hv as (i & <- & Hi).
        assert (Hv : In (nth i (lcvp self1) 0%nat) (lcvp self1))
          by (apply List.nth_In; auto).
        rewrite Hlcvp in Hv. apply where_eq_In in Hv as (Hv & Hvl).
        rewrite List.Forall_forall in Hpatch.
        split; [now apply Hpatch|now rewrite <- Hlabels].
      - intros k Hk.
        change (patch_stats self2)
          with (patch_stats_loop np_mean np_std
                  (set_lcvp (where_eq (labels self) (-1) patch) self) patch
                  (label_values self)) in Hk.
        rewrite patch_stats_loop_keys in Hk. apply List.filter_In in Hk as (Hk & _).
        now rewrite <- (wi_values _ _ Hwi).
      - discriminate. }
  destruct Hloop as (Hwi3 & nl & lc & Heq).
  { intros v Hv. change (seq self2) with (map (fun i => nth i (lcvp self1) 0%nat) seq') in Hv.
    apply List.in_map_iff in Hv as (i & <- & Hi).
    assert (Hv : In (nth i (lcvp self1) 0%nat) (lcvp self1))
      by (apply List.nth_In; auto).
    rewrite Hlcvp in Hv. apply where_eq_In in Hv as (Hv & Hvl).
    rewrite List.Forall_forall in Hpatch.
    split; [now apply Hpatch|now rewrite <- Hlabels]. }
  { intros k Hk.
    change (patch_stats self2)
      with (patch_stats_loop np_mean np_std
              (set_lcvp (where_eq (labels self) (-1) patch) self) patch
              (label_values self)) in Hk.
    rewrite patch_stats_loop_keys in Hk. apply List.filter_In in Hk as (Hk & _).
    now rewrite <- (wi_values _ _ Hwi). }
  { discriminate. }
  cbn [mbind result_bind mret result_ret].
  apply IH.
  - eapply walk_inv_frame; [..|exact Hwi3]; reflexivity.
  - rewrite Heq. exact Hq'.
Qed.

Lemma Forall2_map_self {A B} (P : A -> B -> Prop) (f : A -> B) (l : list A) :
  List.Forall (fun x => P x (f x)) l -> Forall2 P l (map f l).
Proof. induction 1; simpl; constructor; assumption. Qed.

(** The seed queue holds voxels of [self.lcv] that qualify. *)
Lemma find_seeds_In (self : AWoL_MRF) (s : nat) :
  In s (seeds (find_seeds self)) <->
  In s (lcv self) /\ mixing_ratio self < Z.of_nat (score self s).
Proof.
  unfold find_seeds. rewrite rank_lcv_spec.
  set (qualified := List.filter _ (lcv self)).
  assert (Hq : In s qualified
               <-> In s (lcv self) /\ mixing_ratio self < Z.of_nat (score self s)).
  { unfold qualified. rewrite List.filter_In, Z.ltb_lt. reflexivity. }
  rewrite <- Hq. destruct qualified as [|s0 q] eqn:E; [reflexivity|].
  rewrite <- E. cbn [seeds set_patches set_seeds]. rewrite combine_map_key.
  rewrite <- List.in_rev.
  set (keyed := map (fun s => (score self s, s)) qualified).
  pose proof (sorted_perm pair_leb keyed) as Hperm.
  assert (Hmap : map snd keyed = qualified).
  { unfold keyed. rewrite List.map_map. simpl. apply List.map_id. }
  rewrite <- Hmap at 1. split; apply Permutation_in, Permutation_map.
  - exact Hperm.
  - now apply Permutation_sym.
Qed.

(** The patch queue: one patch per seed, the voxels within [patch_length] of
    it, whenever there is a seed. *)
Lemma find_seeds_patches (self : AWoL_MRF) :
  seeds (find_seeds self) <> [] ->
  patches (find_seeds self)
  = map (fun seed =>
           sorted Nat.leb
             (query_ball (shape self) (length (labels self))
                (patch_length self * patch_length self) seed))
        (seeds (find_seeds self)).
Proof.
  unfold find_seeds. destruct (rank_lcv self (lcv self)) as [conf [|s0 q]].
  - cbn. congruence.
  - reflexivity.
Qed.

Lemma find_seeds_no_seed (self : AWoL_MRF) :
  seeds (find_seeds self) = [] -> patches (find_seeds self) = patches self.
Proof.
  unfold find_seeds. destruct (rank_lcv self (lcv self)) as [conf [|s0 q]] eqn:E.
  - reflexivity.
  - cbn [seeds set_patches set_seeds]. intros H.
    apply (f_equal (@length nat)) in H. rewrite length_rev, length_map in H.
    pose proof (Permutation_length
                  (sorted_perm pair_leb (combine conf (s0 :: q)))) as Hlen.
    rewrite H in Hlen. rewrite rank_lcv_spec in E. injection E as <- E.
    rewrite E, combine_map_key, length_map in Hlen. discriminate.
Qed.

(** [find_seeds] leaves the two queues aligned. *)
Lemma find_seeds_queued (self : AWoL_MRF) :
  (forall s, In s (lcv self) ->
     (s < length (labels self))%nat /\ nth s (labels self) 0 = -1) ->
  patches self = [] ->
  queued self (seeds (find_seeds self)) (patches (find_seeds self)).
Proof.
  intros Hlcv Hnone. unfold queued.
  destruct (seeds (find_seeds self)) as [|s0 q] eqn:E.
  - rewrite find_seeds_no_seed, Hnone by assumption. constructor.
  - rewrite find_seeds_patches by congruence. rewrite E.
    apply Forall2_map_self, List.Forall_forall. intros s Hs.
    rewrite <- E in Hs. apply find_seeds_In in Hs as (Hs & _).
    destruct (Hlcv s Hs) as (Hlt & Hlow).
    set (r2 := patch_length self * patch_length self).
    pose proof (sorted_perm Nat.leb (query_ball (shape self) (length (labels self)) r2 s))
      as Hperm.
    split; [|split; [exact Hlow|]].
    + apply (Permutation_in _ (Permutation_sym Hperm)).
      apply query_ball_self; [assumption|]. unfold r2. nia.
    + apply List.Forall_forall. intros v Hv.
      apply (Permutation_in _ Hperm), query_ball_In in Hv. tauto.
Qed.

Lemma init_constructed imgs brain shp b mr pl same thr self thr' :
  __init__ imgs brain shp b mr pl same thr = Ok (self, thr') ->
  List.Forall (fun v => 0 <= v < 32768) (label_values self) ->
  constructed self /\ patches self = [].
Proof.
  intros Hinit Hrange.
  destruct (init_labels _ _ _ _ _ _ _ _ _ _ Hinit)
    as (votes & _ & Hne & _ & _ & Hvox).
  split.
  - split; try assumption.
    + intros p Hp. now apply Hvox.
    + intros p Hp. destruct (Hvox p Hp) as (_ & Hm & Hlab). rewrite Hlab.
      destruct (confident _ _ _ _); [right|now left].
      assert (Hin : In (nth (nth p (fst (mode self)) 0%nat) (label_values self) 0)
                      (label_values self)) by now apply List.nth_In.
      exact Hin.
  - apply init_inv in Hinit
      as (lv & votes' & labels0 & _ & _ & _ & _ & _ & _ & _ & ->).
    reflexivity.
Qed.

Lemma constructed_frame (self self' : AWoL_MRF) :
  labels self' = labels self -> label_values self' = label_values self ->
  mode self' = mode self -> constructed self -> constructed self'.
Proof.
  intros H1 H2 H3 [Hv Hr Hm Hl]. split; rewrite ?H1, ?H2, ?H3; assumption.
Qed.

Lemma find_lcv_patches (self self1 : AWoL_MRF) :
  find_lcv self = Ok self1 -> patches self1 = patches self.
Proof.
  unfold find_lcv. destruct (where_eq _ _ _) as [|p l]; [now intros [= <-]|].
  intros H. apply bind_Ok_inv in H as (small & _ & H).
  apply bind_Ok_inv in H as (big & _ & [= <-]). reflexivity.
Qed.

(** [final_labels] after the loop: a voxel still at the sentinel takes its
    mode label, the others keep their working label. *)
Lemma final_labels_lookup (self : AWoL_MRF) (p : nat) :
  (p < length (new_labels self))%nat ->
  (nth p (fst (mode self)) 0 < length (label_values self))%nat ->
  nth p (labels (final_labels self)) 0
  = if nth p (new_labels self) 0 =? -1
    then int16 (nth (nth p (fst (mode self)) 0%nat) (label_values self) 0)
    else nth p (new_labels self) 0.
Proof.
  intros Hp Hm. unfold final_labels. cbn [labels set_labels].
  set (still := where_eq _ _ _).
  pose proof (assign_mode_lookup (fst (mode self)) still (label_values self) 0
                (new_labels self) p _ (lookup_nth_lt _ _ 0 Hp)) as Hlook.
  cbv zeta in Hlook. rewrite nth_lookup, Hlook. cbn [default]. unfold id.
  rewrite Nat.sub_0_r.
  replace (0 <=? _)%nat with true by (symmetry; apply Nat.leb_le; lia).
  replace (_ <? 0 + _)%nat with true by (symmetry; apply Nat.ltb_lt; lia).
  rewrite !andb_true_r.
  destruct (Z.eqb_spec (nth p (new_labels self) 0) (-1)) as [Heq|Hne].
  - replace (mem p still) with true; [reflexivity|].
    symmetry. apply mem_In, where_eq_In. split; [|assumption].
    apply List.in_seq. lia.
  - replace (mem p still) with false; [reflexivity|].
    symmetry. apply not_true_is_false. intros H.
    apply mem_In, where_eq_In in H. tauto.
Qed.

(** [run] from a constructed object: it returns a volume of label values in
    which the voxels of high confidence hold their label, or ends in one of
    the two errors of a walk. *)
Lemma run_walk (np_log : float -> float) (np_mean np_std : list float -> float)
    (minimum_spanning_tree : list (list float) -> list (list float))
    (self : AWoL_MRF) :
  constructed self -> patches self = [] ->
  (forall w, keeps_edges minimum_spanning_tree w) ->
  match run np_log np_mean np_std minimum_spanning_tree self with
  | Ok out =>
      length out = length (labels self)
      /\ forall p, (p < length (labels self))%nat ->
           In (nth p out 0) (label_values self)
           /\ (nth p (labels self) 0 <> -1 -> nth p out 0 = nth p (labels self) 0)
  | Raise e => walk_error e
  end.
Proof.
  intros Hcs Hnone Hmst. unfold run.
  destruct (find_lcv_Ok self)
    as (self1 & Hfind & Hlabels & Hmode & Hvalues & _ & Hlcv & Hempty & Hsome).
  rewrite Hfind. cbn [mbind result_bind].
  destruct (no_lcv self1) eqn:Hno.
  { unfold get_output_image. rewrite Hlabels. split; [reflexivity|].
    intros p Hp. split; [|reflexivity].
    destruct (cs_labels _ Hcs p Hp) as [Hlow|Hin]; [|exact Hin].
    assert (Hp' : In p (lcv self1)).
    { rewrite Hlcv. apply where_eq_In. split; [|assumption].
      apply List.in_seq. lia. }
    destruct (lcv self1) as [|q l] eqn:E; [destruct Hp'|].
    destruct Hsome as (Hfalse & _); congruence. }
  assert (Hl : lcv self1 <> []).
  { intros E. apply Hempty in E. congruence. }
  destruct (Hsome Hl) as (_ & Hnew & Hcount).
  destruct (find_seeds_frame self1) as (F1 & F2 & F3 & F4 & F5).
  set (self2 := find_seeds self1) in *.
  assert (Hcs2 : constructed self2).
  { apply (constructed_frame self); [congruence..|assumption]. }
  assert (Hlen : length (labels self2) = length (labels self)) by congruence.
  assert (Hwi : walk_inv self2 self2).
  { split; try reflexivity.
    - congruence.
    - rewrite F5, Hcount, repeat_length. congruence.
    - intros p Hp. rewrite F5, Hcount, nth_lookup, repeat_lookup by lia.
      cbn [default]. unfold id. rewrite repeat_length. congruence.
    - intros p _ _. congruence.
    - intros p Hp. replace (new_labels self2) with (labels self2) by congruence.
      now apply (cs_labels _ Hcs2). }
  assert (Hq : queued self2 (seeds self2) (patches self2)).
  { unfold queued. rewrite F1. apply find_seeds_queued.
    - intros s Hs. rewrite Hlcv in Hs. apply where_eq_In in Hs as (Hs & Hlow).
      apply List.in_seq in Hs. rewrite Hlabels. split; [lia|assumption].
    - rewrite (find_lcv_patches _ _ Hfind). exact Hnone. }
  pose proof (seed_loop_walk np_log np_mean np_std minimum_spanning_tree self2
                (length (seeds self2)) Hcs2 Hmst self2 Hwi Hq) as Hloop.
  destruct (seed_loop _ _ _ _ _ self2) as [self3|e]; [|exact Hloop].
  destruct Hloop as (Hwi3 & _). cbn [mbind result_bind]. unfold get_output_image.
  destruct Hwi3 as [W1 W2 W3 W4 W5 W6 W7 W8].
  split.
  { unfold final_labels. cbn [labels set_labels].
    rewrite assign_mode_length. congruence. }
  intros p Hp.
  assert (Hm : (nth p (fst (mode self3)) 0 < length (label_values self3))%nat).
  { rewrite W3, W2. apply (cs_mode _ Hcs2). lia. }
  rewrite final_labels_lookup by (assumption || lia).
  rewrite <- Hlen in Hp. specialize (W7 p Hp). specialize (W8 p Hp).
  rewrite F1, Hlabels in W7. rewrite F4, Hvalues in W8.
  destruct (Z.eqb_spec (nth p (new_labels self3) 0) (-1)) as [Heq|Hne].
  - split.
    + rewrite W2, F4, Hvalues in *.
      assert (Hin : In (nth (nth p (fst (mode self3)) 0%nat) (label_values self) 0)
                      (label_values self)) by now apply List.nth_In.
      rewrite int16_small; [exact Hin|].
      pose proof (cs_range _ Hcs) as Hr. rewrite List.Forall_forall in Hr.
      now apply Hr.
    + intros Hhc. pose proof (W7 Hhc). congruence.
  - split; [tauto|assumption].
Qed.

Lemma argwhere_In (m : list (list float)) (e : nat * nat) :
  In e (argwhere m) <->
  (fst e < length m)%nat /\ (snd e < length (nth (fst e) m []))%nat
  /\ (entry m e =? 0)%float = false.
Proof.
  split; [apply argwhere_range|]. destruct e as [i j]. simpl.
  intros (Hi & Hj & Hz). unfold argwhere. apply List.in_flat_map.
  exists i. split; [apply List.in_seq; lia|].
  apply List.in_flat_map. exists j. split; [apply List.in_seq; lia|].
  rewrite Hz. now left.
Qed.

Lemma nth_imap {A B} (f : nat -> A -> B) (l : list A) (i : nat) (d : A) (d' : B) :
  (i < length l)%nat -> nth i (imap f l) d' = f i (nth i l d).
Proof.
  intros Hi. rewrite !nth_lookup, list_lookup_imap.
  rewrite (lookup_nth_lt l i d Hi). reflexivity.
Qed.

(** The instance of the examples keeps entries of the matrix it is given, or
    puts zero in their place. *)
Lemma kruskal_keeps_edges (w : list (list float)) : keeps_edges kruskal w.
Proof.
  intros [i j]. rewrite !argwhere_In. unfold kruskal. cbn [fst snd].
  set (kept := kruskal_loop _ _ _).
  rewrite length_imap. intros (Hi & Hj & Hz).
  rewrite (nth_imap _ w i [] []) in Hj by assumption.
  rewrite length_imap in Hj.
  split; [assumption|]. split; [assumption|].
  unfold entry in *. cbn [fst snd] in *.
  rewrite (nth_imap _ w i [] []) in Hz by assumption.
  rewrite (nth_imap _ _ j 0%float 0%float) in Hz by assumption.
  destruct (existsb _ kept); [exact Hz|].
  discriminate.
Qed.

Lemma kruskal_keeps_weights (w : list (list float)) : keeps_weights kruskal w.
Proof.
  intros [i j]. rewrite argwhere_In. unfold kruskal. cbn [fst snd].
  set (kept := kruskal_loop _ _ _).
  rewrite length_imap. intros (Hi & Hj & Hz).
  rewrite (nth_imap _ w i [] []) in Hj by assumption.
  rewrite length_imap in Hj.
  unfold entry in *. cbn [fst snd] in *.
  rewrite (nth_imap _ w i [] []) in Hz |- * by assumption.
  rewrite (nth_imap _ _ j 0%float 0%float) in Hz |- * by assumption.
  destruct (existsb _ kept); [reflexivity|discriminate].
Qed.

(** ** What [run] returns, and how it fails *)

(** X3. After a successful construction, for label values that fit the
    [int16] cells and a spanning-tree routine that adds no edge to the graph it
    is given: when [run] returns, the volume has one label per voxel, every
    label is one of [label_values] (no voxel is left at the sentinel), and a
    voxel of high confidence holds the label the constructor gave it. *)
Theorem run_output_labels (np_log : float -> float)
    (np_mean np_std : list float -> float)
    (minimum_spanning_tree : list (list float) -> list (list float))
    imgs brain shp b mr pl same thr (self : AWoL_MRF) thr' (out : list Z) :
  __init__ imgs brain shp b mr pl same thr = Ok (self, thr') ->
  List.Forall (fun v => 0 <= v < 32768) (label_values self) ->
  (forall w, keeps_edges minimum_spanning_tree w) ->
  run np_log np_mean np_std minimum_spanning_tree self = Ok out ->
  length out = length (labels self)
  /\ forall p, (p < length (labels self))%nat ->
       In (nth p out 0) (label_values self)
       /\ (nth p (labels self) 0 <> -1 -> nth p out 0 = nth p (labels self) 0).
Proof.
  intros Hinit Hrange Hmst Hrun.
  destruct (init_constructed _ _ _ _ _ _ _ _ _ _ Hinit Hrange) as (Hcs & Hnone).
  pose proof (run_walk np_log np_mean np_std minimum_spanning_tree self
                Hcs Hnone Hmst) as H.
  rewrite Hrun in H. exact H.
Qed.


Lemma run_output_labels_witness :
  length [0; 0; 0; 0; 1; 1] = length (labels row6)
  /\ forall p, (p < length (labels row6))%nat ->
       In (nth p [0; 0; 0; 0; 1; 1] 0) (label_values row6)
       /\ (nth p (labels row6) 0 <> -1
           -> nth p [0; 0; 0; 0; 1; 1] 0 = nth p (labels row6) 0).
Proof.
  apply (run_output_labels log_tangent mean_seq std_seq kruskal
           _ _ _ _ _ _ _ _ row6 _ _ row6_init).
  - repeat constructor; lia.
  - exact kruskal_keeps_edges.
  - vm_compute. reflexivity.
Defined.


(** * Neighbourhoods and patches, in ascending order *)

Lemma StronglySorted_le_lt (l : list nat) :
  StronglySorted (fun a b => Nat.leb a b = true) l -> List.NoDup l ->
  StronglySorted lt l.
Proof.
  induction 1 as [|x l Hs IH Hx]; intros Hnd; constructor;
    inversion Hnd as [|? ? Hnot Hnd']; subst.
  - now apply IH.
  - rewrite List.Forall_forall in *. intros y Hy.
    specialize (Hx y Hy). apply Nat.leb_le in Hx.
    assert (x <> y) by (intros ->; contradiction). lia.
Qed.

(** [sorted(l)] of distinct voxels is strictly ascending. *)
Lemma sorted_nat_lt (l : list nat) :
  List.NoDup l -> StronglySorted lt (sorted Nat.leb l).
Proof.
  intros Hnd. apply StronglySorted_le_lt.
  - apply sorted_sorted.
    + intros a b. rewrite !Nat.leb_le. lia.
    + intros a b c. rewrite !Nat.leb_le. lia.
  - apply (Permutation_NoDup (Permutation_sym (sorted_perm Nat.leb l)) Hnd).
Qed.

Lemma list_remove_keeps_NoDup (x : nat) (l l' : list nat) :
  list_remove Nat.eqb x l = Ok l' -> List.NoDup l -> List.NoDup l'.
Proof.
  revert l'; induction l as [|y l IH]; intros l'; simpl; [discriminate|].
  intros H Hnd. inversion Hnd as [|? ? Hy Hl]; subst.
  destruct (x =? y)%nat; [now injection H as <-|].
  apply bind_Ok_inv in H as (l'' & Hl'' & [= <-]).
  constructor; [|now apply IH].
  intros Hin. apply Hy. eapply list_remove_incl; eassumption.
Qed.

Lemma neighbors_sorted shp nvox r2 (lcv : list nat) :
  forall acc m,
  neighbors shp nvox r2 lcv acc = Ok m ->
  (forall p n, acc !! p = Some n -> StronglySorted lt n) ->
  forall p n, m !! p = Some n -> StronglySorted lt n.
Proof.
  induction lcv as [|p0 lcv IH]; intros acc m; simpl.
  - intros [= <-]. auto.
  - intros H Hacc. apply bind_Ok_inv in H as (qbt & Hqbt & H).
    apply (IH _ _ H). intros p n.
    destruct (Nat.eq_dec p0 p) as [<-|Hne].
    + rewrite lookup_insert_eq. intros [= <-]. apply sorted_nat_lt.
      eapply list_remove_keeps_NoDup; [eassumption|apply query_ball_NoDup].
    + rewrite lookup_insert_ne by assumption. apply Hacc.
Qed.

Lemma dist2_sym (shp : nat * nat * nat) (p q : nat) : dist2 shp p q = dist2 shp q p.
Proof.
  unfold dist2. destruct (unravel_index p shp) as [[pz py] px].
  destruct (unravel_index q shp) as [[qz qy] qx]. ring.
Qed.







(** The centre of the cube has 26 resolved voxels around it, of which the
    code counts 18: with [mixing_ratio = 18] it is no seed. *)
Lemma corner_voxels_not_counted :
  length (List.filter (fun q => negb (nth q (labels cube27) 0 =? -1))
            (List.seq 0 (length (labels cube27)))) = 26%nat
  /\ resolved_neighbours cube27 13 = 18%nat
  /\ (self ← find_lcv cube27; Ok (lcv self, seeds (find_seeds self)))
     = Ok ([13%nat], []).
Proof. vm_compute. auto. Qed.

(** X5. What [find_lcv] leaves for a low-confidence voxel [p]: its entries
    in [neighbors_small] and [neighbors_big] are strictly ascending and leave
    [p] itself out; [neighbors_small] holds the voxels of the volume within
    distance 1 of [p], its 6 face neighbours; [neighbors_big] holds those
    within squared distance 2, its 18 face and edge neighbours: the ball of
    radius [np.sqrt(3)], whose square is below 3 in binary64, leaves out the 8
    corner voxels at squared distance 3; a direct neighbour is an extended
    neighbour too; being a direct neighbour is mutual among low-confidence
    voxels; and a voxel that is not of low confidence has no entry. *)
Theorem find_lcv_neighbourhoods (self self1 : AWoL_MRF) (p : nat) :
  find_lcv self = Ok self1 -> In p (lcv self1) ->
  exists small big,
    neighbors_small self1 !! p = Some small
    /\ neighbors_big self1 !! p = Some big
    /\ StronglySorted lt small /\ StronglySorted lt big
    /\ (forall q, In q small <->
          (q < length (labels self))%nat /\ q <> p /\ dist2 (shape self) p q <= 1)
    /\ (forall q, In q big <->
          (q < length (labels self))%nat /\ q <> p /\ dist2 (shape self) p q <= 2)
    /\ (forall q, In q small -> In q big)
    /\ (forall q small_q, neighbors_small self1 !! q = Some small_q ->
          In q (lcv self1) /\ (In q small <-> In p small_q))
    /\ (forall q, ~ In q (lcv self1) ->
          neighbors_small self1 !! q = None /\ neighbors_big self1 !! q = None).
Proof.
  unfold find_lcv.
  set (found := where_eq (labels self) (-1) (List.seq 0 (length (labels self)))).
  assert (Hfound : forall v, In v found -> (v < length (labels self))%nat).
  { intros v Hv. apply where_eq_In in Hv as (Hv & _). apply List.in_seq in Hv. lia. }
  destruct found as [|p0 found'] eqn:Hf.
  { intros [= <-]. cbn. easy. }
  rewrite <- Hf in *.
  cbn [shape set_no_lcv set_lcv labels]. intros H.
  apply bind_Ok_inv in H as (small & Hsmall & H).
  apply bind_Ok_inv in H as (big & Hbig & [= <-]).
  rewrite sqrt3_ball_eq in Hbig.
  cbn. intros Hin.
  destruct (neighbors_lookup _ _ _ _ _ _ p Hsmall Hin) as (ns & Hns & Hns').
  destruct (neighbors_lookup _ _ _ _ _ _ p Hbig Hin) as (nb & Hnb & Hnb').
  exists ns, nb.
  split; [assumption|]. split; [assumption|].
  split; [apply (neighbors_sorted _ _ _ _ _ _ Hsmall) with (p := p);
          [intros ? ?; now rewrite lookup_empty|assumption]|].
  split; [apply (neighbors_sorted _ _ _ _ _ _ Hbig) with (p := p);
          [intros ? ?; now rewrite lookup_empty|assumption]|].
  split; [assumption|]. split; [assumption|].
  split; [|split].
  - intros q. rewrite Hns', Hnb'. lia.
  - intros q small_q Hq.
    destruct (List.in_dec Nat.eq_dec q found) as [Hqin|Hqout].
    2:{ rewrite (neighbors_other _ _ _ _ _ _ q Hsmall Hqout), lookup_empty in Hq.
        discriminate. }
    split; [assumption|].
    destruct (neighbors_lookup _ _ _ _ _ _ q Hsmall Hqin) as (nq & Hnq & Hnq').
    rewrite Hq in Hnq. injection Hnq as <-.
    rewrite Hns', Hnq', (dist2_sym _ q p).
    pose proof (Hfound p Hin). pose proof (Hfound q Hqin).
    split; intros (? & ? & ?); repeat split; auto.
  - intros q Hq.
    rewrite (neighbors_other _ _ _ _ _ _ q Hsmall Hq).
    rewrite (neighbors_other _ _ _ _ _ _ q Hbig Hq).
    now rewrite !lookup_empty.
Qed.

Lemma find_lcv_neighbourhoods_witness :
  exists small big,
    neighbors_small row4_found !! 1%nat = Some small
    /\ neighbors_big row4_found !! 1%nat = Some big
    /\ StronglySorted lt small /\ StronglySorted lt big
    /\ (forall q, In q small <->
          (q < length (labels row4))%nat /\ q <> 1%nat
          /\ dist2 (shape row4) 1 q <= 1)
    /\ (forall q, In q big <->
          (q < length (labels row4))%nat /\ q <> 1%nat
          /\ dist2 (shape row4) 1 q <= 2)
    /\ (forall q, In q small -> In q big)
    /\ (forall q small_q, neighbors_small row4_found !! q = Some small_q ->
          In q (lcv row4_found) /\ (In q small <-> In 1%nat small_q))
    /\ (forall q, ~ In q (lcv row4_found) ->
          neighbors_small row4_found !! q = None
          /\ neighbors_big row4_found !! q = None).
Proof.
  apply (find_lcv_neighbourhoods row4 row4_found 1 row4_find_lcv).
  simpl. auto.
Defined.

Lemma lookup_map {A B} (f : A -> B) (l : list A) (i : nat) (x : A) :
  l !! i = Some x -> map f l !! i = Some (f x).
Proof.
  revert i; induction l as [|y l IH]; intros [|i]; simpl; try discriminate.
  - now intros [= ->].
  - apply IH.
Qed.

(** X6. The patch queue [find_seeds] builds: the patch at position [i] is
    the patch of the seed at position [i]; it holds, in strictly ascending
    order, the voxels of the volume within [patch_length] of the seed, of
    whatever confidence; the seed is a low-confidence voxel; the two queues
    have one length, and [neighbors_big] is gone. *)
Theorem find_seeds_patch_of_seed (self : AWoL_MRF) (i seed : nat) :
  seeds (find_seeds self) !! i = Some seed ->
  exists patch,
    patches (find_seeds self) !! i = Some patch
    /\ StronglySorted lt patch
    /\ (forall q, In q patch <->
          (q < length (labels self))%nat
          /\ dist2 (shape self) seed q <= patch_length self * patch_length self)
    /\ In seed (lcv self)
    /\ length (patches (find_seeds self)) = length (seeds (find_seeds self))
    /\ neighbors_big (find_seeds self) = ∅.
Proof.
  intros Hi.
  assert (Hne : seeds (find_seeds self) <> []).
  { intros E. rewrite E in Hi. discriminate. }
  rewrite (find_seeds_patches self Hne).
  eexists. split; [apply lookup_map; exact Hi|].
  split; [apply sorted_nat_lt, query_ball_NoDup|].
  split; [|split; [|split]].
  - intros q. rewrite (Permutation_in' eq_refl (sorted_perm Nat.leb _)).
    apply query_ball_In.
  - assert (Hin : In seed (seeds (find_seeds self))).
    { apply list_elem_of_In. eapply list_elem_of_lookup_2. exact Hi. }
    now apply find_seeds_In in Hin.
  - apply length_map.
  - unfold find_seeds. destruct (rank_lcv self (lcv self)) as [conf [|s0 q]];
      reflexivity.
Qed.

Lemma find_seeds_patch_of_seed_witness :
  exists patch,
    patches (find_seeds row4_found) !! 0%nat = Some patch
    /\ StronglySorted lt patch
    /\ (forall q, In q patch <->
          (q < length (labels row4_found))%nat
          /\ dist2 (shape row4_found) 2 q
             <= patch_length row4_found * patch_length row4_found)
    /\ In 2%nat (lcv row4_found)
    /\ length (patches (find_seeds row4_found))
       = length (seeds (find_seeds row4_found))
    /\ neighbors_big (find_seeds row4_found) = ∅.
Proof.
  apply (find_seeds_patch_of_seed row4_found 0 2). reflexivity.
Defined.

(** * A patch that is walked *)




(** * The sequence of a walk, whatever the tree *)

(** X8. Whenever [get_mst_sequence] returns, whatever the spanning-tree
    routine gave: the seed was among the low-confidence voxels of the patch
    and is off the queue; the sequence starts at the seed and has one more
    voxel for each non-zero entry of the tree matrix, so that its length is
    set by the number of edges, not by the number of voxels to visit; with a
    routine that adds no edge, every voxel of the sequence is one of
    [self.lcvp].  The volumes and the tally are not touched. *)
Theorem get_mst_sequence_shape
    (minimum_spanning_tree : list (list float) -> list (list float))
    (self self' : AWoL_MRF) :
  get_mst_sequence minimum_spanning_tree self = Ok self' ->
  exists seed seeds' more,
    seeds self = seed :: seeds' /\ seeds self' = seeds'
    /\ In seed (lcvp self)
    /\ seq self' = seed :: more
    /\ length more = length (argwhere (minimum_spanning_tree (weight_matrix self)))
    /\ (keeps_edges minimum_spanning_tree (weight_matrix self) ->
        forall v, In v (seq self') -> In v (lcvp self))
    /\ new_labels self' = new_labels self
    /\ label_count self' = label_count self
    /\ patch_stats self' = patch_stats self.
Proof.
  unfold get_mst_sequence.
  set (mst := minimum_spanning_tree (weight_matrix self)).
  destruct (seeds self) as [|seed seeds'] eqn:Hseeds; [discriminate|].
  intros H. apply bind_Ok_inv in H as (start & Hstart & H).
  apply bind_Ok_inv in H as (seq0 & Hwalk & [= <-]).
  apply index_of_nth in Hstart as (Hlt & Hnth).
  pose proof (mst_walk_general mst (fun _ => True) (length (argwhere mst))
                (argwhere mst) [start] None) as Hshape.
  pose proof (mst_walk_general mst (fun v => (v < length (lcvp self))%nat)
                (length (argwhere mst)) (argwhere mst) [start] None) as Hrange.
  rewrite Hwalk in Hshape, Hrange.
  destruct Hshape as (_ & more & -> & Hlen); [auto..|discriminate|].
  specialize (Hlen (Nat.le_refl _)).
  exists seed, seeds', (map (fun i => nth i (lcvp self) 0%nat) more).
  cbn [seeds seq new_labels label_count patch_stats set_seeds set_seq].
  split; [reflexivity|]. split; [reflexivity|].
  split; [rewrite <- Hnth; now apply List.nth_In|].
  split; [simpl; now rewrite Hnth|].
  split; [now rewrite length_map|].
  split; [|repeat split; reflexivity].
  intros Hkeeps v Hv. apply List.in_map_iff in Hv as (i & <- & Hi).
  apply List.nth_In. destruct Hrange as (Hrange & _); [| | |now apply Hrange].
  - intros u [<-|[]]. exact Hlt.
  - intros e He. apply Hkeeps, argwhere_range in He as (H1 & H2 & _).
    destruct (weight_matrix_shape self) as (Hl & Hrows).
    rewrite Hl in H1. rewrite Hrows in H2 by assumption. auto.
  - discriminate.
Qed.

Lemma get_mst_sequence_shape_witness :
  let self' := set_seeds [2]%nat (set_seq [3]%nat row6_patch) in
  exists seed seeds' more,
    seeds row6_patch = seed :: seeds' /\ seeds self' = seeds'
    /\ In seed (lcvp row6_patch)
    /\ seq self' = seed :: more
    /\ length more = length (argwhere (kruskal (weight_matrix row6_patch)))
    /\ (keeps_edges kruskal (weight_matrix row6_patch) ->
        forall v, In v (seq self') -> In v (lcvp row6_patch))
    /\ new_labels self' = new_labels row6_patch
    /\ label_count self' = label_count row6_patch
    /\ patch_stats self' = patch_stats row6_patch.
Proof.
  apply (get_mst_sequence_shape kruskal row6_patch).
  vm_compute. reflexivity.
Defined.

(** * The votes of a walk *)

Lemma sum_insert (row : list Z) (k : nat) (x : Z) :
  (k < length row)%nat ->
  fold_right Z.add 0 (<[k := x]> row) = fold_right Z.add 0 row - nth k row 0 + x.
Proof.
  revert k; induction row as [|c row IH]; intros [|k]; simpl; try lia.
  intros Hk. rewrite IH by lia. lia.
Qed.

Lemma Forall_insert_list {A} (P : A -> Prop) (l : list A) (k : nat) (x : A) :
  List.Forall P l -> P x -> List.Forall P (<[k := x]> l).
Proof.
  intros Hl Hx. revert k. induction Hl as [|y l Hy Hl IH]; intros [|k]; simpl;
    constructor; auto.
Qed.

(** One vote adds one to the row of the voxel and leaves the other rows. *)
Lemma update_label_count_votes (self self' : AWoL_MRF) (lcv : nat) (new_label : Z)
    (n : nat) :
  update_label_count self lcv new_label = Ok self' ->
  (lcv < length (label_count self))%nat ->
  tally_room self (S n) ->
  tally_room self' n
  /\ length (label_count self') = length (label_count self)
  /\ votes_cast self' lcv = votes_cast self lcv + 1
  /\ (forall p, p <> lcv ->
        nth p (label_count self') [] = nth p (label_count self) []
        /\ nth p (new_labels self') 0 = nth p (new_labels self) 0)
  /\ exists nl lc, self' = set_new_labels nl (set_label_count lc self).
Proof.
  intros Hupd Hlcv Hroom.
  apply update_label_count_eq in Hupd as (k & Hk & ->).
  apply index_of_Z_lt in Hk as (Hk & _).
  unfold tally_room, votes_cast in *.
  cbn [label_count label_values new_labels set_new_labels set_label_count].
  set (row := nth lcv (label_count self) []) in *.
  assert (Hrow : length row = length (label_values self)
                 /\ List.Forall (fun c => 0 <= c /\ c + Z.of_nat (S n) < 65536) row).
  { rewrite List.Forall_forall in Hroom. apply Hroom. now apply List.nth_In. }
  destruct Hrow as (Hlen & Hcells).
  assert (Hc : 0 <= nth k row 0 /\ nth k row 0 + Z.of_nat (S n) < 65536).
  { rewrite List.Forall_forall in Hcells. apply Hcells, List.nth_In. lia. }
  assert (Hw : uint16 (nth k row 0 + 1) = nth k row 0 + 1).
  { unfold uint16. apply Z.mod_small. lia. }
  rewrite Hw.
  split; [|split; [|split; [|split]]].
  - apply Forall_insert_list.
    + eapply List.Forall_impl; [|exact Hroom]. intros r (Hr & Hcs).
      split; [assumption|]. eapply List.Forall_impl; [|exact Hcs].
      intros c. simpl. lia.
    + split; [now rewrite length_insert|]. apply Forall_insert_list.
      * eapply List.Forall_impl; [|exact Hcells]. intros c. simpl. lia.
      * lia.
  - now rewrite length_insert.
  - rewrite nth_insert_eq by assumption. rewrite sum_insert by lia. lia.
  - intros p Hp. rewrite !nth_insert_ne by auto. auto.
  - eexists _, _. reflexivity.
Qed.

(** The loop of lines 268-282: every visit adds one vote at the voxel
    visited, and touches no other voxel. *)
Lemma mrf_loop_votes (np_log : float -> float) (seq0 : list nat) :
  forall self stale self',
  mrf_loop np_log self stale seq0 = Ok self' ->
  (forall v, In v seq0 -> (v < length (label_count self))%nat) ->
  tally_room self (length seq0) ->
  (forall p, votes_cast self' p
             = votes_cast self p + Z.of_nat (count_occ Nat.eq_dec seq0 p))
  /\ (forall p, ~ In p seq0 ->
        nth p (label_count self') [] = nth p (label_count self) []
        /\ nth p (new_labels self') 0 = nth p (new_labels self) 0)
  /\ exists nl lc, self' = set_new_labels nl (set_label_count lc self).
Proof.
  induction seq0 as [|lcv seq0 IH]; intros self stale self'.
  - simpl. intros [= <-] _ _. split; [intros p; lia|]. split; [auto|].
    exists (new_labels self), (label_count self). now destruct self.
  - cbn [mrf_loop]. intros H Hrange Hroom.
    apply bind_Ok_inv in H as ([self1 stale1] & Hvisit & H).
    unfold mrf_visit in Hvisit.
    destruct (snd (select_label _ _ _ _ _ _)) as [l|]; [|discriminate].
    apply bind_Ok_inv in Hvisit as (self2 & Hupd & [= <- <-]).
    destruct (update_label_count_votes _ _ _ _ (length seq0) Hupd
                (Hrange lcv (or_introl eq_refl)) Hroom)
      as (Hroom2 & Hlen2 & Hvote & Hother & nl & lc & Heq).
    destruct (IH _ _ _ H) as (Hsum & Hframe & nl' & lc' & ->).
    { intros v Hv. rewrite Hlen2. apply Hrange. now right. }
    { exact Hroom2. }
    split; [|split].
    + intros p. rewrite Hsum. cbn [count_occ].
      destruct (Nat.eq_dec lcv p) as [<-|Hne].
      * rewrite Hvote. lia.
      * unfold votes_cast. destruct (Hother p) as (-> & _); [auto|reflexivity].
    + intros p Hp. simpl in Hp.
      destruct (Hframe p) as (-> & ->); [tauto|]. apply Hother. intros ->. tauto.
    + exists nl', lc'. rewrite Heq. reflexivity.
Qed.

(** X9. The votes of one walk.  Whenever [mrf_potentials] returns, on a tally
    whose rows have a cell per label value and no cell near the [uint16]
    limit: every voxel has as many votes more as the sequence visits it; a
    voxel that is not in the sequence keeps its tally row and its working
    label; [seq] and [patch_stats] are gone, and the queues and the
    confidence volume are as they were. *)
Theorem mrf_potentials_votes (np_log : float -> float) (self self' : AWoL_MRF) :
  mrf_potentials np_log self = Ok self' ->
  (forall v, In v (seq self) -> (v < length (label_count self))%nat) ->
  tally_room self (length (seq self)) ->
  (forall p, votes_cast self' p
             = votes_cast self p + Z.of_nat (count_occ Nat.eq_dec (seq self) p))
  /\ (forall p, ~ In p (seq self) ->
        nth p (label_count self') [] = nth p (label_count self) []
        /\ nth p (new_labels self') 0 = nth p (new_labels self) 0)
  /\ patch_stats self' = [] /\ seq self' = []
  /\ labels self' = labels self
  /\ seeds self' = seeds self /\ patches self' = patches self.
Proof.
  unfold mrf_potentials. intros H Hrange Hroom.
  apply bind_Ok_inv in H as (self1 & Hloop & [= <-]).
  destruct (mrf_loop_votes np_log _ _ _ _ Hloop Hrange Hroom)
    as (Hsum & Hframe & nl & lc & ->).
  split; [exact Hsum|]. split; [exact Hframe|].
  repeat split; reflexivity.
Qed.

Lemma row6_mrf_potentials : mrf_potentials log_tangent row6_walked = Ok row6_voted.
Proof. vm_compute. reflexivity. Qed.

Lemma mrf_potentials_votes_witness :
  (forall p, votes_cast row6_voted p
             = votes_cast row6_walked p
               + Z.of_nat (count_occ Nat.eq_dec (seq row6_walked) p))
  /\ (forall p, ~ In p (seq row6_walked) ->
        nth p (label_count row6_voted) [] = nth p (label_count row6_walked) []
        /\ nth p (new_labels row6_voted) 0 = nth p (new_labels row6_walked) 0)
  /\ patch_stats row6_voted = [] /\ seq row6_voted = []
  /\ labels row6_voted = labels row6_walked
  /\ seeds row6_voted = seeds row6_walked
  /\ patches row6_voted = patches row6_walked.
Proof.
  apply (mrf_potentials_votes log_tangent row6_walked row6_voted
           row6_mrf_potentials).
  - intros v [<-|[]]. simpl. lia.
  - unfold tally_room. simpl. repeat constructor; lia.
Defined.

(** * The final pass *)

(** X10. [final_labels], where the mode of every voxel is the index of a
    label value and the label values fit the [int16] cells: a voxel still at
    the sentinel takes its mode label, the majority vote; every other voxel
    keeps its working label; no voxel holds the sentinel afterwards, and
    [labels] and [new_labels] are one volume. *)
Theorem final_labels_fills (self : AWoL_MRF) :
  (forall p, (p < length (new_labels self))%nat ->
     (nth p (fst (mode self)) 0 < length (label_values self))%nat) ->
  List.Forall (fun v => 0 <= v < 32768) (label_values self) ->
  labels (final_labels self) = new_labels (final_labels self)
  /\ length (labels (final_labels self)) = length (new_labels self)
  /\ label_count (final_labels self) = label_count self
  /\ forall p, (p < length (new_labels self))%nat ->
       nth p (labels (final_labels self)) 0
       = (if nth p (new_labels self) 0 =? -1
          then nth (nth p (fst (mode self)) 0%nat) (label_values self) 0
          else nth p (new_labels self) 0)
       /\ nth p (labels (final_labels self)) 0 <> -1.
Proof.
  intros Hmode Hrange.
  split; [reflexivity|].
  split; [unfold final_labels; cbn [labels set_labels]; apply assign_mode_length|].
  split; [reflexivity|].
  intros p Hp. rewrite final_labels_lookup by auto.
  assert (Hv : 0 <= nth (nth p (fst (mode self)) 0%nat) (label_values self) 0 < 32768).
  { rewrite List.Forall_forall in Hrange. apply Hrange, List.nth_In. auto. }
  rewrite int16_small by assumption.
  destruct (Z.eqb_spec (nth p (new_labels self) 0) (-1)); split; auto; lia.
Qed.

Lemma final_labels_fills_witness :
  labels (final_labels row6_voted) = new_labels (final_labels row6_voted)
  /\ length (labels (final_labels row6_voted)) = length (new_labels row6_voted)
  /\ label_count (final_labels row6_voted) = label_count row6_voted
  /\ forall p, (p < length (new_labels row6_voted))%nat ->
       nth p (labels (final_labels row6_voted)) 0
       = (if nth p (new_labels row6_voted) 0 =? -1
          then nth (nth p (fst (mode row6_voted)) 0%nat) (label_values row6_voted) 0
          else nth p (new_labels row6_voted) 0)
       /\ nth p (labels (final_labels row6_voted)) 0 <> -1.
Proof.
  apply (final_labels_fills row6_voted).
  - intros p Hp. simpl in Hp.
    destruct p as [|[|[|[|[|[|p]]]]]]; simpl; lia.
  - repeat constructor; lia.
Defined.

(** * The rounds of the loop of [run] *)

(** X11. The loop of lines 114-119 takes exactly one seed off the queue per
    round, walked or skipped: it ends within as many rounds as the queue has
    seeds, more rounds change nothing, and when it ends without an error
    the queue is empty. *)
Theorem seed_loop_rounds (np_log : float -> float)
    (np_mean np_std : list float -> float)
    (minimum_spanning_tree : list (list float) -> list (list float))
    (rounds : nat) :
  forall self,
  (length (seeds self) <= rounds)%nat ->
  seed_loop np_log np_mean np_std minimum_spanning_tree rounds self
  = seed_loop np_log np_mean np_std minimum_spanning_tree (length (seeds self)) self
  /\ forall self',
       seed_loop np_log np_mean np_std minimum_spanning_tree rounds self = Ok self' ->
       seeds self' = [].
Proof.
  intros self Hlen. split; [|intros self'; now apply seed_loop_empties].
  revert self Hlen. induction rounds as [|rounds IH]; intros self Hlen.
  - destruct (seeds self) eqn:E; [|simpl in Hlen; lia].
    cbn [length seed_loop]. reflexivity.
  - destruct (seeds self) as [|seed seeds'] eqn:Hs.
    + cbn [length seed_loop]. now rewrite Hs.
    + cbn [length seed_loop]. rewrite Hs. simpl in Hlen.
      destruct (get_patch np_mean np_std self) as [self1|e] eqn:Hpatch;
        [|reflexivity].
      cbn [mbind result_bind].
      pose proof (get_patch_seeds _ _ _ _ Hpatch) as Hseeds1.
      destruct (do_walk self1).
      * destruct (get_mst_sequence minimum_spanning_tree self1) as [self2|e] eqn:Hmst;
          [|reflexivity].
        cbn [mbind result_bind].
        destruct (mrf_potentials np_log self2) as [self3|e] eqn:Hmrf; [|reflexivity].
        cbn [mbind result_bind].
        apply get_mst_sequence_seeds in Hmst. apply mrf_potentials_seeds in Hmrf.
        rewrite Hseeds1, Hs in Hmst. simpl in Hmst.
        assert (Hl : length (seeds self3) = length seeds') by (rewrite Hmrf; lia).
        rewrite IH by lia. now rewrite Hl.
      * rewrite Hs in Hseeds1. simpl in Hseeds1.
        assert (Hl : length (seeds self1) = length seeds') by lia.
        rewrite IH by lia. now rewrite Hl.
Qed.

Lemma seed_loop_rounds_witness :
  seed_loop log_tangent mean_seq std_seq kruskal 5 row6_voted
  = seed_loop log_tangent mean_seq std_seq kruskal (length (seeds row6_voted))
      row6_voted
  /\ forall self',
       seed_loop log_tangent mean_seq std_seq kruskal 5 row6_voted = Ok self' ->
       seeds self' = [].
Proof.
  apply (seed_loop_rounds log_tangent mean_seq std_seq kruskal 5 row6_voted).
  simpl. lia.
Defined.

(** * The bounding box of all candidates *)

(** One more input file: lines 425-430 leave the minimum of the lower
    corners and the maximum of the upper corners. *)
Lemma keep_extrema (a0 a1 a2 a3 a4 a5 c0 c1 c2 c3 c4 c5 : Z) :
  keep_maximum [3; 4; 5]%nat [c0; c1; c2; c3; c4; c5]
    (keep_minimum [0; 1; 2]%nat [c0; c1; c2; c3; c4; c5] [a0; a1; a2; a3; a4; a5])
  = [Z.min a0 c0; Z.min a1 c1; Z.min a2 c2; Z.max a3 c3; Z.max a4 c4; Z.max a5 c5].
Proof.
  cbn [keep_minimum nth].
  destruct (Z.ltb_spec c0 a0); cbn [nth insert list_insert];
    destruct (Z.ltb_spec c1 a1); cbn [nth insert list_insert];
    destruct (Z.ltb_spec c2 a2); cbn [nth insert list_insert keep_maximum];
    destruct (Z.ltb_spec a3 c3); cbn [nth insert list_insert];
    destruct (Z.ltb_spec a4 c4); cbn [nth insert list_insert];
    destruct (Z.ltb_spec a5 c5); cbn [nth insert list_insert];
    repeat (f_equal; try lia).
Qed.

Lemma encloses_step (bbox b : list Z) (seen : list (list Z)) :
  encloses bbox seen ->
  encloses (keep_maximum [3; 4; 5]%nat (corners b)
              (keep_minimum [0; 1; 2]%nat (corners b) bbox)) (b :: seen).
Proof.
  intros (Hlen & Hall).
  destruct bbox as [|a0 [|a1 [|a2 [|a3 [|a4 [|a5 [|]]]]]]]; try discriminate.
  unfold corners at 1 2. rewrite keep_extrema.
  split; [reflexivity|]. intros i Hi.
  destruct (Hall i Hi) as (Hin & (bl & Hbl & Hlo) & (bu & Hbu & Hup)).
  assert (Hi' : i = 0%nat \/ i = 1%nat \/ i = 2%nat) by lia.
  split; [|split].
  - intros b' [<-|Hb'].
    + destruct Hi' as [->|[->| ->]]; cbn; lia.
    + specialize (Hin b' Hb').
      destruct Hi' as [->|[->| ->]]; cbn in *; lia.
  - destruct Hi' as [->|[->| ->]]; cbn [nth] in *.
    + destruct (Z.min_spec a0 (nth 0 b 0)) as [[_ ->]|[_ ->]];
        [exists bl|exists b]; simpl; auto.
    + destruct (Z.min_spec a1 (nth 1 b 0)) as [[_ ->]|[_ ->]];
        [exists bl|exists b]; simpl; auto.
    + destruct (Z.min_spec a2 (nth 2 b 0)) as [[_ ->]|[_ ->]];
        [exists bl|exists b]; simpl; auto.
  - destruct Hi' as [->|[->| ->]]; cbn [nth Nat.add] in *.
    + destruct (Z.max_spec a3 (nth 0 b 0 + nth 3 b 0)) as [[_ ->]|[_ ->]];
        [exists b|exists bu]; simpl; auto.
    + destruct (Z.max_spec a4 (nth 1 b 0 + nth 4 b 0)) as [[_ ->]|[_ ->]];
        [exists b|exists bu]; simpl; auto.
    + destruct (Z.max_spec a5 (nth 2 b 0 + nth 5 b 0)) as [[_ ->]|[_ ->]];
        [exists b|exists bu]; simpl; auto.
Qed.

Lemma bounding_box_encloses (boxes : list (list Z)) :
  forall seen bbox,
  encloses bbox seen ->
  exists bbox', bounding_box boxes (Some bbox) = Some bbox'
                /\ encloses bbox' (rev boxes ++ seen).
Proof.
  induction boxes as [|b boxes IH]; intros seen bbox Henc.
  - exists bbox. auto.
  - cbn [bounding_box].
    destruct (IH (b :: seen) _ (encloses_step bbox b seen Henc)) as (bbox' & Hb & He).
    exists bbox'. split; [exact Hb|]. simpl. now rewrite <- app_assoc.
Qed.

(** X12. The box the command line passes to the constructor: with one
    input file or more, the loop of lines 401-431 ends with the smallest box
    that holds the box of every input file; along each axis the least of the
    lower corners and the greatest of the upper corners, each of them the
    corner of some file. *)
Theorem bounding_box_union (b0 : list Z) (boxes : list (list Z)) :
  exists bbox,
    bounding_box (b0 :: boxes) None = Some bbox
    /\ encloses bbox (b0 :: boxes).
Proof.
  cbn [bounding_box].
  destruct (bounding_box_encloses boxes [b0] (corners b0)) as (bbox & Hb & He).
  - split; [reflexivity|]. intros i Hi.
    split; [intros b [<-|[]]; lia|].
    split; exists b0; simpl; auto.
  - exists bbox. split; [exact Hb|].
    destruct He as (Hlen & Hall). split; [exact Hlen|].
    assert (Hsame : forall b, In b (rev boxes ++ [b0]) <-> In b (b0 :: boxes)).
    { intros b. rewrite List.in_app_iff, <- List.in_rev. simpl. tauto. }
    intros i Hi. destruct (Hall i Hi) as (Hin & (bl & Hbl & Hlo) & (bu & Hbu & Hup)).
    split; [intros b Hb'; apply Hin, Hsame, Hb'|].
    split; [exists bl|exists bu]; split; auto; now apply Hsame.
Qed.

(** * The arrays within the bounding box *)

(** A slice within the sequence. *)
Lemma slice_inside {A} (l : list A) (lo hi : Z) (d : A) :
  0 <= lo <= hi -> hi <= Z.of_nat (length l) ->
  length (slice l lo hi) = Z.to_nat (hi - lo)
  /\ forall i, (i < Z.to_nat (hi - lo))%nat ->
       nth i (slice l lo hi) d = nth (Z.to_nat lo + i) l d.
Proof.
  intros Hlo Hhi. unfold slice, slice_bound.
  replace (lo <? 0) with false by (symmetry; apply Z.ltb_ge; lia).
  replace (hi <? 0) with false by (symmetry; apply Z.ltb_ge; lia).
  rewrite !Z.min_r by lia.
  replace (Z.to_nat hi - Z.to_nat lo)%nat with (Z.to_nat (hi - lo)) by lia.
  split.
  - rewrite List.length_firstn, List.length_skipn. lia.
  - intros i Hi. rewrite List.nth_firstn, List.nth_skipn.
    now replace (i <? Z.to_nat (hi - lo))%nat with true
      by (symmetry; now apply Nat.ltb_lt).
Qed.

(** X13. The arrays the constructor works on (lines 63 and 88), for a box
    [x0, y0, z0, x1, y1, z1] that lies within an image of shape
    [(depth, height, width)]: the array has the shape
    [(z1 - z0, y1 - y0, x1 - x0)], and its voxel [(z, y, x)] is the voxel
    [(z0 + z, y0 + y, x0 + x)] of the image. *)
Theorem crop_inside {A} (d : A) (a : volume A) (depth height width : nat)
    (x0 y0 z0 x1 y1 z1 : Z) :
  has_shape a (depth, height, width) ->
  0 <= x0 <= x1 -> x1 <= Z.of_nat width ->
  0 <= y0 <= y1 -> y1 <= Z.of_nat height ->
  0 <= z0 <= z1 -> z1 <= Z.of_nat depth ->
  let cropped := crop a [x0; y0; z0; x1; y1; z1] in
  has_shape cropped (Z.to_nat (z1 - z0), Z.to_nat (y1 - y0), Z.to_nat (x1 - x0))
  /\ forall z y x,
       (z < Z.to_nat (z1 - z0))%nat -> (y < Z.to_nat (y1 - y0))%nat ->
       (x < Z.to_nat (x1 - x0))%nat ->
       voxel d cropped z y x
       = voxel d a (Z.to_nat z0 + z) (Z.to_nat y0 + y) (Z.to_nat x0 + x).
Proof.
  intros (Hd & Hplanes) Hx0 Hx1 Hy0 Hy1 Hz0 Hz1 cropped.
  unfold cropped, crop. cbn [nth].
  destruct (slice_inside a z0 z1 [] Hz0) as (Hlz & Hnz); [lia|].
  assert (Hplane : forall z, (z < Z.to_nat (z1 - z0))%nat ->
            nth z (map (fun plane => map (fun row => slice row x0 x1)
                                         (slice plane y0 y1)) (slice a z0 z1)) []
            = map (fun row => slice row x0 x1)
                  (slice (nth (Z.to_nat z0 + z) a []) y0 y1)).
  { intros z Hz. rewrite (nth_map_lt _ _ _ []) by lia. now rewrite Hnz. }
  assert (Hrows : forall z, (z < Z.to_nat (z1 - z0))%nat ->
            length (slice (nth (Z.to_nat z0 + z) a []) y0 y1) = Z.to_nat (y1 - y0)
            /\ forall y, (y < Z.to_nat (y1 - y0))%nat ->
                 nth y (slice (nth (Z.to_nat z0 + z) a []) y0 y1) []
                 = nth (Z.to_nat y0 + y) (nth (Z.to_nat z0 + z) a []) []).
  { intros z Hz. destruct (Hplanes (Z.to_nat z0 + z)%nat) as (Hh & _); [lia|].
    apply slice_inside; lia. }
  assert (Hcells : forall z y, (z < Z.to_nat (z1 - z0))%nat ->
            (y < Z.to_nat (y1 - y0))%nat ->
            let row := nth (Z.to_nat y0 + y) (nth (Z.to_nat z0 + z) a []) [] in
            length (slice row x0 x1) = Z.to_nat (x1 - x0)
            /\ forall x, (x < Z.to_nat (x1 - x0))%nat ->
                 nth x (slice row x0 x1) d = nth (Z.to_nat x0 + x) row d).
  { intros z y Hz Hy row.
    destruct (Hplanes (Z.to_nat z0 + z)%nat) as (_ & Hw); [lia|].
    apply slice_inside; [lia|]. unfold row. rewrite Hw; lia. }
  split.
  - split; [now rewrite length_map|]. intros z Hz. rewrite Hplane by assumption.
    destruct (Hrows z Hz) as (Hly & Hny).
    split; [now rewrite length_map|]. intros y Hy.
    rewrite (nth_map_lt _ _ _ []) by lia. rewrite Hny by assumption.
    now apply Hcells.
  - intros z y x Hz Hy Hx. unfold voxel. rewrite Hplane by assumption.
    destruct (Hrows z Hz) as (Hly & Hny).
    rewrite (nth_map_lt _ _ _ []) by lia. rewrite Hny by assumption.
    now apply Hcells.
Qed.

Lemma crop_inside_witness :
  let a := [[[1; 2; 3; 4]; [5; 6; 7; 8]]] in
  let cropped := crop a [1; 0; 0; 3; 2; 1] in
  has_shape cropped (Z.to_nat (1 - 0), Z.to_nat (2 - 0), Z.to_nat (3 - 1))
  /\ forall z y x,
       (z < Z.to_nat (1 - 0))%nat -> (y < Z.to_nat (2 - 0))%nat ->
       (x < Z.to_nat (3 - 1))%nat ->
       voxel 0 cropped z y x
       = voxel 0 a (Z.to_nat 0 + z) (Z.to_nat 0 + y) (Z.to_nat 1 + x).
Proof.
  apply (crop_inside 0 [[[1; 2; 3; 4]; [5; 6; 7; 8]]] 1 2 4 1 0 0 3 2 1);
    try (simpl; lia).
  split; [reflexivity|]. intros z Hz. assert (z = 0%nat) as -> by lia.
  split; [reflexivity|]. intros y Hy.
  assert (y = 0%nat \/ y = 1%nat) as [-> | ->] by lia; reflexivity.
Defined.

(** * The output image *)

Lemma length_pad_axis {A} (before after : Z) (fill : A) (l : list A) :
  length (pad_axis before after fill l)
  = (Z.to_nat before + length l + Z.to_nat after)%nat.
Proof. unfold pad_axis. rewrite !length_app, !repeat_length. lia. Qed.

Lemma nth_pad_axis {A} (before after : Z) (fill : A) (l : list A) (i : nat) (d : A) :
  (i < Z.to_nat before + length l + Z.to_nat after)%nat ->
  nth i (pad_axis before after fill l) d
  = if ((Z.to_nat before <=? i) && (i <? Z.to_nat before + length l))%nat
    then nth (i - Z.to_nat before) l d else fill.
Proof.
  intros Hi. unfold pad_axis.
  destruct (Nat.leb_spec (Z.to_nat before) i) as [Hb|Hb]; cbn [andb].
  - rewrite List.app_nth2 by (rewrite repeat_length; lia). rewrite repeat_length.
    destruct (Nat.ltb_spec i (Z.to_nat before + length l)) as [Hl|Hl].
    + now rewrite List.app_nth1 by lia.
    + rewrite List.app_nth2 by lia. apply List.nth_repeat_lt. lia.
  - rewrite List.app_nth1 by (rewrite repeat_length; lia).
    apply List.nth_repeat_lt. lia.
Qed.

Lemma reshape_spec {A} (d : A) (depth height width : nat) (flat : list A) :
  has_shape (reshape d (depth, height, width) flat) (depth, height, width)
  /\ forall z y x, (z < depth)%nat -> (y < height)%nat -> (x < width)%nat ->
       voxel d (reshape d (depth, height, width) flat) z y x
       = nth ((z * height + y) * width + x) flat d.
Proof.
  unfold reshape, voxel.
  assert (Hz : forall z, (z < depth)%nat ->
            nth z (map (fun z => map (fun y => map (fun x =>
                     nth ((z * height + y) * width + x) flat d)
                     (List.seq 0 width)) (List.seq 0 height)) (List.seq 0 depth)) []
            = map (fun y => map (fun x => nth ((z * height + y) * width + x) flat d)
                     (List.seq 0 width)) (List.seq 0 height)).
  { intros z Hlt. rewrite (nth_map_lt _ _ _ 0%nat) by now rewrite List.length_seq.
    now rewrite List.seq_nth. }
  assert (Hy : forall z y, (y < height)%nat ->
            nth y (map (fun y => map (fun x =>
                     nth ((z * height + y) * width + x) flat d)
                     (List.seq 0 width)) (List.seq 0 height)) []
            = map (fun x => nth ((z * height + y) * width + x) flat d)
                  (List.seq 0 width)).
  { intros z y Hlt. rewrite (nth_map_lt _ _ _ 0%nat) by now rewrite List.length_seq.
    now rewrite List.seq_nth. }
  split.
  - split; [now rewrite length_map, List.length_seq|]. intros z Hlt.
    rewrite Hz by assumption.
    split; [now rewrite length_map, List.length_seq|]. intros y Hlty.
    rewrite Hy by assumption. now rewrite length_map, List.length_seq.
  - intros z y x Hltz Hlty Hltx. rewrite Hz, Hy by assumption.
    rewrite (nth_map_lt _ _ _ 0%nat) by now rewrite List.length_seq.
    now rewrite List.seq_nth.
Qed.

(** [np.pad] with widths that are not negative: the shape grows by the
    widths, the array sits after the leading widths, and zeros are all
    around. *)
Lemma np_pad_spec (a : volume Z) (depth height width : nat)
    (bz az by_ ay bx ax : Z) :
  has_shape a (depth, height, width) ->
  0 <= bz -> 0 <= az -> 0 <= by_ -> 0 <= ay -> 0 <= bx -> 0 <= ax ->
  exists out,
    np_pad a (depth, height, width) (bz, az) (by_, ay) (bx, ax) = Ok out
    /\ has_shape out (Z.to_nat bz + depth + Z.to_nat az,
                      Z.to_nat by_ + height + Z.to_nat ay,
                      Z.to_nat bx + width + Z.to_nat ax)%nat
    /\ forall z y x,
         (z < Z.to_nat bz + depth + Z.to_nat az)%nat ->
         (y < Z.to_nat by_ + height + Z.to_nat ay)%nat ->
         (x < Z.to_nat bx + width + Z.to_nat ax)%nat ->
         voxel 0 out z y x
         = if ((Z.to_nat bz <=? z) && (z <? Z.to_nat bz + depth)
               && ((Z.to_nat by_ <=? y) && (y <? Z.to_nat by_ + height))
               && ((Z.to_nat bx <=? x) && (x <? Z.to_nat bx + width)))%nat
           then voxel 0 a (z - Z.to_nat bz) (y - Z.to_nat by_) (x - Z.to_nat bx)
           else 0.
Proof.
  intros (Hd & Hplanes) Hbz Haz Hby Hay Hbx Hax.
  unfold np_pad. cbn [fst snd].
  replace (bz <? 0) with false by (symmetry; apply Z.ltb_ge; lia).
  replace (az <? 0) with false by (symmetry; apply Z.ltb_ge; lia).
  replace (by_ <? 0) with false by (symmetry; apply Z.ltb_ge; lia).
  replace (ay <? 0) with false by (symmetry; apply Z.ltb_ge; lia).
  replace (bx <? 0) with false by (symmetry; apply Z.ltb_ge; lia).
  replace (ax <? 0) with false by (symmetry; apply Z.ltb_ge; lia).
  cbn [orb].
  set (width' := (Z.to_nat bx + width + Z.to_nat ax)%nat).
  set (height' := (Z.to_nat by_ + height + Z.to_nat ay)%nat).
  set (rows := map (map (pad_axis bx ax 0)) a).
  set (planes := map (pad_axis by_ ay (repeat 0 width')) rows).
  eexists. split; [reflexivity|].
  assert (Hlen : length planes = depth).
  { unfold planes, rows. now rewrite !length_map. }
  assert (Hplane : forall k, (k < depth)%nat ->
            nth k planes []
            = pad_axis by_ ay (repeat 0 width')
                (map (pad_axis bx ax 0) (nth k a []))).
  { intros k Hk. unfold planes, rows.
    rewrite (nth_map_lt _ _ _ []) by (rewrite length_map; lia).
    now rewrite (nth_map_lt _ _ _ []) by lia. }
  assert (Hrow : forall k j, (k < depth)%nat -> (j < height)%nat ->
            nth j (map (pad_axis bx ax 0) (nth k a [])) []
            = pad_axis bx ax 0 (nth j (nth k a []) [])).
  { intros k j Hk Hj. destruct (Hplanes k Hk) as (Hh & _).
    now rewrite (nth_map_lt _ _ _ []) by lia. }
  assert (Hz : forall z, (z < Z.to_nat bz + depth + Z.to_nat az)%nat ->
            nth z (pad_axis bz az (repeat (repeat 0 width') height') planes) []
            = if ((Z.to_nat bz <=? z) && (z <? Z.to_nat bz + depth))%nat
              then nth (z - Z.to_nat bz) planes []
              else repeat (repeat 0 width') height').
  { intros z Hlt. rewrite nth_pad_axis by (rewrite Hlen; lia). now rewrite Hlen. }
  assert (Hy : forall k y, (k < depth)%nat -> (y < height')%nat ->
            nth y (nth k planes []) []
            = if ((Z.to_nat by_ <=? y) && (y <? Z.to_nat by_ + height))%nat
              then pad_axis bx ax 0 (nth (y - Z.to_nat by_) (nth k a []) [])
              else repeat 0 width').
  { intros k y Hk Hlt. rewrite Hplane by assumption.
    destruct (Hplanes k Hk) as (Hh & _).
    rewrite nth_pad_axis by (rewrite length_map, Hh; exact Hlt).
    rewrite length_map, Hh.
    destruct (_ && _)%nat eqn:E; [|reflexivity].
    apply andb_prop in E as (E1 & E2).
    apply Nat.leb_le in E1. apply Nat.ltb_lt in E2.
    apply Hrow; [assumption|lia]. }
  split.
  - split; [rewrite length_pad_axis, Hlen; reflexivity|].
    intros z Hlt. rewrite Hz by assumption.
    destruct (_ && _)%nat eqn:E.
    + apply andb_prop in E as (E1 & E2).
      apply Nat.leb_le in E1. apply Nat.ltb_lt in E2.
      assert (Hk : (z - Z.to_nat bz < depth)%nat) by lia.
      destruct (Hplanes _ Hk) as (Hh & Hw).
      split.
      * rewrite Hplane by assumption. now rewrite length_pad_axis, length_map, Hh.
      * intros y Hlty. rewrite Hy by assumption.
        destruct (_ && _)%nat eqn:E'; [|apply repeat_length].
        apply andb_prop in E' as (E3 & E4).
        apply Nat.leb_le in E3. apply Nat.ltb_lt in E4.
        rewrite length_pad_axis, Hw by lia. reflexivity.
    + split; [apply repeat_length|]. intros y Hlty.
      rewrite List.nth_repeat_lt by assumption. apply repeat_length.
  - intros z y x Hltz Hlty Hltx. unfold voxel. rewrite Hz by assumption.
    destruct ((Z.to_nat bz <=? z) && (z <? Z.to_nat bz + depth))%nat eqn:E.
    + apply andb_prop in E as (E1 & E2).
      apply Nat.leb_le in E1. apply Nat.ltb_lt in E2.
      assert (Hk : (z - Z.to_nat bz < depth)%nat) by lia.
      destruct (Hplanes _ Hk) as (Hh & Hw).
      rewrite Hy by assumption. cbn [andb].
      destruct ((Z.to_nat by_ <=? y) && (y <? Z.to_nat by_ + height))%nat eqn:E'.
      * apply andb_prop in E' as (E3 & E4).
        apply Nat.leb_le in E3. apply Nat.ltb_lt in E4.
        rewrite nth_pad_axis by (rewrite Hw by lia; exact Hltx).
        rewrite Hw by lia. reflexivity.
      * cbn [andb]. now apply List.nth_repeat_lt.
    + cbn [andb]. rewrite List.nth_repeat_lt by assumption.
      now apply List.nth_repeat_lt.
Qed.

Lemma init_bbox_inv imgs brain bbox b mr pl same thr self thr' bbox' :
  __init__bbox imgs brain bbox b mr pl same thr = Ok (self, thr', bbox') ->
  bbox' = pad_bbox pl bbox /\ 0 <= pl
  /\ shape self = array_shape (nth 0%nat (map (fun img => crop img bbox') imgs) []).
Proof.
  unfold __init__bbox. intros H.
  apply bind_Ok_inv in H as ([self0 thr0] & Hinit & [= <- <- <-]).
  apply init_inv in Hinit
    as (lv & votes & labels0 & _ & Hpl & _ & _ & _ & _ & _ & ->).
  auto.
Qed.

(** X15. The box the constructor keeps is the caller's box padded by
    [patch_length], never clipped to the image.  [get_output_image] ends in
    [ValueError], whatever [run] has computed, exactly when that padded box
    leaves the image: when the caller's box comes closer than [patch_length]
    to a border. *)
Theorem output_outside_volume (imgs : list (volume Z)) (brain : volume float)
    (x0 y0 z0 x1 y1 z1 : Z) b mr pl same thr (self : AWoL_MRF) thr' bbox'
    (self' : AWoL_MRF) (width height depth : Z) :
  __init__bbox imgs brain [x0; y0; z0; x1; y1; z1] b mr pl same thr
  = Ok (self, thr', bbox') ->
  get_output_image_bbox self' bbox' (width, height, depth) = Raise ValueError
  <-> x0 < pl \/ y0 < pl \/ z0 < pl
      \/ width < x1 + pl \/ height < y1 + pl \/ depth < z1 + pl.
Proof.
  intros Hinit. apply init_bbox_inv in Hinit as (-> & Hpl & _).
  unfold get_output_image_bbox, np_pad, pad_bbox. cbn [firstn skipn map app nth fst snd].
  destruct (shape self') as [[d h] w].
  destruct (Z.ltb_spec (z0 - pl) 0); cbn [orb]; [split; [lia|reflexivity]|].
  destruct (Z.ltb_spec (depth - (z1 + pl)) 0); cbn [orb]; [split; [lia|reflexivity]|].
  destruct (Z.ltb_spec (y0 - pl) 0); cbn [orb]; [split; [lia|reflexivity]|].
  destruct (Z.ltb_spec (height - (y1 + pl)) 0); cbn [orb]; [split; [lia|reflexivity]|].
  destruct (Z.ltb_spec (x0 - pl) 0); cbn [orb]; [split; [lia|reflexivity]|].
  destruct (Z.ltb_spec (width - (x1 + pl)) 0); cbn [orb]; [split; [lia|reflexivity]|].
  split; [discriminate|lia].
Qed.

Lemma row4_init_bbox :
  __init__bbox row4_volumes [[row4_brain]] [1; 0; 0; 4; 1; 1]
    (-0.2)%float 0 1 true [0.2; 0.2]%float
  = Ok (row4, [0.2; 0.2]%float, [0; -1; -1; 5; 2; 2]).
Proof. vm_compute. reflexivity. Qed.

Lemma output_outside_volume_witness :
  get_output_image_bbox row4_resolved [0; -1; -1; 5; 2; 2] (4, 1, 1)
  = Raise ValueError
  <-> 1 < 1 \/ 0 < 1 \/ 0 < 1 \/ 4 < 4 + 1 \/ 1 < 1 + 1 \/ 1 < 1 + 1.
Proof.
  apply (output_outside_volume row4_volumes [[row4_brain]] 1 0 0 4 1 1
           _ _ _ _ _ row4 _ _ row4_resolved 4 1 1 row4_init_bbox).
Defined.

Lemma row3_init_bbox :
  __init__bbox row4_volumes [[row4_brain]] [1; 0; 0; 4; 1; 1]
    (-0.2)%float 0 0 true [0.2; 0.2]%float
  = Ok (row3, [0.2; 0.2]%float, [1; 0; 0; 4; 1; 1]).
Proof. vm_compute. reflexivity. Qed.

(** X14. Where the padded box lies within the images, the constructor
    works on arrays of the shape of the padded box, and [get_output_image]
    returns an array of the shape of the brain image: a voxel of the box
    holds the label [self.labels] has for it, every voxel outside the box
    holds 0. *)
Theorem output_within_volume (img : volume Z) (imgs : list (volume Z))
    (brain : volume float) (x0 y0 z0 x1 y1 z1 : Z) b mr pl same thr
    (self : AWoL_MRF) thr' bbox' (self' : AWoL_MRF) (depth height width : nat) :
  has_shape img (depth, height, width) ->
  __init__bbox (img :: imgs) brain [x0; y0; z0; x1; y1; z1] b mr pl same thr
  = Ok (self, thr', bbox') ->
  pl <= x0 -> x0 < x1 -> x1 + pl <= Z.of_nat width ->
  pl <= y0 -> y0 < y1 -> y1 + pl <= Z.of_nat height ->
  pl <= z0 -> z0 < z1 -> z1 + pl <= Z.of_nat depth ->
  shape self' = shape self ->
  shape self = (Z.to_nat (z1 - z0 + 2 * pl), Z.to_nat (y1 - y0 + 2 * pl),
                Z.to_nat (x1 - x0 + 2 * pl))
  /\ exists out,
       get_output_image_bbox self' bbox'
         (Z.of_nat width, Z.of_nat height, Z.of_nat depth) = Ok out
       /\ has_shape out (depth, height, width)
       /\ forall z y x, (z < depth)%nat -> (y < height)%nat -> (x < width)%nat ->
            voxel 0 out z y x
            = match in_box bbox' (shape self') z y x with
              | Some i => nth i (labels self') 0
              | None => 0
              end.
Proof.
  intros Himg Hinit Hx0 Hx Hx1 Hy0 Hy Hy1 Hz0 Hz Hz1 Hshape.
  apply init_bbox_inv in Hinit as (-> & Hpl & Hself).
  unfold pad_bbox in *. cbn [firstn skipn map app nth] in *.
  destruct (crop_inside 0 img depth height width
              (x0 - pl) (y0 - pl) (z0 - pl) (x1 + pl) (y1 + pl) (z1 + pl) Himg)
    as ((Hd & Hplanes) & _); try lia.
  assert (Hdims : shape self
                  = (Z.to_nat (z1 - z0 + 2 * pl), Z.to_nat (y1 - y0 + 2 * pl),
                     Z.to_nat (x1 - x0 + 2 * pl))).
  { rewrite Hself. unfold array_shape.
    destruct (Hplanes 0%nat) as (Hh & Hw); [lia|].
    rewrite Hd, Hh, Hw by lia. repeat f_equal; lia. }
  split; [exact Hdims|].
  unfold get_output_image_bbox. cbn [nth]. rewrite Hshape, Hdims.
  set (d := Z.to_nat (z1 - z0 + 2 * pl)).
  set (h := Z.to_nat (y1 - y0 + 2 * pl)).
  set (w := Z.to_nat (x1 - x0 + 2 * pl)).
  destruct (reshape_spec 0 d h w (labels self')) as (Hre & Hvox).
  destruct (np_pad_spec _ d h w (z0 - pl) (Z.of_nat depth - (z1 + pl))
              (y0 - pl) (Z.of_nat height - (y1 + pl))
              (x0 - pl) (Z.of_nat width - (x1 + pl)) Hre)
    as (out & Hout & Hos & Hov); try lia.
  exists out. split; [exact Hout|].
  replace (Z.to_nat (z0 - pl) + d + Z.to_nat (Z.of_nat depth - (z1 + pl)))%nat
    with depth in * by (unfold d; lia).
  replace (Z.to_nat (y0 - pl) + h + Z.to_nat (Z.of_nat height - (y1 + pl)))%nat
    with height in * by (unfold h; lia).
  replace (Z.to_nat (x0 - pl) + w + Z.to_nat (Z.of_nat width - (x1 + pl)))%nat
    with width in * by (unfold w; lia).
  split; [exact Hos|].
  intros z y x Hlz Hly Hlx. rewrite Hov by assumption.
  unfold in_box. cbn [nth].
  destruct ((Z.to_nat (z0 - pl) <=? z)%nat && (z <? Z.to_nat (z0 - pl) + d)%nat
            && ((Z.to_nat (y0 - pl) <=? y)%nat && (y <? Z.to_nat (y0 - pl) + h)%nat)
            && ((Z.to_nat (x0 - pl) <=? x)%nat && (x <? Z.to_nat (x0 - pl) + w)%nat))
    eqn:E; [|reflexivity].
  apply andb_prop in E as (E & Ex). apply andb_prop in E as (Ez & Ey).
  apply andb_prop in Ex as (Ex1 & Ex2). apply andb_prop in Ey as (Ey1 & Ey2).
  apply andb_prop in Ez as (Ez1 & Ez2).
  apply Nat.leb_le in Ex1, Ey1, Ez1. apply Nat.ltb_lt in Ex2, Ey2, Ez2.
  apply Hvox; lia.
Qed.

Lemma output_within_volume_witness :
  shape row3 = (Z.to_nat (1 - 0 + 2 * 0), Z.to_nat (1 - 0 + 2 * 0),
                Z.to_nat (4 - 1 + 2 * 0))
  /\ exists out,
       get_output_image_bbox row3 [1; 0; 0; 4; 1; 1]
         (Z.of_nat 4, Z.of_nat 1, Z.of_nat 1) = Ok out
       /\ has_shape out (1, 1, 4)%nat
       /\ forall z y x, (z < 1)%nat -> (y < 1)%nat -> (x < 4)%nat ->
            voxel 0 out z y x
            = match in_box [1; 0; 0; 4; 1; 1] (shape row3) z y x with
              | Some i => nth i (labels row3) 0
              | None => 0
              end.
Proof.
  assert (Himg : has_shape [[[0; 0; 1; 1]]] (1, 1, 4)%nat).
  { split; [reflexivity|]. intros z Hz. assert (z = 0%nat) as -> by lia.
    split; [reflexivity|]. intros y Hy. assert (y = 0%nat) as -> by lia.
    reflexivity. }
  apply (output_within_volume _ _ _ 1 0 0 4 1 1 _ _ _ _ _ row3 _ _ row3 1 1 4
           Himg row3_init_bbox); simpl; try lia; reflexivity.
Defined.

(** * The majority vote *)

(** X16. The majority vote the constructor takes (lines 58-82), for
    candidates of one shape.  The label values are strictly ascending, and
    every candidate shows all of them and no other value.  The mode of a
    voxel is the label value most candidates give it, the lowest such value
    when several are level, and [mode[1]] is the number of those candidates. *)
Theorem init_majority imgs brain shp b mr pl same thr (self : AWoL_MRF) thr'
    (p : nat) :
  __init__ imgs brain shp b mr pl same thr = Ok (self, thr') ->
  List.Forall (fun img => length img = length (nth 0%nat imgs [])) imgs ->
  (p < length (labels self))%nat ->
  let lv := label_values self in
  let m := nth p (fst (mode self)) 0%nat in
  StronglySorted Z.lt lv
  /\ (forall img v, In img imgs -> In v img <-> In v lv)
  /\ (m < length lv)%nat
  /\ nth p (snd (mode self)) 0 = Z.of_nat (votes_for imgs (nth m lv 0) p)
  /\ (forall k, (k < length lv)%nat ->
        (votes_for imgs (nth k lv 0%Z) p <= votes_for imgs (nth m lv 0%Z) p)%nat)
  /\ (forall k, (k < m)%nat ->
        (votes_for imgs (nth k lv 0%Z) p < votes_for imgs (nth m lv 0%Z) p)%nat).
Proof.
  intros Hinit Hshape Hp lv m.
  apply init_inv in Hinit
    as (lv0 & votes & labels0 & _ & _ & _ & Hvotes & _ & Hne & Hfind & Hself).
  assert (Hlv : lv = lv0) by (unfold lv; rewrite Hself; reflexivity).
  assert (Hmode : mode self = mode_of votes) by (rewrite Hself; reflexivity).
  assert (Hlen : length (labels self) = length (nth 0%nat votes [])).
  { rewrite Hself. cbn [labels]. rewrite (find_hcv_length _ _ _ _ _ _ _ _ Hfind).
    apply repeat_length. }
  pose proof (collect_votes_unique _ _ _ Hvotes) as Hunique.
  destruct (collect_votes_shape _ _ _ Hvotes)
    as (first & rest & -> & Hlv0 & Hlvotes & Hrows).
  cbn [nth] in *.
  assert (Hpos : (0 < length lv0)%nat) by (destruct lv0; [congruence|simpl; lia]).
  assert (Hfirst : length (nth 0%nat votes []) = length first).
  { rewrite Forall_forall in Hrows. apply Hrows, list_elem_of_In, List.nth_In. lia. }
  assert (Hp' : (p < length first)%nat) by lia.
  assert (Hcell : forall k, (k < length lv0)%nat ->
            nth k (column votes p) 0 = Z.of_nat (votes_for (first :: rest) (nth k lv0 0) p)).
  { intros k Hk. unfold column.
    rewrite (nth_map_lt _ _ _ []) by lia.
    now rewrite (collect_votes_cell _ _ _ k p Hvotes Hshape Hk Hp'). }
  assert (Hcol : column votes p <> []).
  { intros E. apply (f_equal (@length Z)) in E. unfold column in E.
    rewrite length_map in E. simpl in E. lia. }
  destruct (np_argmax_spec _ Hcol) as (Harg & Hmax & Hfst).
  assert (Hcl : length (column votes p) = length lv0)
    by (unfold column; now rewrite length_map).
  rewrite Hcl in Harg, Hmax.
  assert (Hm : m = np_argmax (column votes p)).
  { unfold m. rewrite Hmode. apply mode_of_nth. lia. }
  rewrite Hlv. split; [rewrite Hlv0; apply np_unique_sorted|].
  split.
  { intros img v Himg. rewrite Hlv0.
    assert (Heq : np_unique img = np_unique first).
    { rewrite <- Hlv0. revert img Himg. apply List.Forall_forall, Hunique.
      apply List.Forall_forall. intros img Himg.
      rewrite List.Forall_forall in Hshape. specialize (Hshape img Himg).
      intros ->. simpl in Hshape. lia. }
    rewrite <- Heq. symmetry. apply np_unique_In. }
  rewrite Hm. split; [exact Harg|].
  split.
  { rewrite Hmode. destruct (mode_of_nth votes p) as (_ & ->); [lia|].
    unfold np_amax. now apply Hcell. }
  split.
  - intros k Hk. specialize (Hmax k Hk). rewrite !Hcell in Hmax by assumption. lia.
  - intros k Hk. specialize (Hfst k Hk). rewrite !Hcell in Hfst by lia. lia.
Qed.

Lemma init_majority_witness :
  let lv := label_values row4 in
  let m := nth 1%nat (fst (mode row4)) 0%nat in
  StronglySorted Z.lt lv
  /\ (forall img v, In img row4_imgs -> In v img <-> In v lv)
  /\ (m < length lv)%nat
  /\ nth 1%nat (snd (mode row4)) 0 = Z.of_nat (votes_for row4_imgs (nth m lv 0) 1)
  /\ (forall k, (k < length lv)%nat ->
        (votes_for row4_imgs (nth k lv 0%Z) 1
         <= votes_for row4_imgs (nth m lv 0%Z) 1)%nat)
  /\ (forall k, (k < m)%nat ->
        (votes_for row4_imgs (nth k lv 0%Z) 1
         < votes_for row4_imgs (nth m lv 0%Z) 1)%nat).
Proof.
  apply (init_majority _ _ _ _ _ _ _ _ row4 _ 1 row4_init).
  - repeat constructor.
  - simpl. lia.
Defined.

(** * The thresholds after the constructor *)

(** X17. The list of thresholds is the caller's, and lines 79-80 extend it
    in place.  After a successful construction it is as long as the longer of
    the list given and [label_values], and starts with the list given: with
    as many thresholds as labels, or more, nothing is appended, surplus
    thresholds are accepted when [same_threshold] is true; with fewer,
    [same_threshold] is true and copies of the last threshold given follow. *)
Theorem init_thresholds imgs brain shp b mr pl same thr (self : AWoL_MRF) thr' :
  __init__ imgs brain shp b mr pl same thr = Ok (self, thr') ->
  let n := length (label_values self) in
  length thr' = Nat.max (length thr) n
  /\ (length thr <> n -> same = true)
  /\ ((n <= length thr)%nat -> thr' = thr)
  /\ ((length thr < n)%nat ->
      exists t, last thr = Some t /\ thr' = thr ++ repeat t (n - length thr)).
Proof.
  intros Hinit n.
  apply init_inv in Hinit
    as (lv & votes & labels0 & _ & _ & _ & _ & Hmatch & Hne & _ & Hself).
  assert (Hn : n = length lv) by (unfold n; rewrite Hself; reflexivity).
  rewrite Hn. clear Hn n Hself.
  unfold match_thresholds in Hmatch.
  destruct (Nat.eqb_spec (length lv) (length thr)) as [Heq|Hneq].
  { injection Hmatch as <-. rewrite Heq.
    split; [lia|]. split; [congruence|]. split; [reflexivity|lia]. }
  destruct same; [|discriminate]. cbn [negb] in Hmatch.
  destruct (last thr) as [t|] eqn:Hlast.
  - rewrite (pad_thresholds_Ok _ _ t Hlast) in Hmatch. injection Hmatch as <-.
    rewrite length_app, repeat_length.
    split; [lia|]. split; [reflexivity|]. split.
    + intros Hle. replace (length lv - length thr)%nat with 0%nat by lia.
      apply app_nil_r.
    + intros _. exists t. auto.
  - apply last_None in Hlast. subst thr.
    destruct lv as [|v lv]; [congruence|]. discriminate.
Qed.

Lemma row4_init_surplus :
  __init__ row4_imgs row4_brain (1, 1, 4)%nat (-0.2)%float 0 1 true
    [0.2; 0.2; 0.9]%float
  = Ok (row4, [0.2; 0.2; 0.9]%float).
Proof. vm_compute. reflexivity. Qed.

Lemma init_thresholds_witness :
  let n := length (label_values row4) in
  length [0.2; 0.2; 0.9]%float = Nat.max (length [0.2; 0.2; 0.9]%float) n
  /\ (length [0.2; 0.2; 0.9]%float <> n -> true = true)
  /\ ((n <= length [0.2; 0.2; 0.9]%float)%nat
      -> [0.2; 0.2; 0.9]%float = [0.2; 0.2; 0.9]%float)
  /\ ((length [0.2; 0.2; 0.9]%float < n)%nat ->
      exists t, last [0.2; 0.2; 0.9]%float = Some t
                /\ [0.2; 0.2; 0.9]%float
                   = [0.2; 0.2; 0.9]%float ++ repeat t (n - length [0.2; 0.2; 0.9]%float)).
Proof.
  apply (init_thresholds _ _ _ _ _ _ _ _ row4 _ row4_init_surplus).
Defined.

(** * The graph of a patch *)

Lemma weight_matrix_entry (self : AWoL_MRF) (i j : nat) :
  (i < length (lcvp self))%nat -> (j < length (lcvp self))%nat ->
  entry (weight_matrix self) (i, j)
  = if (i <=? j)%nat
    then weight self (nth i (lcvp self) 0%nat) (nth j (lcvp self) 0%nat)
    else 0%float.
Proof.
  intros Hi Hj. unfold entry, weight_matrix. cbn [fst snd].
  rewrite (nth_map_lt _ _ _ 0%nat) by now rewrite List.length_seq.
  rewrite (nth_map_lt _ _ _ 0%nat) by now rewrite List.length_seq.
  now rewrite !List.seq_nth.
Qed.

(** X18. The edges of a patch.  With neighbourhoods that leave the voxel
    itself out, as [find_lcv] builds them, the weight matrix has zeros on and
    below its diagonal; so every edge of a spanning tree that adds none to the
    graph joins a low-confidence voxel of the patch to one that comes later in
    [self.lcvp].  When the routine leaves the weights of the edges it keeps as
    they are, the entry of the tree matrix that line 244 reads is the value
    lines 228-233 give the pair: the intensity gradient of direct neighbours,
    100 times the distance of the others; and it is not zero. *)
Theorem weight_matrix_edges
    (minimum_spanning_tree : list (list float) -> list (list float))
    (self : AWoL_MRF) (e : nat * nat) :
  (forall v, In v (lcvp self) -> ~ In v (default [] (neighbors_small self !! v))) ->
  keeps_edges minimum_spanning_tree (weight_matrix self) ->
  keeps_weights minimum_spanning_tree (weight_matrix self) ->
  In e (argwhere (minimum_spanning_tree (weight_matrix self))) ->
  let mst := minimum_spanning_tree (weight_matrix self) in
  let x := nth (fst e) (lcvp self) 0%nat in
  let y := nth (snd e) (lcvp self) 0%nat in
  (fst e < snd e)%nat /\ (snd e < length (lcvp self))%nat
  /\ entry mst e
     = (if mem x (default [] (neighbors_small self !! y))
        then abs (nth x (intensity self) 0 - nth y (intensity self) 0)
        else 100 * sqrt (float_of_Z (dist2 (shape self) x y)))%float
  /\ (entry mst e =? 0)%float = false.
Proof.
  intros Hself Hkeeps Hweights He mst x y. unfold mst.
  rewrite (Hweights e He).
  apply Hkeeps, argwhere_range in He as (Hi & Hj & Hz).
  destruct (weight_matrix_shape self) as (Hlen & Hrows).
  rewrite Hlen in Hi. rewrite Hrows in Hj by assumption.
  unfold x, y. clear mst x y.
  destruct e as [i j]. cbn [fst snd] in *.
  rewrite weight_matrix_entry in * by assumption.
  destruct (Nat.leb_spec i j) as [Hle|Hgt]; [|discriminate].
  destruct (Nat.eq_dec i j) as [<-|Hne]; [|repeat split; auto; lia].
  exfalso. unfold weight in Hz.
  assert (Hin : In (nth i (lcvp self) 0%nat) (lcvp self)) by now apply List.nth_In.
  apply Hself in Hin.
  destruct (mem _ _) eqn:Hmem; [apply mem_In in Hmem; contradiction|].
  rewrite dist2_self in Hz. vm_compute in Hz. discriminate.
Qed.

Lemma weight_matrix_edges_witness :
  let mst := kruskal (weight_matrix row6_graded) in
  let x := nth (fst (0, 1)%nat) (lcvp row6_graded) 0%nat in
  let y := nth (snd (0, 1)%nat) (lcvp row6_graded) 0%nat in
  (fst (0, 1) < snd (0, 1))%nat /\ (snd (0, 1) < length (lcvp row6_graded))%nat
  /\ entry mst (0, 1)%nat
     = (if mem x (default [] (neighbors_small row6_graded !! y))
        then abs (nth x (intensity row6_graded) 0 - nth y (intensity row6_graded) 0)
        else 100 * sqrt (float_of_Z (dist2 (shape row6_graded) x y)))%float
  /\ (entry mst (0, 1)%nat =? 0)%float = false.
Proof.
  apply (weight_matrix_edges kruskal row6_graded (0, 1)%nat).
  - intros v [<-|[<-|[]]]; vm_compute; intuition discriminate.
  - apply kruskal_keeps_edges.
  - apply kruskal_keeps_weights.
  - vm_compute. auto.
Defined.

(** * The doubleton potential *)

Lemma neighbour_count (nlflat : list Z) (value : Z) (n : list nat) :
  value <> -1 ->
  length n
  = (length (where_eq nlflat value n) + length (where_eq nlflat (-1)%Z n)
     + length (List.filter (fun q => negb (nth q nlflat 0 =? value)%Z
                                     && negb (nth q nlflat 0 =? -1)%Z) n))%nat.
Proof.
  intros Hv. unfold where_eq. induction n as [|q n IH]; simpl; [reflexivity|].
  destruct (Z.eqb_spec (nth q nlflat 0) value) as [E1|E1];
    destruct (Z.eqb_spec (nth q nlflat 0) (-1)) as [E2|E2]; simpl; lia.
Qed.

(** X19. The doubleton potential of line 274, for a label value other than
    the sentinel: [2*sum(nlflat[n] == value) + sum(nlflat[n] == -1) - len(n)]
    is the number of direct neighbours that hold [value] less the number of
    those that hold another label; a neighbour still at the sentinel counts for
    nothing. *)
Theorem mrf_double_balance (beta : float) (nlflat : list Z) (n : list nat)
    (value : Z) :
  value <> -1 ->
  let same := Z.of_nat (length (where_eq nlflat value n)) in
  let other :=
    Z.of_nat (length (List.filter (fun q => negb (nth q nlflat 0 =? value)
                                            && negb (nth q nlflat 0 =? -1)) n)) in
  mrf_double beta nlflat n value = (beta * float_of_Z (same - other)%Z)%float.
Proof.
  intros Hv same other. unfold mrf_double, same, other. f_equal. f_equal.
  pose proof (neighbour_count nlflat value n Hv). lia.
Qed.

Lemma mrf_double_balance_witness :
  let nlflat := [0; 0; -1; 0; 1; 1] in
  let n := [1; 3; 4]%nat in
  let same := Z.of_nat (length (where_eq nlflat 0 n)) in
  let other :=
    Z.of_nat (length (List.filter (fun q => negb (nth q nlflat 0 =? 0)
                                            && negb (nth q nlflat 0 =? -1)) n)) in
  mrf_double (-0.2)%float nlflat n 0
  = ((-0.2) * float_of_Z (same - other)%Z)%float.
Proof.
  apply (mrf_double_balance (-0.2)%float [0; 0; -1; 0; 1; 1] [1; 3; 4]%nat 0).
  lia.
Defined.
